(** * Bulk domain resolver: a shallow embedding and its properties

    The program under study is the third command of the repository: it reads
    a list of domains, resolves each of them to an IPv4 address with a pool of
    goroutines, and records every address it has not seen before in
    [ips.txt].  Go strings are byte strings and are modelled by [string];
    the set [map[string]struct{}] is a [gset string]; Go's [int] is the
    64-bit two's complement integer, a [Z] whose wrap-around is written out. *)

From Stdlib Require Import ZArith List String Ascii Bool Lia.
From stdpp Require Import gmap strings list sets pretty.

Local Open Scope Z_scope.

(** ** Go's [int] *)

Module GoInt.

Definition min_int : Z := - 2 ^ 63.
Definition max_int : Z := 2 ^ 63 - 1.

(** Two's complement wrap-around of an arithmetic result. *)
Definition wrap (z : Z) : Z := (z + 2 ^ 63) mod 2 ^ 64 - 2 ^ 63.

Definition in_range (z : Z) : Prop := min_int <= z <= max_int.

Definition add (a b : Z) : Z := wrap (a + b).
Definition mul (a b : Z) : Z := wrap (a * b).

(** Go's [%] truncates towards zero, as [Z.rem] does. *)
Definition rem (a b : Z) : Z := Z.rem a b.

End GoInt.

(** ** The [strings] package *)

Module Strings.

Definition byte_of (c : ascii) : N := N_of_ascii c.

(** The six bytes of [asciiSpace]: tab, line feed, vertical tab, form feed,
    carriage return and space. *)
Definition asciiSpace (c : ascii) : bool :=
  let n := byte_of c in
  ((9 <=? n) && (n <=? 13) || (n =? 32))%N.

(** [unicode.IsSpace] on the runes above U+007F, read off their UTF-8
    encodings: U+0085 and U+00A0 take two bytes; U+1680, U+2000..U+200A,
    U+2028, U+2029, U+202F, U+205F and U+3000 take three. *)
Definition space2 (a b : ascii) : bool :=
  let x := byte_of a in
  let y := byte_of b in
  ((x =? 194) && ((y =? 133) || (y =? 160)))%N.

Definition space3 (a b c : ascii) : bool :=
  let x := byte_of a in
  let y := byte_of b in
  let z := byte_of c in
  ((x =? 225) && (y =? 154) && (z =? 128)
   || (x =? 226) && (y =? 128)
      && ((128 <=? z) && (z <=? 138) || (z =? 168) || (z =? 169) || (z =? 175))
   || (x =? 226) && (y =? 129) && (z =? 159)
   || (x =? 227) && (y =? 128) && (z =? 128))%N.

(** Number of bytes of the white space rune that [s] starts with
    ([utf8.DecodeRuneInString] followed by [unicode.IsSpace]); 0 when it
    starts with none. *)
Definition space_width (s : string) : nat :=
  match s with
  | String a r =>
      if asciiSpace a then 1%nat
      else
        match r with
        | String b r' =>
            if space2 a b then 2%nat
            else
              match r' with
              | String c _ => if space3 a b c then 3%nat else 0%nat
              | EmptyString => 0%nat
              end
        | EmptyString => 0%nat
        end
  | EmptyString => 0%nat
  end.

(** The same test from the end of a string ([utf8.DecodeLastRuneInString]);
    the argument is the string reversed, so its first byte is the last one
    of the original. *)
Definition space_width_back (r : string) : nat :=
  match r with
  | String c r1 =>
      if asciiSpace c then 1%nat
      else
        match r1 with
        | String b r2 =>
            if space2 b c then 2%nat
            else
              match r2 with
              | String a _ => if space3 a b c then 3%nat else 0%nat
              | EmptyString => 0%nat
              end
        | EmptyString => 0%nat
        end
  | EmptyString => 0%nat
  end.

Fixpoint drop (n : nat) (s : string) : string :=
  match n, s with
  | O, _ => s
  | S n', String _ r => drop n' r
  | S _, EmptyString => EmptyString
  end.

Fixpoint rev_app (s acc : string) : string :=
  match s with
  | EmptyString => acc
  | String c r => rev_app r (String c acc)
  end.

Definition srev (s : string) : string := rev_app s EmptyString.

(** Removes white space runes from the front for as long as there is one.
    The fuel is the length of the string: every round removes at least one
    byte. *)
Fixpoint trim (width : string -> nat) (fuel : nat) (s : string) : string :=
  match fuel with
  | O => s
  | S fuel' =>
      match width s with
      | O => s
      | w => trim width fuel' (drop w s)
      end
  end.

(** [strings.TrimLeftFunc(s, unicode.IsSpace)] *)
Definition TrimLeft (s : string) : string :=
  trim space_width (String.length s) s.

(** [strings.TrimRightFunc(s, unicode.IsSpace)] *)
Definition TrimRight (s : string) : string :=
  srev (trim space_width_back (String.length s) (srev s)).

(** [strings.TrimSpace]: its ASCII fast path and its fall-back compute the
    same slice, the string without its leading and trailing white space. *)
Definition TrimSpace (s : string) : string := TrimRight (TrimLeft s).

Fixpoint HasPrefix (s prefix : string) : bool :=
  match prefix, s with
  | EmptyString, _ => true
  | String p ps, String c cs => if Ascii.eqb p c then HasPrefix cs ps else false
  | String _ _, EmptyString => false
  end.

(** [strings.TrimPrefix]: [s] without the prefix when it has it, [s]
    otherwise. *)
Definition TrimPrefix (s prefix : string) : string :=
  if HasPrefix s prefix then drop (String.length prefix) s else s.

End Strings.

(** ** [bufio.Scanner] with the default split function [ScanLines] *)

Module Bufio.

Definition LF : ascii := "010"%char.
Definition CR : ascii := "013"%char.

(** [MaxScanTokenSize], the default bound on a token: 64 * 1024 bytes. *)
Definition MaxScanTokenSize : N := 65536.

(** The lines of a byte string: the maximal runs between line feeds; a
    final run without a line feed counts when it is not empty. *)
Fixpoint raw_lines (s : string) : list string :=
  match s with
  | EmptyString => []
  | String c rest =>
      if Ascii.eqb c LF then EmptyString :: raw_lines rest
      else
        match raw_lines rest with
        | [] => [String c EmptyString]
        | l :: ls => String c l :: ls
        end
  end.

(** [dropCR]: a line loses one trailing carriage return. *)
Fixpoint dropCR (l : string) : string :=
  match l with
  | EmptyString => EmptyString
  | String c r =>
      match r with
      | EmptyString => if Ascii.eqb c CR then EmptyString else l
      | String _ _ => String c (dropCR r)
      end
  end.

Definition ErrTooLong : string := "bufio.Scanner: token too long".

(** The tokens that successive calls of [Scan] deliver, and the value of
    [Err()] once [Scan] has returned false.  A line that does not end
    within the first [MaxScanTokenSize] bytes of the buffer stops the
    scanner with [ErrTooLong]; the lines behind it are never delivered. *)
Fixpoint scan (ls : list string) : list string * option string :=
  match ls with
  | [] => ([], None)
  | l :: ls' =>
      if (MaxScanTokenSize <=? N.of_nat (String.length l))%N
      then ([], Some ErrTooLong)
      else let '(ts, e) := scan ls' in (dropCR l :: ts, e)
  end.

Definition Scan (content : string) : list string * option string :=
  scan (raw_lines content).

End Bufio.

(** ** The [net] package *)

Module Net.

(** [type IP []byte]: 4 bytes for an IPv4 address, 16 for an IPv6 one. *)
Definition IP : Type := list Byte.byte.

Definition octet (b : Byte.byte) : N := Byte.to_N b.

(** [IP.To4]: the four bytes of an IPv4 address, also when it comes in the
    16-byte form [::ffff:a.b.c.d]; [None] is Go's nil. *)
Definition To4 (ip : IP) : option (list N) :=
  match map octet ip with
  | [a; b; c; d] => Some [a; b; c; d]
  | bs =>
      if (length bs =? 16)%nat
         && forallb (N.eqb 0) (take 10 bs)
         && (nth 10 bs 0 =? 255)%N && (nth 11 bs 0 =? 255)%N
      then Some (drop 12 bs)
      else None
  end.

Definition digit (n : N) : ascii := ascii_of_N (48 + n).

(** Decimal text of one byte, without leading zeros. *)
Definition ubtoa (n : N) : string :=
  if (n <? 10)%N then String (digit n) EmptyString
  else if (n <? 100)%N
       then String (digit (n / 10)) (String (digit (n mod 10)) EmptyString)
       else String (digit (n / 100))
              (String (digit (n / 10 mod 10)) (String (digit (n mod 10)) EmptyString)).

Definition hexDigit (n : N) : ascii :=
  if (n <? 10)%N then ascii_of_N (48 + n) else ascii_of_N (87 + n).

(** [appendHex] on a 16-bit group: lower case, no leading zeros. *)
Definition appendHex (v : N) : string :=
  if (v =? 0)%N then "0"
  else
    fold_right
      (fun j acc =>
         let x := N.shiftr v (4 * j) in
         if (0 <? x)%N then String (hexDigit (N.land x 15)) acc else acc)
      EmptyString [3; 2; 1; 0]%N.

(** [hexString]: two hexadecimal digits per byte. *)
Fixpoint hexString (bs : list N) : string :=
  match bs with
  | [] => EmptyString
  | b :: r => String (hexDigit (N.shiftr b 4)) (String (hexDigit (N.land b 15)) (hexString r))
  end.

Fixpoint join (sep : string) (l : list string) : string :=
  match l with
  | [] => EmptyString
  | [x] => x
  | x :: r => x +:+ sep +:+ join sep r
  end.

(** The eight 16-bit groups of an IPv6 address. *)
Fixpoint groups (bs : list N) : list N :=
  match bs with
  | hi :: lo :: r => (N.lor (N.shiftl hi 8) lo) :: groups r
  | _ => []
  end.

Fixpoint leading_zeros (gs : list N) : nat :=
  match gs with
  | 0%N :: r => S (leading_zeros r)
  | _ => O
  end.

(** Start and length of the first longest run of zero groups. *)
Fixpoint longest_run (i : nat) (gs : list N) (best : nat * nat) : nat * nat :=
  match gs with
  | [] => best
  | _ :: r =>
      let n := leading_zeros gs in
      longest_run (S i) r (if (snd best <? n)%nat then (i, n) else best)
  end.

(** IPv6 text: groups in hexadecimal separated by colons, the first longest
    run of two or more zero groups written as a double colon. *)
Definition string6 (gs : list N) : string :=
  let '(e0, n) := longest_run 0 gs (0%nat, 0%nat) in
  if (n <=? 1)%nat then join ":" (map appendHex gs)
  else join ":" (map appendHex (take e0 gs)) +:+ "::"
       +:+ join ":" (map appendHex (drop (e0 + n) gs)).

(** [IP.String] *)
Definition IP_String (ip : IP) : string :=
  match ip with
  | [] => "<nil>"
  | _ =>
      match To4 ip with
      | Some [a; b; c; d] =>
          ubtoa a +:+ "." +:+ ubtoa b +:+ "." +:+ ubtoa c +:+ "." +:+ ubtoa d
      | _ =>
          if (length ip =? 16)%nat then string6 (groups (map octet ip))
          else "?" +:+ hexString (map octet ip)
      end
  end.

(** The resolver as the program sees it: [LookupIP(ctx, network, host)]
    under a context that expires after [timeout] nanoseconds returns the
    addresses and the error ([None] is nil).  What it returns depends on
    the network at the time of the call. *)
Record Resolver : Type := {
  LookupIP : Z -> string -> string -> list IP * option string
}.

(** What the name servers do with one query for a host within a time
    budget. *)
Inductive Reply : Type :=
| DeadlineExceeded
| Failed (err : string)
| Records (ips : list IP).

Definition NameService : Type := string -> Z -> Reply.

Definition isIPv4 (ip : IP) : bool :=
  match To4 ip with Some _ => true | None => false end.

Definition isIPv6 (ip : IP) : bool :=
  (length ip =? 16)%nat && negb (isIPv4 ip).

(** Go's [net.Resolver]: the network selects the address family
    ([ipv4only], [ipv6only]); when nothing is left the lookup fails. *)
Definition system_LookupIP (ns : NameService) (timeout : Z)
    (network host : string) : list IP * option string :=
  let lookup (keep : IP -> bool) :=
    if String.eqb host "" then ([], Some "lookup : no such host")
    else
      match ns host timeout with
      | DeadlineExceeded => ([], Some ("lookup " +:+ host +:+ ": i/o timeout"))
      | Failed err => ([], Some err)
      | Records ips =>
          match filter (fun ip => Is_true (keep ip)) ips with
          | [] => ([], Some ("lookup " +:+ host +:+ ": no suitable address found"))
          | kept => (kept, None)
          end
      end in
  if String.eqb network "ip" then lookup (fun _ => true)
  else if String.eqb network "ip4" then lookup isIPv4
  else if String.eqb network "ip6" then lookup isIPv6
  else ([], Some ("unknown network " +:+ network)).

Definition system_resolver (ns : NameService) : Resolver :=
  {| LookupIP := system_LookupIP ns |}.

End Net.

(** ** The [os] package: the files the program opens *)

Module OS.

Record File : Type := { data : string; readable : bool }.

Inductive result (A : Type) : Type :=
| Ok (a : A)
| Err (e : string).
Arguments Ok {A} a.
Arguments Err {A} e.

(** [os.Open(path)]: the content to read, or the error. *)
Definition Open (fs : gmap string File) (path : string) : result string :=
  match fs !! path with
  | None => Err ("open " +:+ path +:+ ": no such file or directory")
  | Some f =>
      if readable f then Ok (data f)
      else Err ("open " +:+ path +:+ ": permission denied")
  end.

(** What the operating system makes of one open-append-write sequence:
    the open fails; the open succeeds and the write fails after [n] bytes
    (never the whole text); or all of the text is written. *)
Inductive AppendFate : Type :=
| OpenFails (err : string)
| WriteFails (n : nat)
| Written.

(** [os.OpenFile(path, O_APPEND|O_CREATE|O_WRONLY, 0644)]: creates the
    file when it is missing. *)
Definition OpenFile_append (fs : gmap string File) (path : string)
    (fate : AppendFate) : result (gmap string File) :=
  match fate with
  | OpenFails err => Err err
  | _ =>
      match fs !! path with
      | None => Ok (<[path := {| data := ""; readable := true |}]> fs)
      | Some _ => Ok fs
      end
  end.

Fixpoint prefix (n : nat) (s : string) : string :=
  match n, s with
  | S n', String c r => String c (prefix n' r)
  | _, _ => EmptyString
  end.

(** The bytes of [text] that reach the file. *)
Definition persisted (fate : AppendFate) (text : string) : string :=
  match fate with
  | Written => text
  | WriteFails n => prefix (Nat.min n (String.length text - 1)) text
  | OpenFails _ => EmptyString
  end.

(** [f.WriteString(text)] on a file opened for appending. *)
Definition WriteString (fs : gmap string File) (path text : string)
    (fate : AppendFate) : gmap string File :=
  match fs !! path with
  | Some f =>
      <[path := {| data := data f +:+ persisted fate text;
                   readable := readable f |}]> fs
  | None => fs
  end.

End OS.

(** ** The program *)

Definition nl : string := String Bufio.LF EmptyString.

(** The package-level variables [ipMap] and [counter], the file system and
    what has been written to standard output, one entry per call of a print
    function. *)
Record World : Type := {
  ipMap : gset string;
  counter : Z;
  fs : gmap string OS.File;
  stdout : list string
}.

Definition set_ipMap (m : gset string) (w : World) : World :=
  {| ipMap := m; counter := counter w; fs := fs w; stdout := stdout w |}.
Definition set_counter (c : Z) (w : World) : World :=
  {| ipMap := ipMap w; counter := c; fs := fs w; stdout := stdout w |}.
Definition set_fs (f : gmap string OS.File) (w : World) : World :=
  {| ipMap := ipMap w; counter := counter w; fs := f; stdout := stdout w |}.
Definition print (text : string) (w : World) : World :=
  {| ipMap := ipMap w; counter := counter w; fs := fs w; stdout := stdout w ++ [text] |}.

(** [readDomains]: the trimmed lines of the file without their scheme
    prefix, blank ones left out, and the scanner's error. *)
Definition readDomains (files : gmap string OS.File) (path : string)
    : list string * option string :=
  match OS.Open files path with
  | OS.Err err => ([], Some err)
  | OS.Ok content =>
      let '(tokens, err) := Bufio.Scan content in
      (foldl
         (fun list text =>
            let line := Strings.TrimSpace text in
            let line := Strings.TrimPrefix line "http://" in
            let line := Strings.TrimPrefix line "https://" in
            if String.eqb line "" then list else list ++ [line])
         [] tokens,
       err)
  end.

(** [loadIPs]: the set of the trimmed, non-empty lines the scanner
    delivers; an open error gives the empty set and the scanner's error is
    not looked at. *)
Definition loadIPs (files : gmap string OS.File) (path : string) : gset string :=
  match OS.Open files path with
  | OS.Err _ => ∅
  | OS.Ok content =>
      foldl
        (fun (m : gset string) text =>
           let ip := Strings.TrimSpace text in
           if String.eqb ip "" then m else {[ip]} ∪ m)
        ∅ (Bufio.Scan content).1
  end.

(** [appendIP]: the error of the open is printed, the error of the write is
    dropped. *)
Definition appendIP (ip : string) (fate : OS.AppendFate) (w : World) : World :=
  match OS.OpenFile_append (fs w) "ips.txt" fate with
  | OS.Err err => print ("Write error: " +:+ err +:+ nl) w
  | OS.Ok files => set_fs (OS.WriteString files "ips.txt" (ip +:+ nl) fate) w
  end.

(** [updateProgress] *)
Definition updateProgress (w : World) : World :=
  let w := set_counter (GoInt.add (counter w) 1) w in
  if GoInt.rem (counter w) 500 =? 0
  then print ("Resolved " +:+ pretty (counter w) +:+ " IPs so far..." +:+ nl) w
  else w.

(** [resolveWithTimeout]: the empty string stands for no address. *)
Definition resolveWithTimeout (resolver : Net.Resolver) (domain : string)
    (timeout : Z) : string :=
  let '(ips, err) := Net.LookupIP resolver timeout "ip4" domain in
  match err, ips with
  | Some _, _ => ""
  | None, [] => ""
  | None, ip :: _ => Net.IP_String ip
  end.

(** The body of the critical section of a worker (between [Lock] and
    [Unlock]).  The Boolean tells whether the address was new, that is,
    whether the branch was taken. *)
Definition checkAndWrite (ip : string) (fate : OS.AppendFate) (w : World)
    : World * bool :=
  if decide (ip ∈ ipMap w) then (w, false)
  else (updateProgress (appendIP ip fate (set_ipMap ({[ip]} ∪ ipMap w) w)), true).

(** *** The worker pool

    A worker is the closure of the [go] statement; its control points are
    the places where it can be overtaken by another goroutine. *)
Inductive Goroutine : Type :=
| Receiving                      (* at [for domain := range domainChan] *)
| Resolving (domain : string)    (* about to call [resolveWithTimeout] *)
| Locking (ip : string)          (* at [ipMapLock.Lock()] *)
| Critical (ip : string)         (* holds the lock, the check is next *)
| Unlocking                      (* at [ipMapLock.Unlock()] *)
| Exited.                        (* the loop is over, [wg.Done()] has run *)

(** The main goroutine once the workers are started. *)
Inductive Feeder : Type :=
| Feeding (rest : list string)   (* in the loop that sends the domains *)
| Waiting                        (* the channel is closed, at [wg.Wait()] *)
| Finished.                      (* the final message is printed *)

Record State : Type := {
  world : World;
  feeder : Feeder;
  domainChan : list string;      (* the buffer of the channel, oldest first *)
  capacity : nat;
  closed : bool;
  ipMapLock : bool;              (* true while some goroutine holds it *)
  workers : list Goroutine;
  attempts : list string;        (* ghost: arguments of the calls of
                                    [resolveWithTimeout] so far *)
  history : list (string * bool) (* ghost: the critical sections so far,
                                    with what [checkAndWrite] answered *)
}.

Definition timeout5s : Z := 5 * 1000000000.

Definition doneMessage : string :=
  String (ascii_of_nat 226) (String (ascii_of_nat 156) (String (ascii_of_nat 133)
    (" Done. All domains processed." +:+ nl))).

(** One scheduling decision: which goroutine moves, and what the network
    or the operating system answers to it. *)
Inductive Action : Type :=
| Send
| Close
| Finish
| Receive (i : nat)
| Exit (i : nat)
| Resolve (i : nat) (resolver : Net.Resolver)
| Lock (i : nat)
| Body (i : nat) (fate : OS.AppendFate)
| Unlock (i : nat).

Definition all_exited (ws : list Goroutine) : bool :=
  forallb (fun g => match g with Exited => true | _ => false end) ws.

(** The effect of one action, [None] when the goroutine cannot move that
    way (it is elsewhere, the channel is full or empty, the lock is
    taken). *)
Definition exec (a : Action) (s : State) : option State :=
  match a with
  | Send =>
      match feeder s with
      | Feeding (d :: rest) =>
          if (length (domainChan s) <? capacity s)%nat
          then Some {| world := world s; feeder := Feeding rest;
                       domainChan := domainChan s ++ [d];
                       capacity := capacity s; closed := closed s;
                       ipMapLock := ipMapLock s; workers := workers s;
                       attempts := attempts s; history := history s |}
          else None
      | _ => None
      end
  | Close =>
      match feeder s with
      | Feeding [] =>
          Some {| world := world s; feeder := Waiting;
                  domainChan := domainChan s;
                  capacity := capacity s; closed := true;
                  ipMapLock := ipMapLock s; workers := workers s;
                  attempts := attempts s; history := history s |}
      | _ => None
      end
  | Finish =>
      match feeder s with
      | Waiting =>
          if all_exited (workers s)
          then Some {| world := print doneMessage (world s); feeder := Finished;
                       domainChan := domainChan s;
                       capacity := capacity s; closed := closed s;
                       ipMapLock := ipMapLock s; workers := workers s;
                       attempts := attempts s; history := history s |}
          else None
      | _ => None
      end
  | Receive i =>
      match workers s !! i, domainChan s with
      | Some Receiving, d :: queue =>
          Some {| world := world s; feeder := feeder s;
                  domainChan := queue;
                  capacity := capacity s; closed := closed s;
                  ipMapLock := ipMapLock s;
                  workers := <[i := Resolving d]> (workers s);
                  attempts := attempts s; history := history s |}
      | _, _ => None
      end
  | Exit i =>
      match workers s !! i, domainChan s with
      | Some Receiving, [] =>
          if closed s
          then Some {| world := world s; feeder := feeder s;
                       domainChan := domainChan s;
                       capacity := capacity s; closed := closed s;
                       ipMapLock := ipMapLock s;
                       workers := <[i := Exited]> (workers s);
                       attempts := attempts s; history := history s |}
          else None
      | _, _ => None
      end
  | Resolve i resolver =>
      match workers s !! i with
      | Some (Resolving domain) =>
          let ip := resolveWithTimeout resolver domain timeout5s in
          Some {| world := world s; feeder := feeder s;
                  domainChan := domainChan s;
                  capacity := capacity s; closed := closed s;
                  ipMapLock := ipMapLock s;
                  workers :=
                    <[i := if String.eqb ip "" then Receiving else Locking ip]>
                      (workers s);
                  attempts := attempts s ++ [domain]; history := history s |}
      | _ => None
      end
  | Lock i =>
      match workers s !! i with
      | Some (Locking ip) =>
          if ipMapLock s then None
          else Some {| world := world s; feeder := feeder s;
                       domainChan := domainChan s;
                       capacity := capacity s; closed := closed s;
                       ipMapLock := true;
                       workers := <[i := Critical ip]> (workers s);
                       attempts := attempts s; history := history s |}
      | _ => None
      end
  | Body i fate =>
      match workers s !! i with
      | Some (Critical ip) =>
          let '(w, new) := checkAndWrite ip fate (world s) in
          Some {| world := w; feeder := feeder s;
                  domainChan := domainChan s;
                  capacity := capacity s; closed := closed s;
                  ipMapLock := ipMapLock s;
                  workers := <[i := Unlocking]> (workers s);
                  attempts := attempts s; history := history s ++ [(ip, new)] |}
      | _ => None
      end
  | Unlock i =>
      match workers s !! i with
      | Some Unlocking =>
          Some {| world := world s; feeder := feeder s;
                  domainChan := domainChan s;
                  capacity := capacity s; closed := closed s;
                  ipMapLock := false;
                  workers := <[i := Receiving]> (workers s);
                  attempts := attempts s; history := history s |}
      | _ => None
      end
  end.

(** A schedule run from a state. *)
Fixpoint run (schedule : list Action) (s : State) : option State :=
  match schedule with
  | [] => Some s
  | a :: rest =>
      match exec a s with
      | Some s' => run rest s'
      | None => None
      end
  end.

(** The pool as [main] starts it: [threadCount] workers at the channel, the
    domains still to be sent. *)
Definition start (w : World) (domains : list string) (threadCount : nat)
    (cap : nat) : State :=
  {| world := w; feeder := Feeding domains; domainChan := [];
     capacity := cap; closed := false; ipMapLock := false;
     workers := replicate threadCount Receiving;
     attempts := []; history := [] |}.

(** [make(chan string, n)] panics when [n] is negative. *)
Definition make_chan (n : Z) : option nat :=
  if n <? 0 then None else Some (Z.to_nat n).

(** The thread count the pool runs with. *)
Definition effectiveThreadCount (threadCount : Z) : Z :=
  if threadCount <? 1 then 100 else threadCount.

(** How [main] ends up before any worker moves. *)
Inductive Startup : Type :=
| Aborted (out : list string)     (* [main] returned after the error message *)
| Panicked (out : list string)    (* [make] panicked *)
| Started (s : State).

(** [main] up to the start of the pool.  [file] and [threadCount] are what
    [fmt.Scanln] stored (0 when the count could not be read); the counter
    has its zero value. *)
Definition main (files : gmap string OS.File) (file : string) (threadCount : Z)
    : Startup :=
  let out := ["Enter domain list file: "] in
  match readDomains files file with
  | (_, Some err) => Aborted (out ++ ["Error reading file: " +:+ err +:+ nl])
  | (domains, None) =>
      let out := out ++ ["Thread count (100–500 recommended): "] in
      let threadCount := effectiveThreadCount threadCount in
      let ipMap := loadIPs files "ips.txt" in
      match make_chan (GoInt.mul threadCount 2) with
      | None => Panicked out
      | Some cap =>
          Started (start {| ipMap := ipMap; counter := 0; fs := files; stdout := out |}
                     domains (Z.to_nat threadCount) cap)
      end
  end.

(** ** Notions used in the statements *)

(** [strings.Split(s, ".")] *)
Fixpoint split_dots (s : string) : list string :=
  match s with
  | EmptyString => [EmptyString]
  | String c r =>
      if Ascii.eqb c "." then EmptyString :: split_dots r
      else
        match split_dots r with
        | [] => [String c EmptyString]
        | f :: fs => String c f :: fs
        end
  end.

(** The decimal text of some byte, as [ubtoa] writes it. *)
Definition is_byte_text (f : string) : bool :=
  existsb (fun n => String.eqb f (Net.ubtoa (N.of_nat n))) (seq 0 256).

(** The shape of the lines that the program itself writes to the log: four
    decimal bytes separated by dots.  A line of any other shape is what the
    specification calls malformed. *)
Definition is_ipv4_literal (s : string) : bool :=
  match split_dots s with
  | [a; b; c; d] => forallb is_byte_text [a; b; c; d]
  | _ => false
  end.

(** No dot among the bytes. *)
Fixpoint dotfree (s : string) : bool :=
  match s with
  | EmptyString => true
  | String c r => negb (Ascii.eqb c ".") && dotfree r
  end.

(** The content of [ips.txt], empty when the file does not exist. *)
Definition log_file (files : gmap string OS.File) : string :=
  match files !! "ips.txt" with
  | Some f => OS.data f
  | None => ""
  end.

Definition log (w : World) : string := log_file (fs w).

(** A text of complete lines: empty, or ending in a line feed. *)
Fixpoint complete (s : string) : bool :=
  match s with
  | EmptyString => true
  | String c r =>
      match r with
      | EmptyString => Ascii.eqb c Bufio.LF
      | String _ _ => complete r
      end
  end.

(** No line feed among the bytes. *)
Fixpoint LF_free (s : string) : bool :=
  match s with
  | EmptyString => true
  | String c r => negb (Ascii.eqb c Bufio.LF) && LF_free r
  end.

(** The critical sections of a sequence of calls for one address, in the
    order in which the lock serialises them. *)
Fixpoint insert_all (ip : string) (fates : list OS.AppendFate) (w : World)
    : World * list bool :=
  match fates with
  | [] => (w, [])
  | fate :: rest =>
      let '(w1, new) := checkAndWrite ip fate w in
      let '(w2, news) := insert_all ip rest w1 in
      (w2, new :: news)
  end.

Local Close Scope Z_scope.

(** *** Bookkeeping over the pool *)

(** The sum of a measure over the workers. *)
Fixpoint total (f : Goroutine → nat) (ws : list Goroutine) : nat :=
  match ws with
  | [] => 0
  | g :: rest => f g + total f rest
  end.

(** The domain a worker has taken from the channel and not yet looked up. *)
Definition item (g : Goroutine) : list string :=
  match g with
  | Resolving d => [d]
  | _ => []
  end.

(** The domains that are with the workers. *)
Fixpoint held (ws : list Goroutine) : list string :=
  match ws with
  | [] => []
  | g :: rest => item g ++ held rest
  end.

(** Workers between [Lock] and [Unlock]. *)
Definition holding (g : Goroutine) : nat :=
  match g with
  | Critical _ | Unlocking => 1
  | _ => 0
  end.

(** Workers that have left their loop. *)
Definition exited (g : Goroutine) : nat :=
  match g with
  | Exited => 1
  | _ => 0
  end.

(** Workers with an address that has not been through its critical section. *)
Definition carrying (g : Goroutine) : nat :=
  match g with
  | Locking _ | Critical _ => 1
  | _ => 0
  end.

(** Steps a worker has ahead of it at most, the next domain not counted. *)
Definition weight (g : Goroutine) : nat :=
  match g with
  | Exited => 0
  | Receiving => 1
  | Unlocking => 2
  | Critical _ => 3
  | Locking _ => 4
  | Resolving _ => 5
  end.

(** The domains that the feeder has still to send. *)
Definition pending (f : Feeder) : list string :=
  match f with
  | Feeding rest => rest
  | _ => []
  end.

(** A bound on the number of actions that a state has ahead of it. *)
Definition measure (s : State) : nat :=
  match feeder s with
  | Feeding rest => 2 + 6 * length rest
  | Waiting => 1
  | Finished => 0
  end + 5 * length (domainChan s) + total weight (workers s).

(** Workers that wait for the channel or are gone. *)
Definition idle (g : Goroutine) : Prop := g = Receiving ∨ g = Exited.

(** What holds of every state of the pool that works on [domains] with [n]
    workers. *)
Record Flow (domains : list string) (n : nat) (s : State) : Prop := {
  (* every domain is waiting to be sent, in the channel, with a worker, or
     has been looked up *)
  flow_domains :
    pending (feeder s) ++ domainChan s ++ held (workers s) ++ attempts s ≡ₚ domains;
  (* the lock is held by exactly the worker in its critical section *)
  flow_lock : total holding (workers s) = if ipMapLock s then 1 else 0;
  (* the channel is closed once the feeding loop is over *)
  flow_closed :
    closed s = match feeder s with Feeding _ => false | _ => true end;
  (* a worker leaves only when the channel is closed and drained *)
  flow_exited : 0 < total exited (workers s) → closed s = true ∧ domainChan s = [];
  flow_workers : length (workers s) = n;
  flow_finished : feeder s = Finished → all_exited (workers s) = true;
  flow_capacity : 0 < capacity s
}.

(** The critical sections that found their address new. *)
Definition news (h : list (string * bool)) : nat :=
  length (filter (fun e => e.2 = true) h).

(** The addresses of those critical sections, in the order of the lock. *)
Definition inserted (h : list (string * bool)) : list string :=
  (filter (fun e => e.2 = true) h).*1.

(** The text of a run of log lines. *)
Definition lines_text (ips : list string) : string :=
  fold_right (fun ip text => ip +:+ nl +:+ text) EmptyString ips.

(** Schedules in which the operating system carries out every append. *)
Definition all_written (schedule : list Action) : Prop :=
  Forall (fun a => match a with
                   | Body _ fate => fate = OS.Written
                   | _ => True
                   end) schedule.

(** What holds of the set and the counter in every state of a pool that
    started with the set [loaded] and the counter at zero. *)
Record Count (loaded : gset string) (s : State) : Prop := {
  count_loaded : loaded ⊆ ipMap (world s);
  count_counter :
    counter (world s) = Z.of_nat (size (ipMap (world s) ∖ loaded));
  count_history : size (ipMap (world s) ∖ loaded) = news (history s);
  (* every critical section, done or due, has its own lookup *)
  count_carry :
    length (history s) + total carrying (workers s) <= length (attempts s)
}.

(** What a run leaves behind: where [main] is, the lookups, the critical
    sections, the counter, the log and the output. *)
Definition outcome (start_up : Startup) (schedule : list Action) :=
  match start_up with
  | Started s0 =>
      match run schedule s0 with
      | Some s =>
          Some (feeder s, attempts s, history s, counter (world s),
                OS.Open (fs (world s)) "ips.txt", stdout (world s))
      | None => None
      end
  | _ => None
  end.

(** ** Data for the examples *)

Definition bytes (l : list Z) : string :=
  fold_right (fun n s => String (ascii_of_N (Z.to_N n)) s) EmptyString l.

Definition empty_world : World :=
  {| ipMap := ∅; counter := 0; fs := ∅; stdout := [] |}.

Definition stub_resolver (ips : list Net.IP) (err : option string) : Net.Resolver :=
  {| Net.LookupIP := fun _ _ _ => (ips, err) |}.

Definition answers (ip : Net.IP) : Net.Resolver := stub_resolver [ip] None.

Definition no_such_host : Net.Resolver :=
  stub_resolver [] (Some "lookup b.test: no such host").

Definition ip_10_0_0_1 : Net.IP := [Byte.x0a; Byte.x00; Byte.x00; Byte.x01].

Definition ip_10_0_0_2 : Net.IP := [Byte.x0a; Byte.x00; Byte.x00; Byte.x02].

Definition ip_2001_db8__1 : Net.IP :=
  [Byte.x20; Byte.x01; Byte.x0d; Byte.xb8; Byte.x00; Byte.x00; Byte.x00; Byte.x00;
   Byte.x00; Byte.x00; Byte.x00; Byte.x00; Byte.x00; Byte.x00; Byte.x00; Byte.x01].


Definition one_domain_files : gmap string OS.File :=
  {[ "d.txt" := {| OS.data := "a.test" +:+ nl; OS.readable := true |} ]}.

Definition garbage_log : gmap string OS.File :=
  {[ "ips.txt" := {| OS.data := "not an address" +:+ nl +:+ "   " +:+ nl;
                     OS.readable := true |} ]}.

(** A log whose last line has no line feed, and the program right after
    [loadIPs] has read it. *)
Definition unfinished_log : gmap string OS.File :=
  {[ "ips.txt" := {| OS.data := "10.0.0.1"; OS.readable := true |} ]}.

Definition unfinished_world : World :=
  {| ipMap := loadIPs unfinished_log "ips.txt"; counter := 0;
     fs := unfinished_log; stdout := [] |}.

Definition critical_state : State :=
  {| world := empty_world; feeder := Waiting; domainChan := []; capacity := 2;
     closed := true; ipMapLock := true; workers := [Critical "10.0.0.1"];
     attempts := ["a.test"]; history := [] |}.

(** Three domains, the first and the last resolve to the same address, the
    second does not resolve; the log does not exist yet. *)
Definition scenario_files : gmap string OS.File :=
  {[ "domains.txt" :=
       {| OS.data := "a.test" +:+ nl +:+ "b.test" +:+ nl +:+ "a.test" +:+ nl;
          OS.readable := true |} ]}.

Definition scenario_schedule : list Action :=
  [Send; Send; Send; Close;
   Receive 0; Receive 1;
   Resolve 0 (answers ip_10_0_0_1); Resolve 1 no_such_host;
   Receive 1; Resolve 1 (answers ip_10_0_0_1);
   Lock 0; Body 0 OS.Written; Unlock 0;
   Lock 1; Body 1 OS.Written; Unlock 1;
   Exit 0; Exit 1; Finish].

(** The same with the address already in the log. *)
Definition seeded_files : gmap string OS.File :=
  {[ "domains.txt" := {| OS.data := "a.test" +:+ nl; OS.readable := true |};
     "ips.txt" := {| OS.data := "10.0.0.1" +:+ nl; OS.readable := true |} ]}.

Definition seeded_schedule : list Action :=
  [Send; Close; Receive 0; Resolve 0 (answers ip_10_0_0_1);
   Lock 0; Body 0 OS.Written; Unlock 0; Exit 0; Finish].

(** Two domains with different addresses and a log that can be opened
    neither for reading nor for appending. *)
Definition locked_files : gmap string OS.File :=
  {[ "domains.txt" :=
       {| OS.data := "a.test" +:+ nl +:+ "b.test" +:+ nl; OS.readable := true |};
     "ips.txt" := {| OS.data := "10.0.0.9" +:+ nl; OS.readable := false |} ]}.

Definition locked_schedule : list Action :=
  [Send; Send; Close;
   Receive 0; Resolve 0 (answers ip_10_0_0_1);
   Lock 0; Body 0 (OS.OpenFails "open ips.txt: permission denied"); Unlock 0;
   Receive 0; Resolve 0 (answers ip_10_0_0_2);
   Lock 0; Body 0 (OS.OpenFails "open ips.txt: permission denied"); Unlock 0;
   Exit 0; Finish].

(** ** Notions used in the further properties *)

(** Printable ASCII bytes other than the space. *)
Definition plain (c : ascii) : bool :=
  let n := N_of_ascii c in
  ((33 <=? n) && (n <? 127))%N.

(** A test that holds of every byte of a string. *)
Fixpoint allb (p : ascii → bool) (s : string) : bool :=
  match s with
  | EmptyString => true
  | String c r => p c && allb p r
  end.

(** Lines that the scanner delivers. *)
Definition short (l : string) : Prop :=
  (N.of_nat (String.length l) < Bufio.MaxScanTokenSize)%N.

(** Addresses that survive a trip through the log: not empty, of plain
    bytes, shorter than the scanner's limit. *)
Definition good (ip : string) : Prop :=
  ip ≠ "" ∧ allb plain ip = true ∧ short ip.

(** Resolvers whose addresses have at most the 16 bytes of an IPv6
    address. *)
Definition sane (r : Net.Resolver) : Prop :=
  ∀ timeout network host,
    Forall (fun ip : Net.IP => length ip <= 16)
      (Net.LookupIP r timeout network host).1.

(** Schedules in which the operating system carries out every append and
    every resolver is sane. *)
Definition well_behaved (schedule : list Action) : Prop :=
  Forall (fun a => match a with
                   | Body _ fate => fate = OS.Written
                   | Resolve _ r => sane r
                   | _ => True
                   end) schedule.

(** The set that [loadIPs] builds from the content of a file. *)
Definition ips_of (content : string) : gset string :=
  foldl
    (fun (m : gset string) text =>
       let ip := Strings.TrimSpace text in
       if String.eqb ip "" then m else {[ip]} ∪ m)
    ∅ (Bufio.Scan content).1.

(** The log is missing or may be read. *)
Definition readable_log (files : gmap string OS.File) : Prop :=
  match files !! "ips.txt" with
  | Some f => OS.readable f = true
  | None => True
  end.

(** A run over a log that holds one address already: the domain resolves
    to another one. *)
Definition restart_schedule : list Action :=
  [Send; Close; Receive 0; Resolve 0 (answers ip_10_0_0_2);
   Lock 0; Body 0 OS.Written; Unlock 0; Exit 0; Finish].

Definition restart_start : State :=
  match main seeded_files "domains.txt" 1 with
  | Started s => s
  | _ => start empty_world [] 1 1
  end.

Definition restart_end : State :=
  default restart_start (run restart_schedule restart_start).

(** A pool in the middle of a run: the first worker is in its critical
    section, the second waits for the lock. *)
Definition demo_start : State := start empty_world ["a.test"; "b.test"; "c.test"] 2 2.

Definition demo_schedule : list Action :=
  [Send; Send; Receive 0; Receive 1; Send;
   Resolve 0 (answers ip_10_0_0_1); Resolve 1 (answers ip_10_0_0_2); Lock 0].

Definition demo_state : State := default demo_start (run demo_schedule demo_start).

Definition demo_rest : list Action :=
  [Body 0 OS.Written; Unlock 0; Lock 1; Body 1 OS.Written; Unlock 1; Close;
   Receive 0; Resolve 0 no_such_host; Exit 0; Exit 1; Finish].

Definition demo_end : State := default demo_state (run demo_rest demo_state).

(** A line of the domain file as users write it: a name of plain bytes that
    does not itself begin with a scheme, behind no scheme or one of the two
    schemes, all of it shorter than the scanner's limit. *)
Definition clean_line (e : string * string) : Prop :=
  (e.1 = "" ∨ e.1 = "http://" ∨ e.1 = "https://")
  ∧ e.2 ≠ "" ∧ allb plain e.2 = true
  ∧ Strings.HasPrefix e.2 "http://" = false
  ∧ Strings.HasPrefix e.2 "https://" = false
  ∧ short (e.1 +:+ e.2).

Definition line_of (e : string * string) : string := e.1 +:+ e.2.

Fixpoint copies (n : nat) (c : ascii) : string :=
  match n with
  | O => EmptyString
  | S n' => String c (copies n' c)
  end.

(** A line of [MaxScanTokenSize] bytes. *)
Definition long_line : string := copies (N.to_nat Bufio.MaxScanTokenSize) "a".

(** A domain file with such a line between two domains. *)
Definition long_file : string :=
  "a.test" +:+ nl +:+ long_line +:+ nl +:+ "b.test" +:+ nl.

(** The progress messages among what is printed, and the [k]-th of them. *)
Definition is_progress (text : string) : Prop :=
  Strings.HasPrefix text "Resolved " = true.

Definition progress_message (k : nat) : string :=
  "Resolved " +:+ pretty (500 * Z.of_nat k)%Z +:+ " IPs so far..." +:+ nl.

(** ** The range program ([iprange.go]) *)

Module IPRange.

Definition output : string := "IP Range.txt".

(** [getPrefix]: the first three of exactly four fields between dots. *)
Definition getPrefix (ip : string) : string :=
  let parts := split_dots ip in
  if length parts =? 4 then Net.join "." (take 3 parts) else "".

(** [fmt.Sprintf("%s.%d\n", prefix, i)] for [i] from 0 to 255. *)
Definition Sprintf (prefix : string) (i : nat) : string :=
  prefix +:+ "." +:+ Net.ubtoa (N.of_nat i) +:+ nl.

(** The variables of the loop in [main]: the set [seen], the bytes handed
    to the buffered writer so far and what has been printed. *)
Record Loop : Type := {
  seen : gset string;
  writer : string;
  stdout : list string
}.

Definition print (text : string) (st : Loop) : Loop :=
  {| seen := seen st; writer := writer st; stdout := stdout st ++ [text] |}.

Definition doneMessage : string := "✅ All IPs ranged successfully." +:+ nl.

Section Program.

(** Whether [net.ParseIP] returns an address for a text. *)
Variable ParseIP : string → bool.

(** [isValidIP] *)
Definition isValidIP (ip : string) : bool := ParseIP ip.

(** One round of the loop over the lines of the input. *)
Definition round (st : Loop) (text : string) : Loop :=
  let line := Strings.TrimSpace text in
  if bool_decide (line ∈ seen st) || String.eqb line "" then st
  else
    let st := {| seen := {[line]} ∪ seen st; writer := writer st;
                 stdout := stdout st |} in
    if negb (isValidIP line) then print ("Invalid IP: " +:+ line +:+ nl) st
    else
      let prefix := getPrefix line in
      if String.eqb prefix ""
      then print ("Skipped: " +:+ line +:+ " (prefix error)" +:+ nl) st
      else
        print ("Completed: " +:+ line +:+ nl)
          {| seen := seen st;
             writer := foldl (fun buffer i => buffer +:+ Sprintf prefix i)
                         (writer st) (seq 0 256);
             stdout := stdout st |}.

(** [main]: what is printed and the files it leaves, given the name that
    [fmt.Scanln] stored and what the operating system makes of the output
    file.  The scanner's error and the errors of the writer are not looked
    at.  Reading the output file while it grows is not modelled: [None]
    when the input is the output file itself. *)
Definition main (files : gmap string OS.File) (fileName : string)
    (fate : OS.AppendFate) : option (list string * gmap string OS.File) :=
  if String.eqb fileName output then None
  else
    let out := ["[+] Your IP List : "] in
    match OS.Open files fileName with
    | OS.Err err =>
        Some (out ++ ["Error opening input file: " +:+ err +:+ nl], files)
    | OS.Ok content =>
        match OS.OpenFile_append files output fate with
        | OS.Err err =>
            Some (out ++ ["Error creating output file: " +:+ err +:+ nl], files)
        | OS.Ok files1 =>
            let st := foldl round {| seen := ∅; writer := ""; stdout := out |}
                        (Bufio.Scan content).1 in
            Some (stdout st ++ [doneMessage],
                  OS.WriteString files1 output (writer st) fate)
        end
    end.

(** *** Notions used in the statements about the range program *)

(** What is printed for a line that is looked at. *)
Definition report (line : string) : string :=
  if negb (isValidIP line) then "Invalid IP: " +:+ line +:+ nl
  else if String.eqb (getPrefix line) ""
       then "Skipped: " +:+ line +:+ " (prefix error)" +:+ nl
       else "Completed: " +:+ line +:+ nl.

(** The lines that get a range. *)
Definition accepted (line : string) : bool :=
  isValidIP line && negb (String.eqb (getPrefix line) "").

End Program.

(** The lines that the loop looks at: the trimmed tokens that are not
    empty, each where it comes first. *)
Definition distinct_lines (tokens : list string) : list string :=
  reverse
    (remove_dups (reverse (filter (fun l => l ≠ "") (Strings.TrimSpace <$> tokens)))).

(** The number of dots of a text. *)
Fixpoint dots (s : string) : nat :=
  match s with
  | EmptyString => 0
  | String c r => (if Ascii.eqb c "." then 1 else 0) + dots r
  end.

(** The 256 lines of a range. *)
Definition block (prefix : string) : list string :=
  map (fun i => prefix +:+ "." +:+ Net.ubtoa (N.of_nat i)) (seq 0 256).

(** The content of the output file, empty when it does not exist. *)
Definition ranges (files : gmap string OS.File) : string :=
  match files !! output with
  | Some f => OS.data f
  | None => ""
  end.

End IPRange.

(** An input of the range program: an address, the same address between
    blanks, a neighbour of it and a line that is no address. *)
Definition range_list : string :=
  "10.0.0.1" +:+ nl +:+ " 10.0.0.1 " +:+ nl +:+ "10.0.0.7" +:+ nl
  +:+ "localhost" +:+ nl.

Definition range_files : gmap string OS.File :=
  {[ "list.txt" := {| OS.data := range_list; OS.readable := true |} ]}.

Local Open Scope Z_scope.

(** * Properties *)

(** ** The library models on small inputs *)

Example TrimSpace_ascii :
  Strings.TrimSpace (bytes [9; 32] +:+ "10.0.0.1 " +:+ bytes [13; 10]) = "10.0.0.1".
Proof. reflexivity. Qed.

(** U+00A0 in front, U+2003 and U+0085 behind; the U+3000 in the middle stays. *)
Example TrimSpace_unicode :
  Strings.TrimSpace
    (bytes [194; 160] +:+ "a" +:+ bytes [227; 128; 128] +:+ "b"
     +:+ bytes [226; 128; 131; 194; 133])
  = "a" +:+ bytes [227; 128; 128] +:+ "b".
Proof. reflexivity. Qed.

(** A continuation byte that belongs to no white space rune is kept. *)
Example TrimSpace_stray_byte :
  Strings.TrimSpace ("a" +:+ bytes [160]) = "a" +:+ bytes [160].
Proof. reflexivity. Qed.

Example TrimPrefix_examples :
  Strings.TrimPrefix "http://a.test" "http://" = "a.test"
  ∧ Strings.TrimPrefix "https://a.test" "http://" = "https://a.test"
  ∧ Strings.TrimPrefix "a.test" "https://" = "a.test".
Proof. repeat split; reflexivity. Qed.

Example Scan_lines :
  Bufio.Scan ("a" +:+ String Bufio.CR nl +:+ nl +:+ "b") = (["a"; ""; "b"], None)
  ∧ Bufio.Scan ("a" +:+ nl) = (["a"], None)
  ∧ Bufio.Scan "" = ([], None).
Proof. repeat split; reflexivity. Qed.

Example IP_String_examples :
  Net.IP_String ip_10_0_0_1 = "10.0.0.1"
  ∧ Net.IP_String ip_2001_db8__1 = "2001:db8::1"
  ∧ Net.IP_String (replicate 10 Byte.x00 ++ [Byte.xff; Byte.xff] ++ ip_10_0_0_2)
    = "10.0.0.2"
  ∧ Net.IP_String (replicate 16 Byte.x00) = "::"
  ∧ Net.IP_String [] = "<nil>"
  ∧ Net.IP_String [Byte.x0a; Byte.x00] = "?0a00".
Proof. repeat split; reflexivity. Qed.

Example readDomains_example :
  readDomains
    {[ "d.txt" := {| OS.data := " http://a.test" +:+ nl +:+ nl +:+ "https://b.test/x ";
                     OS.readable := true |} ]} "d.txt"
  = (["a.test"; "b.test/x"], None).
Proof. vm_compute. reflexivity. Qed.

Example updateProgress_at_500 :
  stdout (updateProgress {| ipMap := ∅; counter := 499; fs := ∅; stdout := [] |})
  = ["Resolved 500 IPs so far..." +:+ nl].
Proof. vm_compute. reflexivity. Qed.

(** ** Strings *)

Lemma append_nonempty_l (s t : string) : s ≠ "" → s +:+ t ≠ "".
Proof. destruct s as [|c r]; [congruence | discriminate]. Qed.

Lemma append_nonempty_r (s t : string) : t ≠ "" → s +:+ t ≠ "".
Proof. destruct s as [|c r]; [intros H; exact H | discriminate]. Qed.

Lemma eqb_empty (s : string) : String.eqb s "" = true ↔ s = "".
Proof. apply String.eqb_eq. Qed.

(** ** Addresses and their text *)

Lemma ubtoa_nonempty (n : N) : Net.ubtoa n ≠ "".
Proof.
  unfold Net.ubtoa.
  destruct (n <? 10)%N; [discriminate|].
  destruct (n <? 100)%N; discriminate.
Qed.

Lemma appendHex_nonempty (v : N) : Net.appendHex v ≠ "".
Proof.
  unfold Net.appendHex.
  destruct (v =? 0)%N eqn:Hv; [discriminate|].
  apply N.eqb_neq in Hv.
  cbn [fold_right].
  assert (H0 : (0 <? N.shiftr v (4 * 0))%N = true).
  { rewrite N.mul_0_r, N.shiftr_0_r. apply N.ltb_lt. lia. }
  rewrite H0.
  repeat match goal with
         | |- context [if ?b then _ else _] => destruct b
         end; discriminate.
Qed.

Lemma join_nonempty (sep x : string) (l : list string) :
  x ≠ "" → Net.join sep (x :: l) ≠ "".
Proof.
  intros Hx. destruct l as [|y l]; [exact Hx|].
  cbn [Net.join]. by apply append_nonempty_l.
Qed.

Lemma string6_nonempty (g : N) (gs : list N) : Net.string6 (g :: gs) ≠ "".
Proof.
  unfold Net.string6.
  destruct (Net.longest_run 0 (g :: gs) (0%nat, 0%nat)) as [e0 n].
  destruct (n <=? 1)%nat.
  - cbn [map]. apply join_nonempty, appendHex_nonempty.
  - apply append_nonempty_r, append_nonempty_l. discriminate.
Qed.

(** The text of an address is never the empty string, which
    [resolveWithTimeout] uses for "no address". *)
Lemma IP_String_nonempty (ip : Net.IP) : Net.IP_String ip ≠ "".
Proof.
  unfold Net.IP_String.
  destruct ip as [|b0 ip]; [discriminate|].
  destruct (Net.To4 (b0 :: ip)) as [[|a [|b [|c [|d [|? ?]]]]]|].
  5: { apply append_nonempty_l, ubtoa_nonempty. }
  all: destruct (length (b0 :: ip) =? 16)%nat eqn:Hl; try discriminate.
  all: destruct ip as [|b1 ip]; [discriminate Hl|].
  all: cbn [map Net.groups]; apply string6_nonempty.
Qed.



(** A lookup that runs into the deadline or fails gives no address. *)
Lemma system_resolver_no_answer (ns : Net.NameService) (domain : string) (timeout : Z) :
  (ns domain timeout = Net.DeadlineExceeded ∨ ∃ err, ns domain timeout = Net.Failed err) →
  resolveWithTimeout (Net.system_resolver ns) domain timeout = "".
Proof.
  intros H. unfold resolveWithTimeout, Net.system_resolver, Net.system_LookupIP.
  cbn.
  destruct (String.eqb domain ""); [reflexivity|].
  destruct H as [-> | [err ->]]; reflexivity.
Qed.

(** C4. [resolveWithTimeout] makes its one call of [LookupIP] and turns the
    answer into a string without failing: the empty string (no address) when
    the lookup returns an error, which is how a timeout and a failed lookup
    arrive, or an empty list of addresses; the text of the first address of
    the list, in the order the resolver gave, otherwise -- and that text is
    not the empty string. *)
Theorem resolveWithTimeout_contract
    (resolver : Net.Resolver) (domain : string) (timeout : Z)
    (ips : list Net.IP) (err : option string) :
  Net.LookupIP resolver timeout "ip4" domain = (ips, err) →
  (err ≠ None ∨ ips = [] → resolveWithTimeout resolver domain timeout = "")
  ∧ (∀ ip rest, err = None → ips = ip :: rest →
       resolveWithTimeout resolver domain timeout = Net.IP_String ip
       ∧ resolveWithTimeout resolver domain timeout ≠ "").
Proof.
  intros Hlookup. unfold resolveWithTimeout. rewrite Hlookup. split.
  - intros [Herr | ->].
    + destruct err; [reflexivity | congruence].
    + destruct err; reflexivity.
  - intros ip rest -> ->. split; [reflexivity | apply IP_String_nonempty].
Qed.

Lemma resolveWithTimeout_contract_witness :
  resolveWithTimeout (stub_resolver [ip_10_0_0_1; ip_10_0_0_2] None) "a.test" timeout5s
  = "10.0.0.1"
  ∧ resolveWithTimeout (stub_resolver [] (Some "i/o timeout")) "a.test" timeout5s = "".
Proof.
  split.
  - destruct (resolveWithTimeout_contract
                (stub_resolver [ip_10_0_0_1; ip_10_0_0_2] None) "a.test" timeout5s
                [ip_10_0_0_1; ip_10_0_0_2] None eq_refl) as [_ H].
    destruct (H ip_10_0_0_1 [ip_10_0_0_2] eq_refl eq_refl) as [H1 _].
    rewrite H1. reflexivity.
  - destruct (resolveWithTimeout_contract
                (stub_resolver [] (Some "i/o timeout")) "a.test" timeout5s
                [] (Some "i/o timeout") eq_refl) as [H _].
    apply H. right. reflexivity.
Defined.



(** ** Go's [int] *)

Lemma wrap_small (z : Z) : GoInt.in_range z → GoInt.wrap z = z.
Proof.
  unfold GoInt.in_range, GoInt.wrap, GoInt.min_int, GoInt.max_int.
  change (2 ^ 63) with 9223372036854775808.
  change (2 ^ 64) with 18446744073709551616.
  intros H. rewrite Z.mod_small; lia.
Qed.

(** Doubling a positive [int]: the product is either exact or negative. *)
Lemma wrap_double (z : Z) :
  1 <= z <= GoInt.max_int →
  (z < 2 ^ 62 ∧ GoInt.mul z 2 = 2 * z) ∨ (2 ^ 62 <= z ∧ GoInt.mul z 2 < 0).
Proof.
  unfold GoInt.mul, GoInt.wrap, GoInt.max_int.
  change (2 ^ 62) with 4611686018427387904.
  change (2 ^ 63) with 9223372036854775808.
  change (2 ^ 64) with 18446744073709551616.
  intros H.
  destruct (Z_lt_le_dec z 4611686018427387904) as [Hz | Hz]; [left | right].
  - split; [exact Hz|]. rewrite Z.mod_small; lia.
  - split; [exact Hz|].
    replace (z * 2 + 9223372036854775808)
      with ((z * 2 - 9223372036854775808) + 1 * 18446744073709551616) by lia.
    rewrite Z.mod_add by lia. rewrite Z.mod_small; lia.
Qed.

Lemma effectiveThreadCount_range (threadCount : Z) :
  GoInt.in_range threadCount →
  1 <= effectiveThreadCount threadCount <= GoInt.max_int.
Proof.
  unfold GoInt.in_range, effectiveThreadCount, GoInt.max_int, GoInt.min_int.
  change (2 ^ 63) with 9223372036854775808.
  intros H. destruct (Z.ltb_spec threadCount 1); lia.
Qed.

(** ** Start-up *)

(** What [main] hands to the pool. *)
Lemma main_pool (files : gmap string OS.File) (file : string)
    (threadCount : Z) (s : State) :
  GoInt.in_range threadCount →
  main files file threadCount = Started s →
  ∃ out,
    s = start {| ipMap := loadIPs files "ips.txt"; counter := 0; fs := files;
                 stdout := out |}
          (readDomains files file).1
          (Z.to_nat (effectiveThreadCount threadCount))
          (Z.to_nat (2 * effectiveThreadCount threadCount))
    ∧ 1 <= effectiveThreadCount threadCount.
Proof.
  intros Hrange Hmain.
  pose proof (effectiveThreadCount_range _ Hrange) as Heff.
  unfold main in Hmain.
  destruct (readDomains files file) as [domains [err|]]; [discriminate|].
  unfold make_chan in Hmain.
  destruct (wrap_double _ Heff) as [[_ Hmul] | [_ Hneg]].
  - rewrite Hmul in Hmain.
    destruct (Z.ltb_spec (2 * effectiveThreadCount threadCount) 0); [lia|].
    injection Hmain as <-. eexists. split; [reflexivity | lia].
  - destruct (Z.ltb_spec (GoInt.mul (effectiveThreadCount threadCount) 2) 0);
      [discriminate | lia].
Qed.

(** C8. Whenever [main] starts the pool, the number of workers is the
    thread count that was read, or 100 when that was below 1, and the
    channel has room for exactly twice as many domains as there are
    workers. *)
Theorem worker_count_configuration
    (files : gmap string OS.File) (file : string) (threadCount : Z) (s : State) :
  GoInt.in_range threadCount →
  main files file threadCount = Started s →
  Z.of_nat (length (workers s)) = (if threadCount <? 1 then 100 else threadCount)
  ∧ capacity s = (2 * length (workers s))%nat.
Proof.
  intros Hrange Hmain.
  destruct (main_pool _ _ _ _ Hrange Hmain) as (out & -> & Heff).
  cbn [start workers capacity]. rewrite length_replicate.
  fold (effectiveThreadCount threadCount). split; lia.
Qed.

(** A thread count of [2 ^ 62] or more makes the doubled capacity wrap to a
    negative number: [make] panics and no pool exists. *)
Lemma main_panics_on_huge_threadCount
    (files : gmap string OS.File) (file : string) (threadCount : Z) :
  2 ^ 62 <= threadCount <= GoInt.max_int →
  (readDomains files file).2 = None →
  ∃ out, main files file threadCount = Panicked out.
Proof.
  intros Ht Hread. unfold main.
  destruct (readDomains files file) as [domains [err|]]; [discriminate|].
  assert (Heff : effectiveThreadCount threadCount = threadCount).
  { unfold effectiveThreadCount. destruct (Z.ltb_spec threadCount 1); [|reflexivity].
    change (2 ^ 62) with 4611686018427387904 in Ht. lia. }
  rewrite Heff. unfold make_chan.
  destruct (wrap_double threadCount) as [[Hlt _] | [_ Hneg]].
  - change (2 ^ 62) with 4611686018427387904 in Ht. lia.
  - lia.
  - destruct (Z.ltb_spec (GoInt.mul threadCount 2) 0); [eauto | lia].
Qed.

(** Below that bound the pool starts as soon as the domains can be read. *)
Lemma main_starts
    (files : gmap string OS.File) (file : string) (threadCount : Z) :
  GoInt.min_int <= threadCount < 2 ^ 62 →
  (readDomains files file).2 = None →
  ∃ s, main files file threadCount = Started s.
Proof.
  intros Ht Hread. unfold main.
  destruct (readDomains files file) as [domains [err|]]; [discriminate|].
  assert (Heff : 1 <= effectiveThreadCount threadCount < 2 ^ 62).
  { unfold effectiveThreadCount. change (2 ^ 62) with 4611686018427387904 in *.
    destruct (Z.ltb_spec threadCount 1); lia. }
  unfold make_chan.
  destruct (wrap_double (effectiveThreadCount threadCount)) as [[_ Hmul] | [Hge _]].
  - unfold GoInt.max_int. change (2 ^ 62) with 4611686018427387904 in *.
    change (2 ^ 63) with 9223372036854775808. lia.
  - rewrite Hmul.
    destruct (Z.ltb_spec (2 * effectiveThreadCount threadCount) 0); [lia | eauto].
  - lia.
Qed.

Lemma in_range_small (z : Z) : -1000000 <= z <= 1000000 → GoInt.in_range z.
Proof.
  unfold GoInt.in_range, GoInt.min_int, GoInt.max_int.
  change (2 ^ 63) with 9223372036854775808. lia.
Qed.

Lemma worker_count_configuration_witness :
  ∃ s, main one_domain_files "d.txt" 0 = Started s
       ∧ length (workers s) = 100%nat ∧ capacity s = 200%nat.
Proof.
  eexists. split; [reflexivity|].
  match goal with
  | |- length (workers ?s) = _ ∧ _ =>
      destruct (worker_count_configuration one_domain_files "d.txt" 0 s
                  (in_range_small 0 ltac:(lia)) eq_refl) as [H1 H2]
  end.
  change (0 <? 1) with true in H1. cbv iota in H1.
  split; [|rewrite H2]; lia.
Defined.

(** ** The log file *)

Lemma split_dots_dotfree (x : string) : dotfree x = true → split_dots x = [x].
Proof.
  induction x as [|c r IH]; [reflexivity|].
  cbn [split_dots dotfree]. intros H. apply andb_true_iff in H as [Hc Hr].
  apply negb_true_iff in Hc. rewrite Hc, (IH Hr). reflexivity.
Qed.

Lemma split_dots_app (x r : string) :
  dotfree x = true → split_dots (x +:+ String "." r) = x :: split_dots r.
Proof.
  induction x as [|c x IH]; [reflexivity|].
  change (String c x +:+ String "." r) with (String c (x +:+ String "." r)).
  cbn [split_dots dotfree]. intros H.
  apply andb_true_iff in H as [Hc Hx].
  apply negb_true_iff in Hc. rewrite Hc, (IH Hx). reflexivity.
Qed.

Lemma ubtoa_octet_dotfree (b : Byte.byte) : dotfree (Net.ubtoa (Net.octet b)) = true.
Proof. destruct b; reflexivity. Qed.

Lemma ubtoa_octet_byte_text (b : Byte.byte) :
  is_byte_text (Net.ubtoa (Net.octet b)) = true.
Proof. destruct b; vm_compute; reflexivity. Qed.

Lemma IP_String_v4 (a b c d : Byte.byte) :
  Net.IP_String [a; b; c; d]
  = Net.ubtoa (Net.octet a) +:+ String "."
      (Net.ubtoa (Net.octet b) +:+ String "."
         (Net.ubtoa (Net.octet c) +:+ String "." (Net.ubtoa (Net.octet d)))).
Proof. reflexivity. Qed.

(** Every address that [resolveWithTimeout] can get from an IPv4 lookup has
    that shape. *)
Lemma IP_String_is_ipv4_literal (a b c d : Byte.byte) :
  is_ipv4_literal (Net.IP_String [a; b; c; d]) = true.
Proof.
  rewrite IP_String_v4. unfold is_ipv4_literal.
  rewrite !split_dots_app, split_dots_dotfree by apply ubtoa_octet_dotfree.
  cbn [forallb]. rewrite !ubtoa_octet_byte_text. reflexivity.
Qed.

Lemma loadIPs_fold (tokens : list string) (m0 : gset string) (x : string) :
  x ∈ foldl (fun (m : gset string) text =>
               let ip := Strings.TrimSpace text in
               if String.eqb ip "" then m else {[ip]} ∪ m) m0 tokens
  ↔ x ∈ m0 ∨ (x ≠ "" ∧ ∃ l, l ∈ tokens ∧ Strings.TrimSpace l = x).
Proof.
  revert m0. induction tokens as [|t tokens IH]; intros m0; cbn [foldl].
  - split; [auto|]. intros [H | (_ & l & Hl & _)]; [exact H|]. inversion Hl.
  - rewrite IH. cbn zeta.
    destruct (String.eqb (Strings.TrimSpace t) "") eqn:Ht.
    + apply eqb_empty in Ht. split.
      * intros [H | (Hx & l & Hl & Hlx)]; [auto|].
        right. split; [exact Hx|]. exists l. split; [by right | exact Hlx].
      * intros [H | (Hx & l & Hl & Hlx)]; [auto|].
        apply elem_of_cons in Hl as [-> | Hl]; [congruence|].
        right. split; [exact Hx|]. by exists l.
    + apply String.eqb_neq in Ht. split.
      * intros [H | (Hx & l & Hl & Hlx)].
        -- apply elem_of_union in H as [H | H]; [|auto].
           apply elem_of_singleton in H as ->.
           right. split; [exact Ht|]. exists t. split; [by left | reflexivity].
        -- right. split; [exact Hx|]. exists l. split; [by right | exact Hlx].
      * intros [H | (Hx & l & Hl & Hlx)]; [left; set_solver|].
        apply elem_of_cons in Hl as [-> | Hl].
        -- left. set_solver.
        -- right. split; [exact Hx|]. by exists l.
Qed.

(** C5, as the code has it.  [loadIPs] returns exactly the non-empty
    white-space-trimmed lines that the scanner delivers from the file at the
    given path; a file that cannot be opened, missing or not, gives the empty
    set.  Nothing else is tested: a line is kept whatever its shape. *)
Theorem loadIPs_contract (files : gmap string OS.File) (path x : string) :
  x ∈ loadIPs files path
  ↔ ∃ content l,
      OS.Open files path = OS.Ok content
      ∧ l ∈ (Bufio.Scan content).1
      ∧ Strings.TrimSpace l = x
      ∧ x ≠ "".
Proof.
  unfold loadIPs. destruct (OS.Open files path) as [content | err].
  - rewrite loadIPs_fold. split.
    + intros [H | (Hx & l & Hl & Hlx)]; [set_solver|].
      exists content, l. auto.
    + intros (content' & l & Heq & Hl & Hlx & Hx).
      injection Heq as <-. right. split; [exact Hx|]. by exists l.
  - split; [set_solver|]. intros (content & l & Heq & _). discriminate.
Qed.

Lemma loadIPs_missing (files : gmap string OS.File) (path : string) :
  files !! path = None → loadIPs files path = ∅.
Proof. intros H. unfold loadIPs, OS.Open. rewrite H. reflexivity. Qed.

(** When no line reaches the size limit the scanner delivers every line,
    without its carriage return. *)
Lemma scan_short_lines (ls : list string) :
  Forall (fun l => (N.of_nat (String.length l) < Bufio.MaxScanTokenSize)%N) ls →
  Bufio.scan ls = (map Bufio.dropCR ls, None).
Proof.
  induction 1 as [|l ls Hl _ IH]; [reflexivity|].
  cbn [Bufio.scan map].
  destruct (N.leb_spec Bufio.MaxScanTokenSize (N.of_nat (String.length l))); [lia|].
  rewrite IH. reflexivity.
Qed.

(** C5, as stated, fails: a line that is no address is loaded like any
    other (only the blank one is skipped). *)
Lemma loadIPs_keeps_malformed_line :
  is_ipv4_literal "not an address" = false
  ∧ loadIPs garbage_log "ips.txt" = {[ "not an address" ]}.
Proof. split; [reflexivity|]. vm_compute. reflexivity. Qed.

(** ** One critical section *)

Lemma raw_lines_nil (s : string) : Bufio.raw_lines s = [] → s = "".
Proof.
  destruct s as [|c r]; [reflexivity|]. cbn [Bufio.raw_lines].
  destruct (Ascii.eqb c Bufio.LF); [discriminate|].
  destruct (Bufio.raw_lines r); discriminate.
Qed.

Lemma raw_lines_line (a : string) :
  LF_free a = true → Bufio.raw_lines (a +:+ nl) = [a].
Proof.
  induction a as [|c r IH]; [reflexivity|].
  change (String c r +:+ nl) with (String c (r +:+ nl)).
  cbn [LF_free Bufio.raw_lines]. intros H.
  apply andb_true_iff in H as [Hc Hr]. apply negb_true_iff in Hc.
  rewrite Hc, (IH Hr). reflexivity.
Qed.

Lemma raw_lines_app (s t : string) :
  complete s = true → Bufio.raw_lines (s +:+ t) = Bufio.raw_lines s ++ Bufio.raw_lines t.
Proof.
  induction s as [|c r IH]; [reflexivity|].
  change (String c r +:+ t) with (String c (r +:+ t)).
  intros Hc. cbn [Bufio.raw_lines].
  assert (Hr : complete r = true).
  { destruct r; [reflexivity | exact Hc]. }
  rewrite (IH Hr).
  destruct (Ascii.eqb c Bufio.LF) eqn:Hlf; [reflexivity|].
  destruct (Bufio.raw_lines r) as [|l ls] eqn:Hl; [|reflexivity].
  apply raw_lines_nil in Hl. subst r. cbn in Hc. congruence.
Qed.

Lemma append_inj_r (s a b : string) : s +:+ a = s +:+ b → a = b.
Proof.
  induction s as [|c s IH]; [auto|]. intros H. injection H. exact IH.
Qed.

Lemma length_append (a b : string) :
  String.length (a +:+ b) = (String.length a + String.length b)%nat.
Proof.
  induction a as [|c a IH]; [reflexivity|].
  change (String.length (String c (a +:+ b))
          = S (String.length a + String.length b)).
  cbn [String.length]. by rewrite IH.
Qed.

Lemma length_prefix (k : nat) (t : string) :
  (String.length (OS.prefix k t) <= k)%nat.
Proof.
  revert t. induction k as [|k IH]; intros [|c t]; cbn; try lia.
  specialize (IH t). lia.
Qed.

(** A write that fails never gets the whole line into the file. *)
Lemma persisted_incomplete (fate : OS.AppendFate) (ip content : string) :
  fate ≠ OS.Written →
  content +:+ OS.persisted fate (ip +:+ nl) ≠ content +:+ ip +:+ nl.
Proof.
  intros Hf Heq. apply append_inj_r in Heq.
  apply (f_equal String.length) in Heq.
  rewrite length_append in Heq. cbn [String.length nl] in Heq.
  destruct fate as [err | n |]; [| |congruence]; cbn [OS.persisted] in Heq.
  - cbn in Heq. lia.
  - pose proof (length_prefix (Nat.min n (String.length (ip +:+ nl) - 1)) (ip +:+ nl)).
    rewrite length_append in H, Heq. cbn [String.length nl] in H, Heq. lia.
Qed.

Lemma log_file_insert (files : gmap string OS.File) (f : OS.File) :
  log_file (<["ips.txt" := f]> files) = OS.data f.
Proof. unfold log_file. by rewrite lookup_insert_eq. Qed.

(** What [appendIP] does when the file can be opened. *)
Lemma appendIP_opened (ip : string) (fate : OS.AppendFate) (w : World) :
  (∀ err, fate ≠ OS.OpenFails err) →
  log (appendIP ip fate w) = log w +:+ OS.persisted fate (ip +:+ nl)
  ∧ ipMap (appendIP ip fate w) = ipMap w
  ∧ counter (appendIP ip fate w) = counter w
  ∧ stdout (appendIP ip fate w) = stdout w.
Proof.
  intros Hf. unfold appendIP, log, OS.OpenFile_append, OS.WriteString.
  destruct fate as [err | n |]; [by destruct (Hf err) | |].
  all: destruct (fs w !! "ips.txt") as [f|] eqn:Hlookup.
  all: rewrite ?lookup_insert_eq, ?Hlookup; cbn [fs set_fs ipMap counter stdout].
  all: rewrite !log_file_insert; unfold log_file; rewrite Hlookup.
  all: auto.
Qed.

(** What it does when the file cannot be opened. *)
Lemma appendIP_open_fails (ip err : string) (w : World) :
  appendIP ip (OS.OpenFails err) w = print ("Write error: " +:+ err +:+ nl) w.
Proof. reflexivity. Qed.

Lemma updateProgress_fields (w : World) :
  ipMap (updateProgress w) = ipMap w
  ∧ fs (updateProgress w) = fs w
  ∧ counter (updateProgress w) = GoInt.add (counter w) 1
  ∧ (stdout (updateProgress w) = stdout w
     ∨ GoInt.rem (GoInt.add (counter w) 1) 500 = 0
       ∧ stdout (updateProgress w)
         = stdout w ++ ["Resolved " +:+ pretty (GoInt.add (counter w) 1)
                         +:+ " IPs so far..." +:+ nl]).
Proof.
  unfold updateProgress. cbn [counter set_counter].
  destruct (Z.eqb_spec (GoInt.rem (GoInt.add (counter w) 1) 500) 0) as [Hz | Hnz].
  - repeat split; try reflexivity. right. split; [exact Hz | reflexivity].
  - repeat split; try reflexivity. left. reflexivity.
Qed.

Lemma checkAndWrite_present (ip : string) (fate : OS.AppendFate) (w : World) :
  ip ∈ ipMap w → checkAndWrite ip fate w = (w, false).
Proof. intros H. unfold checkAndWrite. by rewrite decide_True. Qed.

Lemma checkAndWrite_new (ip : string) (fate : OS.AppendFate) (w : World) :
  ip ∉ ipMap w →
  checkAndWrite ip fate w
  = (updateProgress (appendIP ip fate (set_ipMap ({[ip]} ∪ ipMap w) w)), true).
Proof. intros H. unfold checkAndWrite. by rewrite decide_False. Qed.

Lemma appendIP_ipMap (ip : string) (fate : OS.AppendFate) (w : World) :
  ipMap (appendIP ip fate w) = ipMap w ∧ counter (appendIP ip fate w) = counter w.
Proof.
  unfold appendIP. destruct (OS.OpenFile_append (fs w) "ips.txt" fate); auto.
Qed.

Lemma checkAndWrite_ipMap (ip : string) (fate : OS.AppendFate) (w : World) :
  ipMap (checkAndWrite ip fate w).1 = {[ip]} ∪ ipMap w.
Proof.
  unfold checkAndWrite. destruct (decide (ip ∈ ipMap w)) as [Hin | Hnotin].
  - cbn. set_solver.
  - cbn [fst].
    destruct (updateProgress_fields
                (appendIP ip fate (set_ipMap ({[ip]} ∪ ipMap w) w))) as (-> & _).
    by destruct (appendIP_ipMap ip fate (set_ipMap ({[ip]} ∪ ipMap w) w)) as [-> _].
Qed.

Lemma insert_all_present (ip : string) (fates : list OS.AppendFate) (w : World) :
  ip ∈ ipMap w → insert_all ip fates w = (w, replicate (length fates) false).
Proof.
  intros Hin. induction fates as [|fate fates IH]; [reflexivity|].
  cbn [insert_all]. rewrite (checkAndWrite_present _ _ _ Hin), IH. reflexivity.
Qed.

(** C1, as the code has it.  Take any number of critical sections for one
    address, run one after the other as the lock forces them to, from a
    state whose set does not hold the address.  The first one finds the
    address new, puts it into the set and calls [appendIP] once; each of the
    others finds it present and leaves the set, the counter, the files and
    the output as they are.  When the operating system carries out that one
    append the log grows by exactly the line of the address; the address is
    then on exactly one line of the log when the log was made of complete
    lines, none of them the address, and the address holds no line feed. *)
Theorem insert_once
    (ip : string) (fate : OS.AppendFate) (fates : list OS.AppendFate) (w : World) :
  ip ∉ ipMap w →
  (insert_all ip (fate :: fates) w).2 = true :: replicate (length fates) false
  ∧ (insert_all ip (fate :: fates) w).1 = (checkAndWrite ip fate w).1
  ∧ ipMap (insert_all ip (fate :: fates) w).1 = {[ip]} ∪ ipMap w
  ∧ (fate = OS.Written →
     log (insert_all ip (fate :: fates) w).1 = log w +:+ ip +:+ nl
     ∧ (complete (log w) = true → LF_free ip = true →
        ip ∉ Bufio.raw_lines (log w) →
        count_occ String.string_dec
          (Bufio.raw_lines (log (insert_all ip (fate :: fates) w).1)) ip = 1%nat)).
Proof.
  intros Hnew.
  assert (Hin : ip ∈ ipMap (checkAndWrite ip fate w).1).
  { rewrite checkAndWrite_ipMap. set_solver. }
  assert (Hall : insert_all ip (fate :: fates) w
                 = ((checkAndWrite ip fate w).1, true :: replicate (length fates) false)).
  { cbn [insert_all]. rewrite (checkAndWrite_new _ _ _ Hnew) in *. cbn [fst] in Hin.
    by rewrite (insert_all_present _ _ _ Hin). }
  rewrite Hall. cbn [fst snd].
  split; [reflexivity|]. split; [reflexivity|].
  split; [apply checkAndWrite_ipMap|].
  intros ->.
  assert (Hlog : log (checkAndWrite ip OS.Written w).1 = log w +:+ ip +:+ nl).
  { rewrite (checkAndWrite_new _ _ _ Hnew). cbn [fst].
    unfold log at 1.
    destruct (updateProgress_fields
                (appendIP ip OS.Written (set_ipMap ({[ip]} ∪ ipMap w) w)))
      as (_ & -> & _).
    destruct (appendIP_opened ip OS.Written (set_ipMap ({[ip]} ∪ ipMap w) w))
      as (Hl & _); [discriminate|].
    exact Hl. }
  split; [exact Hlog|].
  intros Hcomplete Hfree Habsent. rewrite Hlog.
  rewrite (raw_lines_app _ _ Hcomplete), (raw_lines_line _ Hfree).
  rewrite count_occ_app. cbn [count_occ].
  destruct (String.string_dec ip ip) as [_ | Hne]; [|congruence].
  rewrite (proj1 (count_occ_not_In String.string_dec _ _)); [reflexivity|].
  by rewrite <- list_elem_of_In.
Qed.

Lemma insert_once_witness :
  (insert_all "10.0.0.1" [OS.Written; OS.Written; OS.OpenFails "disk gone"] empty_world).2
  = [true; false; false]
  ∧ count_occ String.string_dec
      (Bufio.raw_lines
         (log (insert_all "10.0.0.1" [OS.Written; OS.Written; OS.OpenFails "disk gone"]
                 empty_world).1))
      "10.0.0.1" = 1%nat.
Proof.
  destruct (insert_once "10.0.0.1" OS.Written [OS.Written; OS.OpenFails "disk gone"]
              empty_world (not_elem_of_empty _)) as (H1 & _ & _ & H4).
  split; [exact H1|].
  destruct (H4 eq_refl) as [_ H5].
  apply H5; [reflexivity | reflexivity | exact (not_elem_of_nil _)].
Defined.

(** C1, as stated, fails: the log ends in a line without a line feed, the
    address is neither in the set nor in the log, the operating system
    carries out every append, the first call answers true -- and the address
    is glued to the last line, so that no line of the log is the address. *)
Lemma glued_address_is_on_no_line :
  ipMap unfinished_world = {[ "10.0.0.1" ]}
  ∧ Bufio.raw_lines (log unfinished_world) = ["10.0.0.1"]
  ∧ (insert_all "10.0.0.2" [OS.Written; OS.Written] unfinished_world).2
    = [true; false]
  ∧ log (insert_all "10.0.0.2" [OS.Written; OS.Written] unfinished_world).1
    = "10.0.0.110.0.0.2" +:+ nl
  ∧ count_occ String.string_dec
      (Bufio.raw_lines
         (log (insert_all "10.0.0.2" [OS.Written; OS.Written] unfinished_world).1))
      "10.0.0.2" = 0%nat.
Proof. vm_compute. repeat split; reflexivity. Qed.

(** The same within one run of the program: a write that fails after four
    bytes leaves an unfinished line, and the next address is glued to it. *)
Example partial_write_glues_the_next_line :
  let w1 := (checkAndWrite "10.0.0.1" (OS.WriteFails 4) empty_world).1 in
  let '(w2, new) := checkAndWrite "10.0.0.2" OS.Written w1 in
  log w1 = "10.0" ∧ new = true
  ∧ log w2 = "10.010.0.0.2" +:+ nl
  ∧ count_occ String.string_dec (Bufio.raw_lines (log w2)) "10.0.0.2" = 0%nat.
Proof. vm_compute. repeat split; reflexivity. Qed.

(** ** The pool: bookkeeping over the workers *)

Local Close Scope Z_scope.

Lemma total_insert (f : Goroutine → nat) (ws : list Goroutine) (i : nat)
    (g g' : Goroutine) :
  ws !! i = Some g → total f (<[i := g']> ws) + f g = total f ws + f g'.
Proof.
  revert i. induction ws as [|w ws IH]; intros [|i] Hi; try discriminate.
  - injection Hi as ->. cbn. lia.
  - cbn in Hi. cbn [total list_insert]. specialize (IH i Hi).
    change (<[S i:=g']> (w :: ws)) with (w :: <[i:=g']> ws). cbn [total]. lia.
Qed.

Lemma held_insert (ws : list Goroutine) (i : nat) (g g' : Goroutine) :
  ws !! i = Some g → held (<[i := g']> ws) ++ item g ≡ₚ held ws ++ item g'.
Proof.
  revert i. induction ws as [|w ws IH]; intros [|i] Hi; try discriminate.
  - injection Hi as ->.
    change (<[0:=g']> (g :: ws)) with (g' :: ws). cbn [held]. solve_Permutation.
  - cbn in Hi. specialize (IH i Hi).
    change (<[S i:=g']> (w :: ws)) with (w :: <[i:=g']> ws). cbn [held].
    rewrite <- !(assoc (++)). by rewrite IH.
Qed.

Lemma total_exists (f : Goroutine → nat) (ws : list Goroutine) :
  0 < total f ws → ∃ i g, ws !! i = Some g ∧ 0 < f g.
Proof.
  induction ws as [|w ws IH]; cbn [total]; [lia|]. intros H.
  destruct (f w) as [|k] eqn:Hw.
  - destruct IH as (i & g & Hi & Hg); [lia|]. by exists (S i), g.
  - exists 0, w. split; [reflexivity | lia].
Qed.

Lemma total_lookup (f : Goroutine → nat) (ws : list Goroutine) (i : nat) (g : Goroutine) :
  ws !! i = Some g → f g <= total f ws.
Proof.
  revert i. induction ws as [|w ws IH]; intros [|i] Hi; try discriminate.
  - injection Hi as ->. cbn. lia.
  - cbn in Hi. specialize (IH i Hi). cbn [total]. lia.
Qed.

Lemma all_exited_lookup (ws : list Goroutine) (i : nat) (g : Goroutine) :
  all_exited ws = true → ws !! i = Some g → g = Exited.
Proof.
  unfold all_exited. rewrite forallb_forall. intros Hall Hi.
  apply list_elem_of_lookup_2, list_elem_of_In in Hi.
  specialize (Hall g Hi). by destruct g.
Qed.

Lemma all_exited_total (ws : list Goroutine) :
  all_exited ws = true → held ws = [] ∧ total exited ws = length ws.
Proof.
  induction ws as [|w ws IH]; [done|].
  cbn [all_exited forallb]. intros H. apply andb_true_iff in H as [Hw Hws].
  destruct (IH Hws) as [Hh Ht]. destruct w; try discriminate.
  cbn [held item total exited length]. rewrite Hh, Ht. done.
Qed.

Lemma held_replicate (n : nat) : held (replicate n Receiving) = [].
Proof. induction n as [|n IH]; [reflexivity | exact IH]. Qed.

Lemma total_replicate (f : Goroutine → nat) (n : nat) :
  f Receiving = 0 → total f (replicate n Receiving) = 0.
Proof. intros Hf. induction n as [|n IH]; [reflexivity|]. cbn. lia. Qed.

(** ** The pool: how the domains flow through it *)

Lemma Flow_start (w : World) (domains : list string) (n cap : nat) :
  0 < cap → Flow domains n (start w domains n cap).
Proof.
  intros Hcap. split; cbn [start feeder domainChan workers attempts pending
                            ipMapLock closed capacity].
  - rewrite held_replicate. solve_Permutation.
  - by apply total_replicate.
  - reflexivity.
  - rewrite total_replicate by reflexivity. lia.
  - apply length_replicate.
  - discriminate.
  - exact Hcap.
Qed.

(** Case analysis on an action that was possible. *)
Ltac exec_cases H :=
  match type of H with
  | exec ?a _ = Some _ => destruct a; cbn [exec] in H
  end;
  repeat case_match; simplify_eq;
  cbn [world feeder domainChan capacity closed ipMapLock workers attempts
       history pending] in *.

Ltac with_insert f :=
  match goal with
  | H : ?ws !! ?i = Some ?g |- context [<[?i := ?g']> ?ws] =>
      pose proof (total_insert f ws i g g' H)
  | H : ?ws !! ?i = Some ?g, H' : context [<[?i := ?g']> ?ws] |- _ =>
      pose proof (total_insert f ws i g g' H)
  end.

Ltac with_held :=
  match goal with
  | H : ?ws !! ?i = Some ?g |- context [<[?i := ?g']> ?ws] =>
      let Hh := fresh "Hh" in
      pose proof (held_insert ws i g g' H) as Hh;
      cbn [item] in Hh; rewrite ?app_nil_r in Hh
  end.

Lemma Flow_exec (domains : list string) (n : nat) (a : Action) (s s' : State) :
  Flow domains n s → exec a s = Some s' → Flow domains n s'.
Proof.
  intros [F1 F2 F3 F4 F5 F6 F7] Hexec. split.
  - (* the domains *)
    exec_cases Hexec; try exact F1.
    all: try (with_held; rewrite <- F1; first [rewrite Hh | rewrite <- Hh]).
    all: try rewrite <- F1.
    all: solve_Permutation.
  - (* the lock *)
    exec_cases Hexec; try exact F2.
    all: with_insert holding; cbn [holding] in *; lia.
  - (* the channel is closed after the loop *)
    exec_cases Hexec; try exact F3; try reflexivity; discriminate.
  - (* workers that have left *)
    exec_cases Hexec; try exact F4; intros Hex.
    all: try with_insert exited; cbn [exited] in *.
    all: try (destruct F4 as [? ?]; [lia|]; simplify_eq).
    all: try congruence.
    all: try (split; [reflexivity|]); done.
  - (* the number of workers *)
    exec_cases Hexec; rewrite ?length_insert; reflexivity.
  - (* the end *)
    exec_cases Hexec; try exact F6; try discriminate; try done.
    all: intros Hfin; specialize (F6 Hfin).
    all: match goal with
         | H : workers ?x !! _ = Some _, F : all_exited (workers ?x) = true |- _ =>
             pose proof (all_exited_lookup _ _ _ F H); discriminate
         end.
  - exec_cases Hexec; exact F7.
Qed.

Lemma Flow_run (domains : list string) (n : nat) (schedule : list Action)
    (s s' : State) :
  Flow domains n s → run schedule s = Some s' → Flow domains n s'.
Proof.
  revert s. induction schedule as [|a schedule IH]; intros s Hflow Hrun.
  - injection Hrun as <-. exact Hflow.
  - cbn [run] in Hrun. destruct (exec a s) as [s1|] eqn:Hexec; [|discriminate].
    exact (IH s1 (Flow_exec _ _ _ _ _ Hflow Hexec) Hrun).
Qed.

Lemma run_app (schedule1 schedule2 : list Action) (s s1 : State) :
  run schedule1 s = Some s1 → run (schedule1 ++ schedule2) s = run schedule2 s1.
Proof.
  revert s. induction schedule1 as [|a schedule1 IH]; intros s Hrun.
  - injection Hrun as <-. reflexivity.
  - cbn [run app] in *. destruct (exec a s) as [s'|]; [eauto | discriminate].
Qed.

(** Every action uses up some of the work that is left. *)
Lemma exec_measure (a : Action) (s s' : State) :
  exec a s = Some s' → measure s' < measure s.
Proof.
  intros Hexec.
  exec_cases Hexec; unfold measure;
    cbn [feeder domainChan workers]; repeat case_match; simplify_eq;
    try match goal with H : domainChan _ = _ |- _ => rewrite H end;
    rewrite ?length_app; cbn [length].
  all: try with_insert weight; cbn [weight] in *; lia.
Qed.

Lemma run_measure (schedule : list Action) (s s' : State) :
  run schedule s = Some s' → length schedule + measure s' <= measure s.
Proof.
  revert s. induction schedule as [|a schedule IH]; intros s Hrun.
  - injection Hrun as <-. cbn. lia.
  - cbn [run] in Hrun. destruct (exec a s) as [s1|] eqn:Hexec; [|discriminate].
    specialize (IH s1 Hrun). pose proof (exec_measure _ _ _ Hexec). cbn [length]. lia.
Qed.

Lemma busy_or_idle (ws : list Goroutine) :
  (∃ i g, ws !! i = Some g ∧ ¬ idle g) ∨ Forall idle ws.
Proof.
  induction ws as [|w ws [(i & g & Hi & Hg) | Hall]].
  - right. constructor.
  - left. by exists (S i), g.
  - destruct w; try (right; constructor; [unfold idle; by auto | exact Hall]).
    all: left; exists 0; eexists; (split; [reflexivity|]); intros [?|?]; discriminate.
Qed.

Lemma idle_exited_or_receiving (ws : list Goroutine) :
  Forall idle ws → all_exited ws = true ∨ ∃ i, ws !! i = Some Receiving.
Proof.
  induction 1 as [|w ws [-> | ->] _ [IH | (i & Hi)]].
  - by left.
  - right. by exists 0.
  - right. by exists 0.
  - left. exact IH.
  - right. by exists (S i).
Qed.

(** A worker that is neither at the channel nor gone can move, or the
    holder of the lock it waits for can. *)
Lemma busy_can_move (domains : list string) (n : nat) (s : State) (i : nat)
    (g : Goroutine) :
  Flow domains n s → workers s !! i = Some g → ¬ idle g →
  ∃ a s', exec a s = Some s'.
Proof.
  intros Hflow Hi Hbusy. destruct g as [|d|ip|ip| |].
  - destruct Hbusy. by left.
  - exists (Resolve i {| Net.LookupIP := fun _ _ _ => ([], None) |}).
    cbn [exec]. rewrite Hi. eauto.
  - destruct (ipMapLock s) eqn:Hlock.
    + pose proof (flow_lock _ _ _ Hflow) as Hholder. rewrite Hlock in Hholder.
      destruct (total_exists holding (workers s)) as (j & h & Hj & Hh); [lia|].
      destruct h; cbn [holding] in Hh; try lia.
      * exists (Body j OS.Written). cbn [exec]. rewrite Hj.
        destruct (checkAndWrite _ _ _). eauto.
      * exists (Unlock j). cbn [exec]. rewrite Hj. eauto.
    + exists (Lock i). cbn [exec]. rewrite Hi, Hlock. eauto.
  - exists (Body i OS.Written). cbn [exec]. rewrite Hi.
    destruct (checkAndWrite _ _ _). eauto.
  - exists (Unlock i). cbn [exec]. rewrite Hi. eauto.
  - destruct Hbusy. by right.
Qed.

(** The pool is never stuck before the final message: with at least one
    worker some goroutine can always move. *)
Lemma progress (domains : list string) (n : nat) (s : State) :
  Flow domains n s → 0 < n → feeder s ≠ Finished →
  ∃ a s', exec a s = Some s'.
Proof.
  intros Hflow Hn Hfeeder.
  destruct (busy_or_idle (workers s)) as [(i & g & Hi & Hg) | Hidle].
  { exact (busy_can_move _ _ _ _ _ Hflow Hi Hg). }
  pose proof (flow_closed _ _ _ Hflow) as Hclosed.
  destruct (feeder s) as [[|d rest]| |] eqn:Hf; [| | |congruence].
  - exists Close. cbn [exec]. rewrite Hf. eauto.
  - destruct (length (domainChan s) <? capacity s) eqn:Hroom.
    + exists Send. cbn [exec]. rewrite Hf, Hroom. eauto.
    + apply Nat.ltb_ge in Hroom. pose proof (flow_capacity _ _ _ Hflow) as Hcap.
      destruct (domainChan s) as [|d' queue] eqn:Hchan; [cbn in Hroom; lia|].
      destruct (idle_exited_or_receiving _ Hidle) as [Hall | (i & Hi)].
      * destruct (all_exited_total _ Hall) as [_ Htotal].
        destruct (flow_exited _ _ _ Hflow) as [Hc _]; [|congruence].
        rewrite Htotal, (flow_workers _ _ _ Hflow). exact Hn.
      * exists (Receive i). cbn [exec]. rewrite Hi, Hchan. eauto.
  - destruct (idle_exited_or_receiving _ Hidle) as [Hall | (i & Hi)].
    + exists Finish. cbn [exec]. rewrite Hf, Hall. eauto.
    + destruct (domainChan s) as [|d' queue] eqn:Hchan.
      * exists (Exit i). cbn [exec]. rewrite Hi, Hchan, Hclosed. eauto.
      * exists (Receive i). cbn [exec]. rewrite Hi, Hchan. eauto.
Qed.

(** So the pool can always be run to the end. *)
Lemma can_finish (domains : list string) (n : nat) (s : State) :
  Flow domains n s → 0 < n →
  ∃ schedule s', run schedule s = Some s' ∧ feeder s' = Finished.
Proof.
  intros Hflow Hn.
  remember (measure s) as m eqn:Hm.
  assert (Hle : measure s <= m) by lia. clear Hm.
  revert s Hflow Hle. induction m as [|m IH]; intros s Hflow Hle.
  - destruct (feeder s) eqn:Hf.
    1,2: destruct (progress _ _ _ Hflow Hn) as (a & s1 & Hexec); [congruence|];
         pose proof (exec_measure _ _ _ Hexec); lia.
    by exists [], s.
  - destruct (feeder s) eqn:Hf.
    1,2: destruct (progress _ _ _ Hflow Hn) as (a & s1 & Hexec); [congruence|];
         pose proof (exec_measure _ _ _ Hexec) as Hlt;
         destruct (IH s1 (Flow_exec _ _ _ _ _ Hflow Hexec)) as (sch & s' & Hrun & Hfin);
           [lia|];
         exists (a :: sch), s'; cbn [run]; rewrite Hexec; auto.
    by exists [], s.
Qed.

(** When the final message is out, every domain has been looked up once. *)
Lemma finished_attempts (domains : list string) (n : nat) (s : State) :
  Flow domains n s → 0 < n → feeder s = Finished → attempts s ≡ₚ domains.
Proof.
  intros Hflow Hn Hfin.
  pose proof (flow_finished _ _ _ Hflow Hfin) as Hall.
  destruct (all_exited_total _ Hall) as [Hheld Htotal].
  destruct (flow_exited _ _ _ Hflow) as [_ Hchan].
  { rewrite Htotal, (flow_workers _ _ _ Hflow). exact Hn. }
  pose proof (flow_domains _ _ _ Hflow) as Hd.
  rewrite Hfin, Hchan, Hheld in Hd. exact Hd.
Qed.

(** C2. Start the pool on a list of domains with at least one worker and a
    channel with room for at least one domain.  However the goroutines are
    scheduled and whatever the network answers: the pool is never stuck
    before the end, no run is longer than a bound fixed at the start, the end
    can be reached, and in every state in which [main] has passed
    [wg.Wait()] the lookups that were made are the domains of the list, each
    as often as it occurs there -- none twice, none left out. *)
Theorem completeness (w : World) (domains : list string) (threadCount cap : nat) :
  1 <= threadCount → 1 <= cap →
  (∃ schedule s,
      run schedule (start w domains threadCount cap) = Some s
      ∧ feeder s = Finished)
  ∧ (∀ schedule s,
       run schedule (start w domains threadCount cap) = Some s →
       length schedule <= measure (start w domains threadCount cap)
       ∧ (feeder s ≠ Finished → ∃ a s', exec a s = Some s')
       ∧ (feeder s = Finished → attempts s ≡ₚ domains)).
Proof.
  intros Hn Hcap.
  assert (Hstart : Flow domains threadCount (start w domains threadCount cap)).
  { apply Flow_start. lia. }
  split; [apply (can_finish _ _ _ Hstart); lia|].
  intros schedule s Hrun.
  pose proof (Flow_run _ _ _ _ _ Hstart Hrun) as Hflow.
  split; [pose proof (run_measure _ _ _ Hrun); lia|].
  split.
  - intros Hf. apply (progress _ _ _ Hflow); [lia | exact Hf].
  - intros Hf. apply (finished_attempts _ _ _ Hflow); [lia | exact Hf].
Qed.

Lemma completeness_witness :
  ∃ schedule s,
    run schedule (start empty_world ["a.test"; "b.test"; "a.test"] 2 4) = Some s
    ∧ feeder s = Finished.
Proof.
  exact (proj1 (completeness empty_world ["a.test"; "b.test"; "a.test"] 2 4
                  ltac:(lia) ltac:(lia))).
Defined.

(** ** The pool: the lock and the set *)

Lemma total_lookup2 (f : Goroutine → nat) (ws : list Goroutine) (i j : nat)
    (g g' : Goroutine) :
  i ≠ j → ws !! i = Some g → ws !! j = Some g' → f g + f g' <= total f ws.
Proof.
  revert i j. induction ws as [|w ws IH]; intros [|i] [|j] Hne Hi Hj;
    try discriminate; try congruence; cbn in Hi, Hj; cbn [total].
  - injection Hi as ->. pose proof (total_lookup f _ _ _ Hj). lia.
  - injection Hj as ->. pose proof (total_lookup f _ _ _ Hi). lia.
  - assert (i ≠ j) by congruence. specialize (IH i j H Hi Hj). lia.
Qed.

(** No two workers are between [Lock] and [Unlock] at the same time. *)
Lemma mutual_exclusion (domains : list string) (n : nat) (s : State)
    (i j : nat) (g g' : Goroutine) :
  Flow domains n s → i ≠ j →
  workers s !! i = Some g → workers s !! j = Some g' →
  holding g + holding g' <= 1.
Proof.
  intros Hflow Hne Hi Hj.
  pose proof (total_lookup2 holding _ _ _ _ _ Hne Hi Hj).
  pose proof (flow_lock _ _ _ Hflow). destruct (ipMapLock s); lia.
Qed.

Lemma inserted_snoc (h : list (string * bool)) (ip : string) (new : bool) :
  inserted (h ++ [(ip, new)]) = inserted h ++ (if new then [ip] else []).
Proof.
  unfold inserted. rewrite filter_app, fmap_app. f_equal.
  destruct new; rewrite filter_cons; cbn [snd].
  - by rewrite decide_True.
  - by rewrite decide_False.
Qed.

(** The two ways a critical section can go. *)
Lemma checkAndWrite_cases (ip : string) (fate : OS.AppendFate) (w w1 : World)
    (new : bool) :
  checkAndWrite ip fate w = (w1, new) →
  (new = false ∧ (ip ∈ ipMap w) ∧ w1 = w)
  ∨ (new = true ∧ (ip ∉ ipMap w) ∧ ipMap w1 = {[ip]} ∪ ipMap w).
Proof.
  intros Hcw. pose proof (checkAndWrite_ipMap ip fate w) as Hmap.
  rewrite Hcw in Hmap. cbn [fst] in Hmap.
  destruct (decide (ip ∈ ipMap w)) as [Hin | Hnew].
  - rewrite (checkAndWrite_present _ _ _ Hin) in Hcw. injection Hcw as <- <-. by left.
  - rewrite (checkAndWrite_new _ _ _ Hnew) in Hcw. injection Hcw as _ <-. by right.
Qed.

(** In every state of a pool that started with the set [loaded], the set is
    [loaded] plus the addresses of the critical sections that took the
    branch, and no address took it twice. *)
Lemma inserted_exec (loaded : gset string) (a : Action) (s s' : State) :
  NoDup (inserted (history s))
  ∧ (∀ ip, ip ∈ ipMap (world s) ↔ ip ∈ loaded ∨ ip ∈ inserted (history s)) →
  exec a s = Some s' →
  NoDup (inserted (history s'))
  ∧ (∀ ip, ip ∈ ipMap (world s') ↔ ip ∈ loaded ∨ ip ∈ inserted (history s')).
Proof.
  intros [Hnodup Hset] Hexec.
  exec_cases Hexec; try (split; assumption).
  match goal with
  | Hcw : checkAndWrite _ _ _ = _ |- _ =>
      destruct (checkAndWrite_cases _ _ _ _ _ Hcw) as [(-> & Hin & ->) | (-> & Hnew & Hmap)]
  end; rewrite inserted_snoc.
  - rewrite app_nil_r. by split.
  - split.
    + apply NoDup_app. split; [exact Hnodup|]. split; [|apply NoDup_singleton].
      intros x Hx Hx'. apply list_elem_of_singleton in Hx' as ->.
      apply Hnew, Hset. by right.
    + intros x. rewrite Hmap, elem_of_union, elem_of_singleton, Hset, elem_of_app,
        list_elem_of_singleton. tauto.
Qed.

Lemma pool_inserts_once (w : World) (domains : list string) (n cap : nat)
    (schedule : list Action) (s : State) :
  run schedule (start w domains n cap) = Some s →
  NoDup (inserted (history s))
  ∧ (∀ ip, ip ∈ ipMap (world s) ↔ ip ∈ ipMap w ∨ ip ∈ inserted (history s)).
Proof.
  assert (Hstart : NoDup (inserted (history (start w domains n cap)))
                   ∧ (∀ ip, ip ∈ ipMap (world (start w domains n cap))
                            ↔ ip ∈ ipMap w ∨ ip ∈ inserted (history (start w domains n cap)))).
  { cbn [start history world]. split; [apply NoDup_nil_2|].
    intros ip. unfold inserted. cbn. rewrite elem_of_nil. tauto. }
  revert Hstart. generalize (start w domains n cap).
  induction schedule as [|a schedule IH]; intros s0 Hinv Hrun.
  - by injection Hrun as <-.
  - cbn [run] in Hrun. destruct (exec a s0) as [s1|] eqn:Hexec; [|discriminate].
    exact (IH s1 (inserted_exec _ _ _ _ Hinv Hexec) Hrun).
Qed.

(** ** The pool: what the counter counts *)

Lemma news_le (h : list (string * bool)) : news h <= length h.
Proof. apply length_filter. Qed.

Lemma news_snoc (h : list (string * bool)) (ip : string) (new : bool) :
  news (h ++ [(ip, new)]) = news h + (if new then 1 else 0).
Proof.
  unfold news. rewrite filter_app, length_app. f_equal.
  destruct new; rewrite filter_cons; cbn [snd].
  - by rewrite decide_True.
  - by rewrite decide_False.
Qed.

Lemma size_insert_new (ip : string) (M L : gset string) :
  ip ∉ M → L ⊆ M → size (({[ip]} ∪ M) ∖ L) = S (size (M ∖ L)).
Proof.
  intros Hip HL.
  replace (({[ip]} ∪ M) ∖ L) with ({[ip]} ∪ (M ∖ L)) by set_solver.
  rewrite size_union by set_solver. by rewrite size_singleton.
Qed.

Lemma checkAndWrite_counter (ip : string) (fate : OS.AppendFate) (w : World) :
  ip ∉ ipMap w → counter (checkAndWrite ip fate w).1 = GoInt.add (counter w) 1.
Proof.
  intros Hnew. rewrite (checkAndWrite_new _ _ _ Hnew). cbn [fst].
  destruct (updateProgress_fields
              (appendIP ip fate (set_ipMap ({[ip]} ∪ ipMap w) w))) as (_ & _ & -> & _).
  by destruct (appendIP_ipMap ip fate (set_ipMap ({[ip]} ∪ ipMap w) w)) as [_ ->].
Qed.

Lemma attempts_bound (domains : list string) (n : nat) (s : State) :
  Flow domains n s → length (attempts s) <= length domains.
Proof.
  intros Hflow. pose proof (flow_domains _ _ _ Hflow) as Hd.
  apply Permutation_length in Hd. rewrite !length_app in Hd. lia.
Qed.

Lemma Count_start (w : World) (domains : list string) (n cap : nat) :
  counter w = 0%Z → Count (ipMap w) (start w domains n cap).
Proof.
  intros Hzero. split; cbn [start world workers history attempts].
  - done.
  - rewrite Hzero. replace (ipMap w ∖ ipMap w) with (∅ : gset string) by set_solver.
    by rewrite size_empty.
  - replace (ipMap w ∖ ipMap w) with (∅ : gset string) by set_solver.
    by rewrite size_empty.
  - rewrite total_replicate by reflexivity. cbn. lia.
Qed.

Lemma Count_body (loaded : gset string) (domains : list string) (n : nat)
    (s : State) (i : nat) (ip : string) (fate : OS.AppendFate) (w : World) (new : bool) :
  (Z.of_nat (length domains) <= GoInt.max_int)%Z →
  Flow domains n s → Count loaded s →
  workers s !! i = Some (Critical ip) →
  checkAndWrite ip fate (world s) = (w, new) →
  loaded ⊆ ipMap w
  ∧ counter w = Z.of_nat (size (ipMap w ∖ loaded))
  ∧ size (ipMap w ∖ loaded) = news (history s ++ [(ip, new)]).
Proof.
  intros Hlen Hflow [C1 C2 C3 C4] Hi Hcw.
  rewrite news_snoc.
  destruct (decide (ip ∈ ipMap (world s))) as [Hin | Hnew].
  - rewrite (checkAndWrite_present _ _ _ Hin) in Hcw. injection Hcw as <- <-.
    rewrite Nat.add_0_r. auto.
  - pose proof (checkAndWrite_ipMap ip fate (world s)) as Hmap.
    pose proof (checkAndWrite_counter ip fate (world s) Hnew) as Hctr.
    rewrite Hcw in Hmap, Hctr. cbn [fst] in Hmap, Hctr.
    assert (Hnewb : new = true).
    { rewrite (checkAndWrite_new _ _ _ Hnew) in Hcw. by injection Hcw. }
    subst new. rewrite Hmap, (size_insert_new _ _ _ Hnew C1).
    split; [set_solver|]. split; [|lia].
    rewrite Hctr, C2. unfold GoInt.add. rewrite wrap_small; [lia|].
    pose proof (total_lookup carrying _ _ _ Hi) as Hcarry. cbn [carrying] in Hcarry.
    pose proof (attempts_bound _ _ _ Hflow).
    pose proof (news_le (history s)).
    unfold GoInt.in_range, GoInt.min_int. unfold GoInt.max_int in *.
    change (2 ^ 63)%Z with 9223372036854775808%Z in *. lia.
Qed.

Lemma Count_exec (loaded : gset string) (domains : list string) (n : nat)
    (a : Action) (s s' : State) :
  (Z.of_nat (length domains) <= GoInt.max_int)%Z →
  Flow domains n s → Count loaded s → exec a s = Some s' → Count loaded s'.
Proof.
  intros Hlen Hflow Hcount Hexec.
  exec_cases Hexec.
  all: try match goal with
           | Hi : workers _ !! _ = Some (Critical _),
             Hcw : checkAndWrite _ _ _ = _ |- _ =>
               destruct (Count_body _ _ _ _ _ _ _ _ _ Hlen Hflow Hcount Hi Hcw)
                 as (B1 & B2 & B3)
           end.
  all: destruct Hcount as [C1 C2 C3 C4].
  all: split; cbn [world history workers attempts print ipMap counter];
    try assumption.
  all: try with_insert carrying; cbn [carrying] in *;
    rewrite ?length_app; cbn [length]; lia.
Qed.

Lemma Count_run (loaded : gset string) (domains : list string) (n : nat)
    (schedule : list Action) (s s' : State) :
  (Z.of_nat (length domains) <= GoInt.max_int)%Z →
  Flow domains n s → Count loaded s → run schedule s = Some s' → Count loaded s'.
Proof.
  intros Hlen. revert s. induction schedule as [|a schedule IH]; intros s Hflow Hcount Hrun.
  - injection Hrun as <-. exact Hcount.
  - cbn [run] in Hrun. destruct (exec a s) as [s1|] eqn:Hexec; [|discriminate].
    exact (IH s1 (Flow_exec _ _ _ _ _ Hflow Hexec)
              (Count_exec _ _ _ _ _ _ Hlen Hflow Hcount Hexec) Hrun).
Qed.

(** A lookup changes neither the set, the counter, the files nor the
    output, whatever it returns. *)
Lemma resolve_world (i : nat) (resolver : Net.Resolver) (s s' : State) :
  exec (Resolve i resolver) s = Some s' →
  world s' = world s ∧ history s' = history s.
Proof.
  intros Hexec. cbn [exec] in Hexec.
  destruct (workers s !! i) as [[]|]; try discriminate.
  injection Hexec as <-. auto.
Qed.

Lemma main_started (files : gmap string OS.File) (file : string)
    (threadCount : Z) (s : State) :
  GoInt.in_range threadCount →
  main files file threadCount = Started s →
  ∃ out n cap,
    s = start {| ipMap := loadIPs files "ips.txt"; counter := 0; fs := files;
                 stdout := out |}
          (readDomains files file).1 n cap
    ∧ 1 <= n ∧ 1 <= cap.
Proof.
  intros Hrange Hmain.
  destruct (main_pool _ _ _ _ Hrange Hmain) as (out & -> & Heff).
  eexists _, _, _. split; [reflexivity | lia].
Qed.

(** The same for the pool that [main] starts: when the final message is
    out, the lookups made are the domains read from the file. *)
Lemma main_completeness (files : gmap string OS.File) (file : string)
    (threadCount : Z) (s0 s : State) (schedule : list Action) :
  GoInt.in_range threadCount →
  main files file threadCount = Started s0 →
  run schedule s0 = Some s →
  feeder s = Finished →
  attempts s ≡ₚ (readDomains files file).1.
Proof.
  intros Hrange Hmain Hrun Hfin.
  destruct (main_started _ _ _ _ Hrange Hmain) as (out & n & cap & -> & Hn & Hcap).
  eapply finished_attempts; [|exact Hn | exact Hfin].
  eapply Flow_run; [|exact Hrun]. apply Flow_start. exact Hcap.
Qed.

(** C3. Run the program from [main]: the counter starts at zero and, in
    every state of the pool and so when all workers are gone, it is the
    number of addresses in the set that were not loaded from the log, which
    is the number of critical sections that found their address new.  A
    lookup, failed or not, never moves it, and neither does a critical
    section for an address that is in the set. *)
Theorem progress_counter
    (files : gmap string OS.File) (file : string) (threadCount : Z)
    (s0 s : State) (schedule : list Action) :
  GoInt.in_range threadCount →
  (Z.of_nat (length (readDomains files file).1) <= GoInt.max_int)%Z →
  main files file threadCount = Started s0 →
  run schedule s0 = Some s →
  counter (world s0) = 0%Z
  ∧ ipMap (world s0) = loadIPs files "ips.txt"
  ∧ loadIPs files "ips.txt" ⊆ ipMap (world s)
  ∧ counter (world s) = Z.of_nat (size (ipMap (world s) ∖ loadIPs files "ips.txt"))
  ∧ counter (world s) = Z.of_nat (news (history s))
  ∧ (∀ i resolver s', exec (Resolve i resolver) s = Some s' → world s' = world s)
  ∧ (∀ i ip fate s', workers s !! i = Some (Critical ip) → ip ∈ ipMap (world s) →
       exec (Body i fate) s = Some s' → world s' = world s).
Proof.
  intros Hrange Hlen Hmain Hrun.
  destruct (main_started _ _ _ _ Hrange Hmain) as (out & n & cap & -> & Hn & Hcap).
  set (w0 := {| ipMap := loadIPs files "ips.txt"; counter := 0; fs := files;
                stdout := out |}) in *.
  assert (Hflow0 : Flow (readDomains files file).1 n (start w0 (readDomains files file).1 n cap)).
  { apply Flow_start. lia. }
  assert (Hcount0 : Count (ipMap w0) (start w0 (readDomains files file).1 n cap)).
  { by apply Count_start. }
  destruct (Count_run _ _ _ _ _ _ Hlen Hflow0 Hcount0 Hrun) as [C1 C2 C3 C4].
  cbn [ipMap w0] in C1, C2, C3.
  split; [reflexivity|]. split; [reflexivity|].
  split; [exact C1|]. split; [exact C2|]. split; [by rewrite C2, C3|].
  split.
  - intros i resolver s' Hexec. by destruct (resolve_world _ _ _ _ Hexec).
  - intros i ip fate s' Hi Hin Hexec. cbn [exec] in Hexec. rewrite Hi in Hexec.
    rewrite (checkAndWrite_present _ _ _ Hin) in Hexec. by injection Hexec as <-.
Qed.

(** ** Scenarios *)

Example end_to_end_scenario :
  outcome (main scenario_files "domains.txt" 2) scenario_schedule
  = Some (Finished, ["a.test"; "b.test"; "a.test"],
          [("10.0.0.1", true); ("10.0.0.1", false)], 1%Z,
          OS.Ok ("10.0.0.1" +:+ nl),
          ["Enter domain list file: ";
           "Thread count (100–500 recommended): "; doneMessage]).
Proof. vm_compute. reflexivity. Qed.

Example seeded_set_scenario :
  outcome (main seeded_files "domains.txt" 1) seeded_schedule
  = Some (Finished, ["a.test"], [("10.0.0.1", false)], 0%Z,
          OS.Ok ("10.0.0.1" +:+ nl),
          ["Enter domain list file: ";
           "Thread count (100–500 recommended): "; doneMessage]).
Proof. vm_compute. reflexivity. Qed.

Lemma progress_counter_witness :
  ∃ s0 s,
    main scenario_files "domains.txt" 2 = Started s0
    ∧ run scenario_schedule s0 = Some s
    ∧ counter (world s)
      = Z.of_nat (size (ipMap (world s) ∖ loadIPs scenario_files "ips.txt"))
    ∧ counter (world s) = Z.of_nat (news (history s)).
Proof.
  assert (Hmain : ∃ s0, main scenario_files "domains.txt" 2 = Started s0)
    by (eexists; reflexivity).
  destruct Hmain as [s0 Hmain]. exists s0.
  assert (Hrun : ∃ s, run scenario_schedule s0 = Some s).
  { pose proof Hmain as E. vm_compute in E. injection E as <-.
    eexists. vm_compute. reflexivity. }
  destruct Hrun as [s Hrun]. exists s.
  destruct (progress_counter scenario_files "domains.txt" 2 s0 s scenario_schedule
              (in_range_small 2 ltac:(lia))
              ltac:(vm_compute; discriminate) Hmain Hrun)
    as (_ & _ & _ & H1 & H2 & _).
  auto.
Defined.

(** ** The world after a critical section *)

Lemma append_empty_r (s : string) : s +:+ "" = s.
Proof.
  induction s as [|c s IH]; [reflexivity|].
  change (String c s +:+ "") with (String c (s +:+ "")). by rewrite IH.
Qed.

Lemma exec_ipMap (a : Action) (s s' : State) :
  exec a s = Some s' → ipMap (world s) ⊆ ipMap (world s').
Proof.
  intros Hexec. exec_cases Hexec; try done.
  match goal with
  | Hcw : checkAndWrite ?ip ?fate ?w = _ |- _ =>
      pose proof (checkAndWrite_ipMap ip fate w) as Hmap; rewrite Hcw in Hmap
  end.
  cbn [fst] in Hmap. rewrite Hmap. set_solver.
Qed.

Lemma run_ipMap (schedule : list Action) (s s' : State) :
  run schedule s = Some s' → ipMap (world s) ⊆ ipMap (world s').
Proof.
  revert s. induction schedule as [|a schedule IH]; intros s Hrun.
  - by injection Hrun as <-.
  - cbn [run] in Hrun. destruct (exec a s) as [s1|] eqn:Hexec; [|discriminate].
    pose proof (exec_ipMap _ _ _ Hexec). specialize (IH _ Hrun). set_solver.
Qed.

Lemma log_updateProgress (w : World) : log (updateProgress w) = log w.
Proof.
  unfold log. by destruct (updateProgress_fields w) as (_ & -> & _).
Qed.

(** The log after a critical section for a new address. *)
Lemma checkAndWrite_log (ip : string) (fate : OS.AppendFate) (w : World) :
  ip ∉ ipMap w →
  log (checkAndWrite ip fate w).1 = log w +:+ OS.persisted fate (ip +:+ nl).
Proof.
  intros Hnew. rewrite (checkAndWrite_new _ _ _ Hnew). cbn [fst].
  rewrite log_updateProgress.
  destruct fate as [err | k |].
  - rewrite appendIP_open_fails. cbn [OS.persisted]. by rewrite append_empty_r.
  - by destruct (appendIP_opened ip (OS.WriteFails k)
                   (set_ipMap ({[ip]} ∪ ipMap w) w)) as [-> _].
  - by destruct (appendIP_opened ip OS.Written
                   (set_ipMap ({[ip]} ∪ ipMap w) w)) as [-> _].
Qed.

(** The output after a critical section for a new address: on top of what
    was there, the error of the open when there is one, then the progress
    message when it is due. *)
Lemma checkAndWrite_stdout (ip : string) (fate : OS.AppendFate) (w : World) :
  ip ∉ ipMap w →
  ∃ progress,
    stdout (checkAndWrite ip fate w).1
    = stdout w
      ++ match fate with
         | OS.OpenFails err => ["Write error: " +:+ err +:+ nl]
         | _ => []
         end
      ++ progress
    ∧ stdout (checkAndWrite ip OS.Written w).1 = stdout w ++ progress
    ∧ (progress = []
       ∨ GoInt.rem (GoInt.add (counter w) 1) 500 = 0%Z
         ∧ progress = ["Resolved " +:+ pretty (GoInt.add (counter w) 1)
                       +:+ " IPs so far..." +:+ nl]).
Proof.
  intros Hnew. rewrite !(checkAndWrite_new _ _ _ Hnew). cbn [fst].
  set (w1 := set_ipMap ({[ip]} ∪ ipMap w) w).
  assert (Hout : stdout (appendIP ip fate w1)
                 = stdout w ++ match fate with
                               | OS.OpenFails err => ["Write error: " +:+ err +:+ nl]
                               | _ => []
                               end
                 ∧ counter (appendIP ip fate w1) = counter w).
  { destruct fate as [err | k |].
    - by rewrite appendIP_open_fails.
    - destruct (appendIP_opened ip (OS.WriteFails k) w1) as (_ & _ & -> & ->);
        [discriminate|]. by rewrite app_nil_r.
    - destruct (appendIP_opened ip OS.Written w1) as (_ & _ & -> & ->);
        [discriminate|]. by rewrite app_nil_r. }
  destruct Hout as [Hout Hctr].
  destruct (appendIP_opened ip OS.Written w1) as (_ & _ & Hctr' & Hout');
    [discriminate|].
  destruct (updateProgress_fields (appendIP ip fate w1)) as (_ & _ & _ & Hp).
  destruct (updateProgress_fields (appendIP ip OS.Written w1)) as (_ & _ & _ & Hp').
  rewrite Hout, Hctr in Hp. rewrite Hout', Hctr' in Hp'.
  change (stdout w1) with (stdout w) in Hp'. change (counter w1) with (counter w) in *.
  destruct Hp as [Hp | [Hz Hp]].
  - exists []. rewrite !app_nil_r. split; [exact Hp|]. split; [|by left].
    destruct Hp' as [Hp' | [Hz' Hp']]; [exact Hp'|].
    exfalso. unfold updateProgress in Hp. cbn [counter set_counter] in Hp.
    rewrite Hctr in Hp. rewrite (proj2 (Z.eqb_eq _ _) Hz') in Hp.
    cbn [print stdout set_counter] in Hp. rewrite Hout in Hp.
    apply (f_equal length) in Hp. rewrite !length_app in Hp. cbn in Hp. lia.
  - eexists. rewrite <- (assoc (++)) in Hp. split; [exact Hp|]. split; [|by right].
    destruct Hp' as [Hp' | [_ Hp']]; [|exact Hp'].
    exfalso. unfold updateProgress in Hp'. cbn [counter set_counter] in Hp'.
    rewrite Hctr' in Hp'. change (counter w1) with (counter w) in Hp'.
    rewrite (proj2 (Z.eqb_eq _ _) Hz) in Hp'.
    cbn [print stdout set_counter] in Hp'. rewrite Hout' in Hp'.
    change (stdout w1) with (stdout w) in Hp'.
    apply (f_equal length) in Hp'. rewrite !length_app in Hp'. cbn in Hp'. lia.
Qed.

(** ** The pool: the log *)

Lemma append_assoc (a b c : string) : (a +:+ b) +:+ c = a +:+ (b +:+ c).
Proof.
  induction a as [|x a IH]; [reflexivity|].
  change (String x ((a +:+ b) +:+ c) = String x (a +:+ (b +:+ c))). by rewrite IH.
Qed.

Lemma lines_text_app (l1 l2 : list string) :
  lines_text (l1 ++ l2) = lines_text l1 +:+ lines_text l2.
Proof.
  induction l1 as [|ip l1 IH]; [reflexivity|].
  cbn [app lines_text fold_right]. fold (lines_text (l1 ++ l2)). fold (lines_text l1).
  by rewrite IH, !append_assoc.
Qed.

Lemma exec_log (a : Action) (s s' : State) :
  match a with Body _ fate => fate = OS.Written | _ => True end →
  exec a s = Some s' →
  ∃ added,
    inserted (history s') = inserted (history s) ++ added
    ∧ log (world s') = log (world s) +:+ lines_text added.
Proof.
  intros Hfate Hexec.
  exec_cases Hexec;
    try (exists []; by rewrite app_nil_r, append_empty_r).
  match goal with
  | Hcw : checkAndWrite ?ip _ ?w = _ |- _ =>
      pose proof (checkAndWrite_log ip OS.Written w) as Hlog;
      destruct (checkAndWrite_cases _ _ _ _ _ Hcw)
        as [(-> & Hin & ->) | (-> & Hnew & Hmap)];
      rewrite inserted_snoc
  end.
  - exists []. by rewrite append_empty_r.
  - eexists. split; [reflexivity|].
    match goal with Hcw : checkAndWrite _ _ _ = _ |- _ => rewrite Hcw in Hlog end.
    cbn [fst OS.persisted lines_text fold_right] in *.
    rewrite (Hlog Hnew). by rewrite append_empty_r.
Qed.

(** With appends that are all carried out, the log of the pool is the log
    it started with followed by one line for each critical section that
    took the branch, in the order of the lock.  With [pool_inserts_once]:
    every address that the run added to the set is on exactly one of the
    lines that the run added to the log. *)
Lemma pool_log (w : World) (domains : list string) (n cap : nat)
    (schedule : list Action) (s : State) :
  all_written schedule →
  run schedule (start w domains n cap) = Some s →
  log (world s) = log w +:+ lines_text (inserted (history s)).
Proof.
  intros Hall Hrun.
  assert (Hgen : ∀ s0, run schedule s0 = Some s →
            ∃ added, inserted (history s) = inserted (history s0) ++ added
                     ∧ log (world s) = log (world s0) +:+ lines_text added).
  { clear Hrun. induction Hall as [|a schedule Ha Hall IH]; intros s0 Hrun.
    - injection Hrun as <-. exists []. by rewrite app_nil_r, append_empty_r.
    - cbn [run] in Hrun. destruct (exec a s0) as [s1|] eqn:Hexec; [|discriminate].
      destruct (exec_log _ _ _ Ha Hexec) as (added1 & Hi1 & Hl1).
      destruct (IH s1 Hrun) as (added2 & Hi2 & Hl2).
      exists (added1 ++ added2).
      rewrite Hi2, Hi1, Hl2, Hl1, lines_text_app, append_assoc.
      by rewrite (assoc (++)). }
  destruct (Hgen _ Hrun) as (added & Hi & Hl).
  cbn [start history world] in Hi, Hl. unfold inserted at 2 in Hi. cbn in Hi.
  by rewrite Hi.
Qed.

(** ** Appends that fail *)

(** The line of the address does not reach the log when the append
    fails. *)
Lemma failed_append_log (ip : string) (fate : OS.AppendFate) (w : World) :
  ip ∉ ipMap w → fate ≠ OS.Written →
  log (checkAndWrite ip fate w).1 ≠ log w +:+ ip +:+ nl.
Proof.
  intros Hnew Hfate. rewrite (checkAndWrite_log _ _ _ Hnew).
  by apply persisted_incomplete.
Qed.

(** The progress message is printed whenever the new count is a multiple
    of 500, whatever became of the append. *)
Lemma progress_message_printed (ip : string) (fate : OS.AppendFate) (w : World) :
  ip ∉ ipMap w →
  GoInt.rem (GoInt.add (counter w) 1) 500 = 0%Z →
  ("Resolved " +:+ pretty (GoInt.add (counter w) 1) +:+ " IPs so far..." +:+ nl)
  ∈ stdout (checkAndWrite ip fate w).1.
Proof.
  intros Hnew Hz.
  destruct (checkAndWrite_stdout ip fate w Hnew) as (progress & Hout & Hok & Hp).
  rewrite Hout, !elem_of_app. right. right.
  destruct Hp as [Hnil | [_ ->]]; [|by left].
  exfalso. subst progress. rewrite app_nil_r in Hok.
  rewrite (checkAndWrite_new _ _ _ Hnew) in Hok. cbn [fst] in Hok.
  set (w1 := set_ipMap ({[ip]} ∪ ipMap w) w) in Hok.
  destruct (appendIP_opened ip OS.Written w1) as (_ & _ & Hctr & Hout');
    [discriminate|].
  unfold updateProgress in Hok. cbn [counter set_counter] in Hok.
  rewrite Hctr in Hok. change (counter w1) with (counter w) in Hok.
  rewrite (proj2 (Z.eqb_eq _ _) Hz) in Hok.
  cbn [print stdout set_counter] in Hok. rewrite Hout' in Hok.
  change (stdout w1) with (stdout w) in Hok.
  apply (f_equal length) in Hok. rewrite !length_app in Hok. cbn in Hok. lia.
Qed.

(** When the open fails the error is printed and the files stay as they
    are. *)
Lemma open_failure_world (ip err : string) (w : World) :
  ip ∉ ipMap w →
  fs (checkAndWrite ip (OS.OpenFails err) w).1 = fs w
  ∧ ("Write error: " +:+ err +:+ nl)
    ∈ stdout (checkAndWrite ip (OS.OpenFails err) w).1.
Proof.
  intros Hnew. rewrite (checkAndWrite_new _ _ _ Hnew). cbn [fst].
  rewrite appendIP_open_fails.
  destruct (updateProgress_fields
              (print ("Write error: " +:+ err +:+ nl)
                 (set_ipMap ({[ip]} ∪ ipMap w) w)))
    as (_ & -> & _ & Hout).
  split; [reflexivity|].
  destruct Hout as [-> | [_ ->]]; cbn [print stdout set_ipMap];
    rewrite !elem_of_app, !list_elem_of_singleton; auto.
Qed.

(** C9. A critical section for a new address whose append fails, at the
    open or at the write, still leaves the address in the set and still
    advances the counter by one, and prints the progress message when the
    new count is a multiple of 500; the line of the address is not added to
    the log.  So the counter counts the additions to the set, not the
    lines written. *)
Theorem counter_counts_insertions_not_writes
    (ip : string) (fate : OS.AppendFate) (w : World) :
  ip ∉ ipMap w →
  fate ≠ OS.Written →
  ip ∈ ipMap (checkAndWrite ip fate w).1
  ∧ counter (checkAndWrite ip fate w).1 = GoInt.add (counter w) 1
  ∧ (GoInt.rem (GoInt.add (counter w) 1) 500 = 0%Z →
     ("Resolved " +:+ pretty (GoInt.add (counter w) 1) +:+ " IPs so far..." +:+ nl)
     ∈ stdout (checkAndWrite ip fate w).1)
  ∧ log (checkAndWrite ip fate w).1 ≠ log w +:+ ip +:+ nl.
Proof.
  intros Hnew Hfate.
  split; [rewrite checkAndWrite_ipMap; set_solver|].
  split; [by apply checkAndWrite_counter|].
  split; [by apply progress_message_printed | by apply failed_append_log].
Qed.

Lemma counter_counts_insertions_not_writes_witness :
  counter (checkAndWrite "10.0.0.1" (OS.OpenFails "disk gone") empty_world).1 = 1%Z
  ∧ log (checkAndWrite "10.0.0.1" (OS.OpenFails "disk gone") empty_world).1
    ≠ "10.0.0.1" +:+ nl.
Proof.
  destruct (counter_counts_insertions_not_writes "10.0.0.1" (OS.OpenFails "disk gone")
              empty_world (not_elem_of_empty _) ltac:(discriminate))
    as (_ & H1 & _ & H2).
  split; [exact H1 | exact H2].
Defined.

(** C6, as the code has it.  Let the append of a critical section for a new
    address fail.  The worker goes on to unlock and the feeder is not
    touched; the address is in the set; the log has not received the line.
    When the open failed the error is printed and the files are as before.
    When the write failed nothing about it is printed -- the output is what
    a successful write would have left.  And in whatever state the pool is
    later, a critical section for this address changes nothing: the append
    is not tried again. *)
Theorem failed_append
    (s : State) (i : nat) (ip : string) (fate : OS.AppendFate) :
  workers s !! i = Some (Critical ip) →
  ip ∉ ipMap (world s) →
  fate ≠ OS.Written →
  ∃ s',
    exec (Body i fate) s = Some s'
    ∧ workers s' = <[i := Unlocking]> (workers s)
    ∧ feeder s' = feeder s
    ∧ ip ∈ ipMap (world s')
    ∧ log (world s') ≠ log (world s) +:+ ip +:+ nl
    ∧ (∀ err, fate = OS.OpenFails err →
         fs (world s') = fs (world s)
         ∧ ("Write error: " +:+ err +:+ nl) ∈ stdout (world s'))
    ∧ (∀ k, fate = OS.WriteFails k →
         stdout (world s') = stdout (checkAndWrite ip OS.Written (world s)).1)
    ∧ (∀ schedule s'' j fate',
         run schedule s' = Some s'' → workers s'' !! j = Some (Critical ip) →
         ∃ s3, exec (Body j fate') s'' = Some s3 ∧ world s3 = world s'').
Proof.
  intros Hi Hnew Hfate.
  pose proof (failed_append_log ip fate (world s) Hnew Hfate) as Hlog.
  assert (Hin : ip ∈ ipMap (checkAndWrite ip fate (world s)).1).
  { rewrite checkAndWrite_ipMap. set_solver. }
  destruct (checkAndWrite ip fate (world s)) as [w new] eqn:Hcw.
  cbn [fst] in Hin, Hlog.
  eexists. split; [cbn [exec]; rewrite Hi, Hcw; reflexivity|].
  cbn [workers feeder world].
  split; [reflexivity|]. split; [reflexivity|]. split; [exact Hin|].
  split; [exact Hlog|].
  split; [|split].
  - intros err ->.
    pose proof (open_failure_world ip err (world s) Hnew) as Hopen.
    by rewrite Hcw in Hopen.
  - intros k ->.
    destruct (checkAndWrite_stdout ip (OS.WriteFails k) (world s) Hnew)
      as (progress & Hout & Hok & _).
    rewrite Hcw in Hout. cbn [fst] in Hout. rewrite Hout, Hok. reflexivity.
  - intros schedule s'' j fate' Hrun Hj.
    pose proof (run_ipMap _ _ _ Hrun) as Hmono. cbn [world] in Hmono.
    eexists. cbn [exec]. rewrite Hj.
    rewrite (checkAndWrite_present ip fate' (world s'')) by set_solver.
    split; reflexivity.
Qed.

Lemma failed_append_witness :
  ∃ s', exec (Body 0 (OS.OpenFails "disk gone")) critical_state = Some s'
        ∧ workers s' = [Unlocking]
        ∧ "10.0.0.1" ∈ ipMap (world s').
Proof.
  destruct (failed_append critical_state 0 "10.0.0.1" (OS.OpenFails "disk gone")
              eq_refl (not_elem_of_empty _) ltac:(discriminate))
    as (s' & H1 & H2 & _ & H3 & _).
  exists s'. split; [exact H1|]. split; [exact H2 | exact H3].
Defined.

(** C6, as stated, fails: this write fails with nothing written, the
    address is in the set and not in the log, and nothing is printed. *)
Lemma write_failure_is_silent :
  let w := (checkAndWrite "10.0.0.1" (OS.WriteFails 0) empty_world).1 in
  stdout w = [] ∧ log w = "" ∧ ipMap w = {[ "10.0.0.1" ]} ∧ counter w = 1%Z.
Proof. vm_compute. repeat split; reflexivity. Qed.

(** ** Start-up errors *)

(** C7, as the code has it.  When the domains cannot be read, [main] prints
    that error once and returns before any worker exists, and that is the
    only way for it to return early.  A log that cannot be opened for
    reading is not an error: the pool starts with the empty set.  A log that
    cannot be opened for appending is reported in every critical section
    that has a new address, and the worker and the feeder go on. *)
Theorem configuration_errors
    (files : gmap string OS.File) (file : string) (threadCount : Z) :
  (∀ err, (readDomains files file).2 = Some err →
     main files file threadCount
     = Aborted ["Enter domain list file: "; "Error reading file: " +:+ err +:+ nl])
  ∧ (∀ out, main files file threadCount = Aborted out →
       (readDomains files file).2 ≠ None)
  ∧ (∀ s err, main files file threadCount = Started s →
       OS.Open files "ips.txt" = OS.Err err →
       ipMap (world s) = ∅ ∧ pending (feeder s) = (readDomains files file).1)
  ∧ (∀ s i ip err, workers s !! i = Some (Critical ip) → ip ∉ ipMap (world s) →
       ∃ s', exec (Body i (OS.OpenFails err)) s = Some s'
             ∧ feeder s' = feeder s
             ∧ workers s' = <[i := Unlocking]> (workers s)
             ∧ ("Write error: " +:+ err +:+ nl) ∈ stdout (world s')).
Proof.
  split; [|split; [|split]].
  - intros err Herr. unfold main.
    destruct (readDomains files file) as [domains [e|]]; [|discriminate].
    cbn [snd] in Herr. by injection Herr as ->.
  - intros out Hmain. unfold main in Hmain.
    destruct (readDomains files file) as [domains [e|]]; [discriminate|].
    destruct (make_chan _); discriminate.
  - intros s err Hmain Hopen. unfold main in Hmain.
    destruct (readDomains files file) as [domains [e|]]; [discriminate|].
    destruct (make_chan _); [|discriminate]. injection Hmain as <-.
    cbn [start world ipMap feeder pending fst]. split; [|reflexivity].
    unfold loadIPs. by rewrite Hopen.
  - intros s i ip err Hi Hnew.
    destruct (open_failure_world ip err (world s) Hnew) as [_ Hout].
    destruct (checkAndWrite ip (OS.OpenFails err) (world s)) as [w new] eqn:Hcw.
    eexists. split; [cbn [exec]; rewrite Hi, Hcw; reflexivity|].
    cbn [feeder workers world]. auto.
Qed.

Lemma configuration_errors_witness :
  main ∅ "missing.txt" 4
  = Aborted ["Enter domain list file: ";
             "Error reading file: open missing.txt: no such file or directory" +:+ nl].
Proof.
  exact (proj1 (configuration_errors ∅ "missing.txt" 4)
           "open missing.txt: no such file or directory" eq_refl).
Defined.

(** C7, as stated, fails: the log can be opened neither for reading nor for
    appending, and yet the pool starts, looks up every domain, reports the
    write error once per new address and ends with the final message. *)
Lemma unopenable_log_is_not_fatal :
  OS.Open locked_files "ips.txt" = OS.Err "open ips.txt: permission denied"
  ∧ outcome (main locked_files "domains.txt" 1) locked_schedule
    = Some (Finished, ["a.test"; "b.test"],
            [("10.0.0.1", true); ("10.0.0.2", true)], 2%Z,
            OS.Err "open ips.txt: permission denied",
            ["Enter domain list file: ";
             "Thread count (100–500 recommended): ";
             "Write error: open ips.txt: permission denied" +:+ nl;
             "Write error: open ips.txt: permission denied" +:+ nl;
             doneMessage]).
Proof. split; vm_compute; reflexivity. Qed.

(** * Further properties of the pool *)

Local Close Scope Z_scope.

Lemma demo_run : run demo_schedule demo_start = Some demo_state.
Proof. vm_compute. reflexivity. Qed.

Lemma demo_run_rest : run demo_rest demo_state = Some demo_end.
Proof. vm_compute. reflexivity. Qed.

Lemma run_snoc (schedule : list Action) (a : Action) (s s1 s2 : State) :
  run schedule s = Some s1 → exec a s1 = Some s2 → run (schedule ++ [a]) s = Some s2.
Proof.
  intros Hrun Hexec. rewrite (run_app _ [a] _ _ Hrun). cbn [run]. by rewrite Hexec.
Qed.

(** An invariant of the actions holds after every run. *)
Lemma run_invariant (P : State → Prop) (schedule : list Action) (s s' : State) :
  (∀ a s1 s2, P s1 → exec a s1 = Some s2 → P s2) →
  P s → run schedule s = Some s' → P s'.
Proof.
  intros Hstep. revert s. induction schedule as [|a schedule IH]; intros s HP Hrun.
  - by injection Hrun as <-.
  - cbn [run] in Hrun. destruct (exec a s) as [s1|] eqn:Hexec; [|discriminate].
    exact (IH s1 (Hstep _ _ _ HP Hexec) Hrun).
Qed.

(** X1. In every state of the pool no two workers are between [Lock] and
    [Unlock] at the same time, and the lock is taken exactly when some
    worker is there. *)
Theorem lock_excludes
    (w : World) (domains : list string) (n cap : nat) (schedule : list Action)
    (s : State) :
  0 < cap →
  run schedule (start w domains n cap) = Some s →
  (∀ i j g g', i ≠ j → workers s !! i = Some g → workers s !! j = Some g' →
     holding g + holding g' <= 1)
  ∧ (ipMapLock s = true ↔ ∃ i g, workers s !! i = Some g ∧ holding g = 1).
Proof.
  intros Hcap Hrun.
  pose proof (Flow_run _ _ _ _ _ (Flow_start w domains n cap Hcap) Hrun) as Hflow.
  split.
  - intros i j g g' Hne Hi Hj. exact (mutual_exclusion _ _ _ _ _ _ _ Hflow Hne Hi Hj).
  - pose proof (flow_lock _ _ _ Hflow) as Hlock. split.
    + intros Htaken. rewrite Htaken in Hlock.
      destruct (total_exists holding (workers s)) as (i & g & Hi & Hg); [lia|].
      exists i, g. split; [exact Hi|]. destruct g; cbn [holding] in *; lia.
    + intros (i & g & Hi & Hg). pose proof (total_lookup holding _ _ _ Hi).
      destruct (ipMapLock s); [reflexivity | lia].
Qed.

Lemma lock_excludes_witness :
  ipMapLock demo_state = true
  ↔ ∃ i g, workers demo_state !! i = Some g ∧ holding g = 1.
Proof.
  exact (proj2 (lock_excludes empty_world ["a.test"; "b.test"; "c.test"] 2 2
                  demo_schedule demo_state ltac:(lia) demo_run)).
Defined.

Lemma history_in_set_exec (a : Action) (s s' : State) :
  (∀ ip new, (ip, new) ∈ history s → ip ∈ ipMap (world s)) →
  exec a s = Some s' →
  ∀ ip new, (ip, new) ∈ history s' → ip ∈ ipMap (world s').
Proof.
  intros Hinv Hexec ip new Hin.
  pose proof (exec_ipMap _ _ _ Hexec) as Hmono.
  exec_cases Hexec; try (apply Hmono, (Hinv _ _ Hin)).
  apply elem_of_app in Hin as [Hin | Hin]; [apply Hmono, (Hinv _ _ Hin)|].
  apply list_elem_of_singleton in Hin. injection Hin as -> ->.
  match goal with
  | Hcw : checkAndWrite ?ip ?fate ?w = _ |- _ =>
      pose proof (checkAndWrite_ipMap ip fate w) as Hmap; rewrite Hcw in Hmap
  end.
  cbn [fst] in Hmap. rewrite Hmap. set_solver.
Qed.

(** X2. In every state of the pool the set holds exactly the addresses it
    started with and the addresses of the critical sections that took the
    branch; no address took the branch twice, none of them was in the set at
    the start, and every address that went through a critical section is in
    the set. *)
Theorem set_is_loaded_plus_inserted
    (w : World) (domains : list string) (n cap : nat) (schedule : list Action)
    (s : State) :
  run schedule (start w domains n cap) = Some s →
  NoDup (inserted (history s))
  ∧ (∀ ip, ip ∈ ipMap (world s) ↔ ip ∈ ipMap w ∨ ip ∈ inserted (history s))
  ∧ (∀ ip, ip ∈ inserted (history s) → ip ∉ ipMap w)
  ∧ (∀ ip new, (ip, new) ∈ history s → ip ∈ ipMap (world s)).
Proof.
  intros Hrun.
  destruct (pool_inserts_once _ _ _ _ _ _ Hrun) as [Hnodup Hset].
  split; [exact Hnodup|]. split; [exact Hset|]. split.
  - revert Hrun.
    apply (run_invariant
             (fun s => ipMap w ⊆ ipMap (world s)
                       ∧ ∀ ip, ip ∈ inserted (history s) → ip ∉ ipMap w)).
    + intros a s1 s2 [Hsub Hnot] Hexec.
      pose proof (exec_ipMap _ _ _ Hexec) as Hmono.
      split; [set_solver|].
      exec_cases Hexec; try exact Hnot.
      intros x. rewrite inserted_snoc, elem_of_app.
      intros [Hin | Hin]; [by apply Hnot|].
      match goal with
      | Hcw : checkAndWrite _ _ _ = _ |- _ =>
          destruct (checkAndWrite_cases _ _ _ _ _ Hcw)
            as [(-> & _ & _) | (-> & Hnew & _)]
      end.
      * by apply elem_of_nil in Hin.
      * apply list_elem_of_singleton in Hin as ->. set_solver.
    + split; [done|]. cbn. intros ip Hin. by apply elem_of_nil in Hin.
  - revert Hrun. apply (run_invariant (fun s => ∀ ip new, (ip, new) ∈ history s →
                                                  ip ∈ ipMap (world s))).
    + intros a s1 s2 Hinv Hexec. exact (history_in_set_exec _ _ _ Hinv Hexec).
    + cbn. intros ip new Hin. by apply elem_of_nil in Hin.
Qed.

Lemma set_is_loaded_plus_inserted_witness :
  NoDup (inserted (history demo_end))
  ∧ ∀ ip, ip ∈ ipMap (world demo_end)
          ↔ ip ∈ ipMap empty_world ∨ ip ∈ inserted (history demo_end).
Proof.
  destruct (set_is_loaded_plus_inserted empty_world ["a.test"; "b.test"; "c.test"] 2 2
              (demo_schedule ++ demo_rest) demo_end) as (H1 & H2 & _).
  - rewrite (run_app _ _ _ _ demo_run). exact demo_run_rest.
  - split; [exact H1 | exact H2].
Defined.

(** X3. When the operating system carries out every append, the log of the
    pool is at every moment the log it started with followed by one line
    for each critical section that took the branch, in the order in which
    the lock was taken, and no address has two of these lines. *)
Theorem log_is_start_plus_lines
    (w : World) (domains : list string) (n cap : nat) (schedule : list Action)
    (s : State) :
  all_written schedule →
  run schedule (start w domains n cap) = Some s →
  log (world s) = log w +:+ lines_text (inserted (history s))
  ∧ NoDup (inserted (history s)).
Proof.
  intros Hall Hrun. split; [exact (pool_log _ _ _ _ _ _ Hall Hrun)|].
  exact (proj1 (pool_inserts_once _ _ _ _ _ _ Hrun)).
Qed.

Lemma log_is_start_plus_lines_witness :
  log (world demo_end) = "10.0.0.1" +:+ nl +:+ "10.0.0.2" +:+ nl.
Proof.
  destruct (log_is_start_plus_lines empty_world ["a.test"; "b.test"; "c.test"] 2 2
              (demo_schedule ++ demo_rest) demo_end) as [H _].
  - unfold all_written, demo_schedule, demo_rest. cbn [app].
    repeat (constructor; [exact I || reflexivity|]). constructor.
  - rewrite (run_app _ _ _ _ demo_run). exact demo_run_rest.
  - rewrite H. reflexivity.
Defined.

Lemma channel_exec (domains : list string) (a : Action) (s s' : State) :
  (∃ taken, domains = taken ++ domainChan s ++ pending (feeder s)
            ∧ taken ≡ₚ held (workers s) ++ attempts s) →
  exec a s = Some s' →
  ∃ taken, domains = taken ++ domainChan s' ++ pending (feeder s')
           ∧ taken ≡ₚ held (workers s') ++ attempts s'.
Proof.
  intros (taken & Hdom & Hperm) Hexec. revert Hdom Hperm.
  exec_cases Hexec; intros Hdom Hperm; try with_held.
  all: first
    [ exists taken; split;
      [ exact Hdom
      | first [ exact Hperm
              | by rewrite Hperm, Hh
              | rewrite Hperm, <- Hh; solve_Permutation ] ]
    | exists taken; split;
      [ rewrite Hdom; by rewrite <- ?(assoc (++)) | exact Hperm ]
    | eexists (taken ++ [_]); split;
      [ rewrite Hdom; by rewrite <- !(assoc (++))
      | rewrite Hperm, Hh; solve_Permutation ] ].
Qed.

(** X7. The channel keeps the order of the input: in every state of the
    pool the list of domains is what the workers have received so far,
    followed by the content of the channel, followed by what the feeder has
    still to send; and what the workers have received is what they hold or
    have looked up. *)
Theorem channel_keeps_order
    (w : World) (domains : list string) (n cap : nat) (schedule : list Action)
    (s : State) :
  run schedule (start w domains n cap) = Some s →
  ∃ taken,
    domains = taken ++ domainChan s ++ pending (feeder s)
    ∧ taken ≡ₚ held (workers s) ++ attempts s.
Proof.
  apply (run_invariant
           (fun s => ∃ taken, domains = taken ++ domainChan s ++ pending (feeder s)
                              ∧ taken ≡ₚ held (workers s) ++ attempts s)).
  - intros a s1 s2. apply channel_exec.
  - exists []. cbn [start domainChan feeder pending workers attempts].
    split; [reflexivity|]. by rewrite held_replicate.
Qed.

Lemma channel_keeps_order_witness :
  ∃ taken,
    ["a.test"; "b.test"; "c.test"]
    = taken ++ domainChan demo_state ++ pending (feeder demo_state)
    ∧ taken ≡ₚ held (workers demo_state) ++ attempts demo_state.
Proof.
  exact (channel_keeps_order empty_world ["a.test"; "b.test"; "c.test"] 2 2
           demo_schedule demo_state demo_run).
Defined.

(** X8. The channel never holds more domains than its capacity, which does
    not change: the feeder waits instead. *)
Theorem channel_is_bounded
    (w : World) (domains : list string) (n cap : nat) (schedule : list Action)
    (s : State) :
  run schedule (start w domains n cap) = Some s →
  capacity s = cap ∧ length (domainChan s) <= cap.
Proof.
  apply (run_invariant
           (fun s => capacity s = cap ∧ length (domainChan s) <= cap)).
  - intros a s1 s2 [Hcap Hlen] Hexec.
    exec_cases Hexec; try (split; [reflexivity | exact Hlen]).
    + split; [reflexivity|]. rewrite length_app. cbn [length].
      match goal with H : (_ <? _) = true |- _ => apply Nat.ltb_lt in H end. lia.
    + split; [reflexivity|]. cbn [length] in Hlen. lia.
  - cbn [start capacity domainChan length]. split; [reflexivity | lia].
Qed.

Lemma channel_is_bounded_witness :
  capacity demo_state = 2 ∧ length (domainChan demo_state) <= 2.
Proof.
  exact (channel_is_bounded empty_world ["a.test"; "b.test"; "c.test"] 2 2
           demo_schedule demo_state demo_run).
Defined.

(** X9. Along every run of the pool the set only gains addresses and the
    counter never goes down; the counter is never negative and never above
    the number of domains. *)
Theorem counter_and_set_grow
    (w : World) (domains : list string) (n cap : nat)
    (schedule1 schedule2 : list Action) (s1 s2 : State) :
  counter w = 0%Z →
  (Z.of_nat (length domains) <= GoInt.max_int)%Z →
  0 < cap →
  run schedule1 (start w domains n cap) = Some s1 →
  run schedule2 s1 = Some s2 →
  ipMap (world s1) ⊆ ipMap (world s2)
  ∧ (0 <= counter (world s1) <= counter (world s2))%Z
  ∧ (counter (world s2) <= Z.of_nat (length domains))%Z.
Proof.
  intros Hzero Hlen Hcap Hrun1 Hrun2.
  pose proof (Flow_start w domains n cap Hcap) as Hflow0.
  pose proof (Count_start w domains n cap Hzero) as Hcount0.
  pose proof (Flow_run _ _ _ _ _ Hflow0 Hrun1) as Hflow1.
  pose proof (Count_run _ _ _ _ _ _ Hlen Hflow0 Hcount0 Hrun1) as Hcount1.
  pose proof (Flow_run _ _ _ _ _ Hflow1 Hrun2) as Hflow2.
  pose proof (Count_run _ _ _ _ _ _ Hlen Hflow1 Hcount1 Hrun2) as Hcount2.
  pose proof (run_ipMap _ _ _ Hrun2) as Hmono.
  split; [exact Hmono|].
  rewrite (count_counter _ _ Hcount1), (count_counter _ _ Hcount2).
  assert (Hsize : size (ipMap (world s1) ∖ ipMap w)
                  <= size (ipMap (world s2) ∖ ipMap w)).
  { apply subseteq_size. set_solver. }
  pose proof (count_history _ _ Hcount2) as Hh.
  pose proof (news_le (history s2)).
  pose proof (count_carry _ _ Hcount2).
  pose proof (attempts_bound _ _ _ Hflow2).
  lia.
Qed.

Lemma counter_and_set_grow_witness :
  (0 <= counter (world demo_state) <= counter (world demo_end))%Z.
Proof.
  exact (proj1 (proj2 (counter_and_set_grow empty_world
                         ["a.test"; "b.test"; "c.test"] 2 2
                         demo_schedule demo_rest demo_state demo_end
                         eq_refl ltac:(vm_compute; discriminate) ltac:(lia)
                         demo_run demo_run_rest))).
Defined.

(** Nothing moves once the feeder is through and every worker is gone. *)
Lemma finished_no_action (a : Action) (s : State) :
  feeder s = Finished → all_exited (workers s) = true → exec a s = None.
Proof.
  intros Hfin Hall.
  destruct a; cbn [exec]; rewrite ?Hfin; try reflexivity.
  all: destruct (workers s !! i) as [g|] eqn:Hi; [|reflexivity].
  all: rewrite (all_exited_lookup _ _ _ Hall Hi); reflexivity.
Qed.

(** X10. When [main] has printed its final message the pool is at rest:
    every worker has left its loop, the lock is free, the channel is closed
    and empty, the message is the last thing printed, and no goroutine can
    move any more. *)
Theorem finished_is_final
    (w : World) (domains : list string) (n cap : nat) (schedule : list Action)
    (s : State) :
  0 < n → 0 < cap →
  run schedule (start w domains n cap) = Some s →
  feeder s = Finished →
  all_exited (workers s) = true
  ∧ ipMapLock s = false
  ∧ closed s = true ∧ domainChan s = []
  ∧ last (stdout (world s)) = Some doneMessage
  ∧ (∀ a, exec a s = None).
Proof.
  intros Hn Hcap Hrun Hfin.
  pose proof (Flow_run _ _ _ _ _ (Flow_start w domains n cap Hcap) Hrun) as Hflow.
  pose proof (flow_finished _ _ _ Hflow Hfin) as Hall.
  destruct (all_exited_total _ Hall) as [_ Htotal].
  destruct (flow_exited _ _ _ Hflow) as [Hclosed Hchan].
  { rewrite Htotal, (flow_workers _ _ _ Hflow). exact Hn. }
  split; [exact Hall|]. split.
  { pose proof (flow_lock _ _ _ Hflow) as Hlock.
    destruct (ipMapLock s); [|reflexivity].
    destruct (total_exists holding (workers s)) as (i & g & Hi & Hg); [lia|].
    rewrite (all_exited_lookup _ _ _ Hall Hi) in Hg. cbn in Hg. lia. }
  split; [exact Hclosed|]. split; [exact Hchan|]. split.
  - revert Hfin. clear Hall Htotal Hclosed Hchan. revert Hflow. revert Hrun.
    assert (Hgen : ∀ s0, Flow domains n s0 →
              (feeder s0 = Finished → last (stdout (world s0)) = Some doneMessage) →
              run schedule s0 = Some s →
              feeder s = Finished → last (stdout (world s)) = Some doneMessage).
    { induction schedule as [|a schedule IH]; intros s0 Hflow0 Hlast Hrun.
      - by injection Hrun as <-.
      - cbn [run] in Hrun. destruct (exec a s0) as [s1|] eqn:Hexec; [|discriminate].
        apply (IH s1 (Flow_exec _ _ _ _ _ Hflow0 Hexec)); [|exact Hrun].
        intros Hfin1. destruct (feeder s0) eqn:Hf0.
        + exec_cases Hexec; congruence.
        + exec_cases Hexec; try congruence.
          cbn [print stdout]. apply last_snoc.
        + rewrite (finished_no_action a s0 Hf0 (flow_finished _ _ _ Hflow0 Hf0))
            in Hexec. discriminate. }
    intros Hrun Hflow. apply (Hgen _ (Flow_start w domains n cap Hcap)); [|exact Hrun].
    discriminate.
  - intros a. by apply finished_no_action.
Qed.

Lemma finished_is_final_witness :
  ipMapLock demo_end = false ∧ domainChan demo_end = []
  ∧ last (stdout (world demo_end)) = Some doneMessage.
Proof.
  destruct (finished_is_final empty_world ["a.test"; "b.test"; "c.test"] 2 2
              (demo_schedule ++ demo_rest) demo_end ltac:(lia) ltac:(lia))
    as (_ & H1 & _ & H2 & H3 & _).
  - rewrite (run_app _ _ _ _ demo_run). exact demo_run_rest.
  - vm_compute. reflexivity.
  - auto.
Defined.

Lemma appendIP_other_files (ip path : string) (fate : OS.AppendFate) (w : World) :
  path ≠ "ips.txt" → fs (appendIP ip fate w) !! path = fs w !! path.
Proof.
  intros Hpath. unfold appendIP, OS.OpenFile_append, OS.WriteString.
  destruct fate as [err | k |]; [reflexivity | |].
  all: destruct (fs w !! "ips.txt") as [f|] eqn:Hlog;
    rewrite ?lookup_insert_eq, ?Hlog; cbn [fs set_fs];
    by rewrite ?lookup_insert_ne by congruence.
Qed.

Lemma checkAndWrite_files (ip : string) (fate : OS.AppendFate) (w : World) :
  (∀ path, path ≠ "ips.txt" → fs (checkAndWrite ip fate w).1 !! path = fs w !! path)
  ∧ ∃ suffix, log (checkAndWrite ip fate w).1 = log w +:+ suffix.
Proof.
  destruct (decide (ip ∈ ipMap w)) as [Hin | Hnew].
  - rewrite (checkAndWrite_present _ _ _ Hin). cbn [fst].
    split; [reflexivity|]. exists "". by rewrite append_empty_r.
  - split; [|eexists; by apply checkAndWrite_log].
    intros path Hpath. rewrite (checkAndWrite_new _ _ _ Hnew). cbn [fst].
    destruct (updateProgress_fields
                (appendIP ip fate (set_ipMap ({[ip]} ∪ ipMap w) w))) as (_ & -> & _).
    by rewrite appendIP_other_files.
Qed.

(** X15. Whatever the operating system does with the appends, the pool
    writes to no file but [ips.txt], and what it does to that file is to add
    bytes at its end: the content it had at the start stays in front. *)
Theorem only_the_log_is_written
    (schedule : list Action) (s0 s : State) :
  run schedule s0 = Some s →
  (∀ path, path ≠ "ips.txt" → fs (world s) !! path = fs (world s0) !! path)
  ∧ ∃ suffix, log (world s) = log (world s0) +:+ suffix.
Proof.
  apply (run_invariant
           (fun s => (∀ path, path ≠ "ips.txt" →
                        fs (world s) !! path = fs (world s0) !! path)
                     ∧ ∃ suffix, log (world s) = log (world s0) +:+ suffix)).
  - intros a s1 s2 [Hother (suffix & Hlog)] Hexec.
    exec_cases Hexec; try (split; [exact Hother | by exists suffix]).
    match goal with
    | Hcw : checkAndWrite ?ip ?fate ?w = _ |- _ =>
        destruct (checkAndWrite_files ip fate w) as [Ho (suffix' & Hl)];
        rewrite Hcw in Ho, Hl; cbn [fst] in Ho, Hl
    end.
    split.
    + intros path Hpath. by rewrite Ho, Hother.
    + exists (suffix +:+ suffix'). by rewrite Hl, Hlog, append_assoc.
  - split; [reflexivity|]. exists "". by rewrite append_empty_r.
Qed.

Lemma only_the_log_is_written_witness :
  ∃ suffix, log (world demo_end) = log (world demo_state) +:+ suffix.
Proof.
  exact (proj2 (only_the_log_is_written demo_rest demo_state demo_end demo_run_rest)).
Defined.

(** * Further properties: addresses on their way through the log *)

Lemma allb_app (p : ascii → bool) (a b : string) :
  allb p (a +:+ b) = allb p a && allb p b.
Proof.
  induction a as [|c a IH]; [reflexivity|].
  change (allb p (String c (a +:+ b)) = p c && allb p a && allb p b).
  cbn [allb]. by rewrite IH, andb_assoc.
Qed.

Lemma digit_plain (k : N) : (k < 10)%N → plain (Net.digit k) = true.
Proof.
  intros Hk. rewrite <- (N2Nat.id k). assert (Hn : N.to_nat k < 10) by lia.
  destruct (N.to_nat k) as [|n]; [reflexivity|].
  do 9 (destruct n as [|n]; [reflexivity|]). lia.
Qed.

Lemma hexDigit_plain (k : N) : (k < 16)%N → plain (Net.hexDigit k) = true.
Proof.
  intros Hk. rewrite <- (N2Nat.id k). assert (Hn : N.to_nat k < 16) by lia.
  destruct (N.to_nat k) as [|n]; [reflexivity|].
  do 15 (destruct n as [|n]; [reflexivity|]). lia.
Qed.

Lemma ubtoa_plain (n : N) : (n < 256)%N → allb plain (Net.ubtoa n) = true.
Proof.
  intros Hn. unfold Net.ubtoa.
  assert (n / 100 < 10)%N by (apply N.Div0.div_lt_upper_bound; lia).
  assert (n / 10 mod 10 < 10)%N by (apply N.mod_lt; lia).
  assert (n mod 10 < 10)%N by (apply N.mod_lt; lia).
  destruct (N.ltb_spec n 10); [|destruct (N.ltb_spec n 100)]; cbn [allb].
  - rewrite digit_plain by lia. reflexivity.
  - rewrite !digit_plain; [reflexivity | lia |].
    apply N.Div0.div_lt_upper_bound. lia.
  - by rewrite !digit_plain.
Qed.

Lemma land_15 (x : N) : (N.land x 15 < 16)%N.
Proof.
  change 15%N with (N.ones 4). rewrite N.land_ones. apply N.mod_lt. discriminate.
Qed.

Lemma appendHex_plain (v : N) : allb plain (Net.appendHex v) = true.
Proof.
  unfold Net.appendHex. destruct (v =? 0)%N; [reflexivity|].
  cbn [fold_right].
  repeat match goal with
         | |- context [if ?b then _ else _] => destruct b
         end; cbn [allb]; rewrite ?hexDigit_plain by apply land_15; reflexivity.
Qed.

Lemma hexString_plain (bs : list N) :
  Forall (fun b => (b < 256)%N) bs → allb plain (Net.hexString bs) = true.
Proof.
  induction 1 as [|b bs Hb _ IH]; [reflexivity|].
  cbn [Net.hexString allb]. rewrite IH, !hexDigit_plain; [reflexivity | apply land_15 |].
  rewrite N.shiftr_div_pow2. apply N.Div0.div_lt_upper_bound.
  change (2 ^ 4 * 16)%N with 256%N. exact Hb.
Qed.

Lemma join_plain (sep : string) (l : list string) :
  allb plain sep = true →
  Forall (fun x => allb plain x = true) l →
  allb plain (Net.join sep l) = true.
Proof.
  intros Hsep. induction 1 as [|x l Hx Hl IH]; [reflexivity|].
  destruct l as [|y l]; [exact Hx|].
  change (Net.join sep (x :: y :: l)) with (x +:+ sep +:+ Net.join sep (y :: l)).
  by rewrite !allb_app, Hx, Hsep, IH.
Qed.

Lemma appendHex_all_plain (gs : list N) :
  Forall (fun x => allb plain x = true) (map Net.appendHex gs).
Proof. apply Forall_map, Forall_forall. intros v _. apply appendHex_plain. Qed.

Lemma string6_plain (gs : list N) : allb plain (Net.string6 gs) = true.
Proof.
  unfold Net.string6.
  destruct (Net.longest_run 0 gs (0, 0)) as [e0 n].
  destruct (n <=? 1).
  - apply join_plain; [reflexivity | apply appendHex_all_plain].
  - rewrite !allb_app, !join_plain; try reflexivity; apply appendHex_all_plain.
Qed.

Lemma octets_bounded (ip : Net.IP) :
  Forall (fun b => (b < 256)%N) (map Net.octet ip).
Proof.
  apply Forall_map, Forall_forall. intros b _. unfold Net.octet.
  pose proof (Byte.to_N_bounded b). cbn. lia.
Qed.

Lemma To4_bounded (ip : Net.IP) (l : list N) :
  Net.To4 ip = Some l → Forall (fun b => (b < 256)%N) l.
Proof.
  unfold Net.To4. pose proof (octets_bounded ip) as Hb.
  destruct (map Net.octet ip) as [|a [|b [|c [|d [|e bs]]]]] eqn:Hbs;
    cbv beta iota.
  5: { intros H. injection H as <-. exact Hb. }
  all: destruct (_ && _); [|discriminate].
  all: intros H; injection H as <-.
  all: match type of Hb with
       | Forall _ ?l => change (Forall (fun b => (b < 256)%N) (drop 12 l))
       end; by apply Forall_drop.
Qed.

Lemma hex_text_plain (ip : Net.IP) :
  allb plain ("?" +:+ Net.hexString (map Net.octet ip)) = true.
Proof.
  rewrite allb_app, (hexString_plain _ (octets_bounded ip)). reflexivity.
Qed.

(** The text of an address has plain bytes only. *)
Lemma IP_String_plain (ip : Net.IP) : allb plain (Net.IP_String ip) = true.
Proof.
  unfold Net.IP_String. destruct ip as [|b0 ip]; [reflexivity|].
  destruct (Net.To4 (b0 :: ip)) as [l|] eqn:H4.
  - pose proof (To4_bounded _ _ H4) as Hl.
    destruct l as [|a [|b [|c [|d [|? ?]]]]].
    5: { inversion Hl as [|? ? Ha Hl1]; inversion Hl1 as [|? ? Hb Hl2];
         inversion Hl2 as [|? ? Hc Hl3]; inversion Hl3 as [|? ? Hd _]; subst.
         by rewrite !allb_app, !ubtoa_plain. }
    all: destruct (length (b0 :: ip) =? 16);
      [apply string6_plain | apply hex_text_plain].
  - destruct (length (b0 :: ip) =? 16);
      [apply string6_plain | apply hex_text_plain].
Qed.

Lemma plain_not_space (c : ascii) :
  plain c = true →
  Strings.asciiSpace c = false
  ∧ (∀ b, Strings.space2 c b = false ∧ Strings.space2 b c = false)
  ∧ (∀ a b, Strings.space3 c a b = false ∧ Strings.space3 a b c = false).
Proof.
  unfold plain, Strings.asciiSpace, Strings.space2, Strings.space3, Strings.byte_of.
  intros H. apply andb_true_iff in H as [H1 H2].
  apply N.leb_le in H1. apply N.ltb_lt in H2.
  set (n := N_of_ascii c) in *.
  assert (E1 : (n <=? 13)%N = false) by (apply N.leb_gt; lia).
  assert (E2 : ∀ k, (127 <= k)%N → (n =? k)%N = false)
    by (intros k Hk; apply N.eqb_neq; lia).
  assert (E3 : (n =? 32)%N = false) by (apply N.eqb_neq; lia).
  assert (E4 : (n <=? 138)%N = true) by (apply N.leb_le; lia).
  assert (E5 : (128 <=? n)%N = false) by (apply N.leb_gt; lia).
  split; [by rewrite E1, E3, andb_false_r|].
  split.
  - intros b. rewrite !E2 by lia. by rewrite !andb_false_r.
  - intros a b. rewrite !E2 by lia. rewrite E5.
    by rewrite ?andb_false_l, ?andb_false_r, ?orb_false_r, ?andb_false_r.
Qed.

Lemma plain_space_width (c : ascii) (r : string) :
  plain c = true →
  Strings.space_width (String c r) = 0 ∧ Strings.space_width_back (String c r) = 0.
Proof.
  intros H. destruct (plain_not_space c H) as (E1 & E2 & E3).
  unfold Strings.space_width, Strings.space_width_back. rewrite E1.
  destruct r as [|b [|a r]]; [done | |].
  - destruct (E2 b) as [-> ->]. done.
  - destruct (E2 b) as [-> ->]. destruct (E3 b a) as [-> _].
    by destruct (E3 a b) as [_ ->].
Qed.

Lemma trim_zero (width : string → nat) (fuel : nat) (s : string) :
  width s = 0 → Strings.trim width fuel s = s.
Proof. intros H. destruct fuel; cbn [Strings.trim]; by rewrite ?H. Qed.

Lemma rev_app_rev_app (s a b : string) :
  Strings.rev_app (Strings.rev_app s a) b = Strings.rev_app a (s +:+ b).
Proof.
  revert a b. induction s as [|c s IH]; intros a b; [reflexivity|].
  cbn [Strings.rev_app]. by rewrite IH.
Qed.

Lemma srev_srev (s : string) : Strings.srev (Strings.srev s) = s.
Proof.
  unfold Strings.srev. rewrite rev_app_rev_app. cbn [Strings.rev_app].
  apply append_empty_r.
Qed.

Lemma allb_rev_app (p : ascii → bool) (s acc : string) :
  allb p (Strings.rev_app s acc) = allb p s && allb p acc.
Proof.
  revert acc. induction s as [|c s IH]; intros acc; [reflexivity|].
  cbn [Strings.rev_app allb]. rewrite IH. cbn [allb].
  destruct (p c), (allb p s); reflexivity.
Qed.

(** White space trimming leaves a string of plain bytes as it is. *)
Lemma plain_TrimSpace (s : string) :
  allb plain s = true → Strings.TrimSpace s = s.
Proof.
  intros Hs. unfold Strings.TrimSpace.
  assert (Hleft : Strings.TrimLeft s = s).
  { unfold Strings.TrimLeft. destruct s as [|c r]; [reflexivity|].
    cbn [allb] in Hs. apply andb_true_iff in Hs as [Hc _].
    apply trim_zero. by destruct (plain_space_width c r Hc). }
  rewrite Hleft. unfold Strings.TrimRight.
  assert (Hrev : allb plain (Strings.srev s) = true).
  { unfold Strings.srev. by rewrite allb_rev_app, Hs. }
  destruct (Strings.srev s) as [|c r] eqn:Hsrev.
  - rewrite <- (srev_srev s), Hsrev. by destruct (String.length _).
  - cbn [allb] in Hrev. apply andb_true_iff in Hrev as [Hc _].
    rewrite trim_zero by (by destruct (plain_space_width c r Hc)).
    by rewrite <- Hsrev, srev_srev.
Qed.

Lemma plain_not_control (c : ascii) :
  plain c = true → Ascii.eqb c Bufio.LF = false ∧ Ascii.eqb c Bufio.CR = false.
Proof.
  intros H. split.
  - destruct (Ascii.eqb_spec c Bufio.LF) as [-> |]; [discriminate H | reflexivity].
  - destruct (Ascii.eqb_spec c Bufio.CR) as [-> |]; [discriminate H | reflexivity].
Qed.

Lemma plain_LF_free (s : string) : allb plain s = true → LF_free s = true.
Proof.
  induction s as [|c s IH]; [reflexivity|]. cbn [allb LF_free]. intros H.
  apply andb_true_iff in H as [Hc Hs].
  destruct (plain_not_control c Hc) as [-> _]. by rewrite IH.
Qed.

Lemma plain_dropCR (s : string) : allb plain s = true → Bufio.dropCR s = s.
Proof.
  induction s as [|c s IH]; [reflexivity|]. cbn [allb]. intros H.
  apply andb_true_iff in H as [Hc Hs]. cbn [Bufio.dropCR].
  destruct s as [|c' s']; [by destruct (plain_not_control c Hc) as [_ ->]|].
  by rewrite (IH Hs).
Qed.

(** *** How long the text of an address can be *)

Lemma length_ubtoa (n : N) : String.length (Net.ubtoa n) <= 3.
Proof.
  unfold Net.ubtoa. destruct (n <? 10)%N; [cbn; lia|].
  destruct (n <? 100)%N; cbn; lia.
Qed.

Lemma length_appendHex (v : N) : String.length (Net.appendHex v) <= 4.
Proof.
  unfold Net.appendHex. destruct (v =? 0)%N; [cbn; lia|].
  cbn [fold_right].
  repeat match goal with
         | |- context [if ?b then _ else _] => destruct b
         end; cbn [String.length]; lia.
Qed.

Lemma length_hexString (bs : list N) :
  String.length (Net.hexString bs) = 2 * length bs.
Proof.
  induction bs as [|b bs IH]; [reflexivity|].
  cbn [Net.hexString String.length length]. lia.
Qed.

Lemma length_join (l : list string) :
  Forall (fun x => String.length x <= 4) l →
  String.length (Net.join ":" l) <= 5 * length l.
Proof.
  induction 1 as [|x l Hx Hl IH]; [cbn; lia|].
  destruct l as [|y l]; [cbn [Net.join length]; lia|].
  change (Net.join ":" (x :: y :: l)) with (x +:+ ":" +:+ Net.join ":" (y :: l)).
  rewrite !length_append. cbn [String.length length] in *. lia.
Qed.

Lemma length_groups (bs : list N) : length (Net.groups bs) <= length bs.
Proof.
  enough (H : length (Net.groups bs) <= length bs
              ∧ ∀ a, length (Net.groups (a :: bs)) <= S (length bs)) by apply H.
  induction bs as [|b bs [IH1 IH2]]; [split; [|intros a]; cbn; lia|].
  split; [apply IH2|]. intros a. cbn [Net.groups length]. lia.
Qed.

Lemma length_string6 (gs : list N) :
  String.length (Net.string6 gs) <= 10 * length gs + 2.
Proof.
  unfold Net.string6.
  assert (Hall : ∀ l : list N,
            Forall (fun x => String.length x <= 4) (map Net.appendHex l)).
  { intros l. apply Forall_map, Forall_forall. intros v _. apply length_appendHex. }
  destruct (Net.longest_run 0 gs (0, 0)) as [e0 n].
  destruct (n <=? 1).
  - pose proof (length_join _ (Hall gs)) as H. rewrite length_map in H. lia.
  - rewrite !length_append.
    pose proof (length_join _ (Hall (take e0 gs))) as H1.
    pose proof (length_join _ (Hall (drop (e0 + n) gs))) as H2.
    rewrite length_map in H1, H2. rewrite length_take in H1. rewrite length_drop in H2.
    cbn [String.length]. lia.
Qed.

Lemma length_IP_String (ip : Net.IP) :
  String.length (Net.IP_String ip) <= 10 * length ip + 20.
Proof.
  unfold Net.IP_String. destruct ip as [|b0 ip]; [cbn; lia|].
  assert (H6 : String.length (Net.string6 (Net.groups (map Net.octet (b0 :: ip))))
               <= 10 * length (b0 :: ip) + 20).
  { pose proof (length_string6 (Net.groups (map Net.octet (b0 :: ip)))).
    pose proof (length_groups (map Net.octet (b0 :: ip))) as Hg.
    rewrite length_map in Hg. lia. }
  assert (Hx : String.length ("?" +:+ Net.hexString (map Net.octet (b0 :: ip)))
               <= 10 * length (b0 :: ip) + 20).
  { rewrite length_append, length_hexString, length_map. cbn [String.length]. lia. }
  destruct (Net.To4 (b0 :: ip)) as [[|a [|b [|c [|d [|? ?]]]]]|].
  5: { rewrite !length_append. cbn [String.length].
       pose proof (length_ubtoa a). pose proof (length_ubtoa b).
       pose proof (length_ubtoa c). pose proof (length_ubtoa d). lia. }
  all: destruct (length (b0 :: ip) =? 16); assumption.
Qed.

Lemma resolved_address_is_plain_or_empty
    (resolver : Net.Resolver) (domain : string) (timeout : Z) :
  resolveWithTimeout resolver domain timeout = ""
  ∨ allb plain (resolveWithTimeout resolver domain timeout) = true.
Proof.
  unfold resolveWithTimeout.
  destruct (Net.LookupIP resolver timeout "ip4" domain) as [[|ip ips] [err|]];
    try (by left).
  right. apply IP_String_plain.
Qed.

(** X6. Whatever the resolver answers, [resolveWithTimeout] returns either
    the empty string or a string of printable ASCII bytes without white
    space: without a line feed or a carriage return, and left as it is by
    white space trimming -- so it fills exactly one line of the log and is
    read back as the same string. *)
Theorem resolved_address_is_plain
    (resolver : Net.Resolver) (domain : string) (timeout : Z) :
  resolveWithTimeout resolver domain timeout = ""
  ∨ (allb plain (resolveWithTimeout resolver domain timeout) = true
     ∧ LF_free (resolveWithTimeout resolver domain timeout) = true
     ∧ Bufio.dropCR (resolveWithTimeout resolver domain timeout)
       = resolveWithTimeout resolver domain timeout
     ∧ Strings.TrimSpace (resolveWithTimeout resolver domain timeout)
       = resolveWithTimeout resolver domain timeout).
Proof.
  unfold resolveWithTimeout.
  destruct (Net.LookupIP resolver timeout "ip4" domain) as [[|ip ips] [err|]];
    try (by left).
  right. pose proof (IP_String_plain ip) as Hplain.
  split; [exact Hplain|]. split; [by apply plain_LF_free|].
  split; [by apply plain_dropCR | by apply plain_TrimSpace].
Qed.

(** With a sane resolver the result also stays below the scanner's limit. *)
Lemma resolved_address_is_good
    (resolver : Net.Resolver) (domain : string) (timeout : Z) :
  sane resolver →
  resolveWithTimeout resolver domain timeout ≠ "" →
  good (resolveWithTimeout resolver domain timeout).
Proof.
  intros Hsane Hne. split; [exact Hne|]. split.
  - destruct (resolved_address_is_plain_or_empty resolver domain timeout) as [E | E];
      [congruence | exact E].
  - specialize (Hsane timeout "ip4" domain). revert Hne. unfold resolveWithTimeout.
    destruct (Net.LookupIP resolver timeout "ip4" domain) as [[|ip ips] [err|]];
      try congruence.
    intros _. inversion Hsane as [|? ? Hip _]; subst.
    unfold short, Bufio.MaxScanTokenSize. pose proof (length_IP_String ip). lia.
Qed.

(** *** Reading the log back *)

Lemma complete_line (a : string) : complete (a +:+ nl) = true.
Proof.
  induction a as [|c a IH]; [reflexivity|].
  change (String c a +:+ nl) with (String c (a +:+ nl)).
  cbn [complete]. destruct (a +:+ nl) eqn:E; [|exact IH].
  by destruct a.
Qed.

Lemma raw_lines_lines_text (ips : list string) :
  Forall (fun x => LF_free x = true) ips →
  Bufio.raw_lines (lines_text ips) = ips.
Proof.
  induction 1 as [|x ips Hx _ IH]; [reflexivity|].
  cbn [lines_text fold_right]. fold (lines_text ips).
  rewrite <- append_assoc, raw_lines_app by apply complete_line.
  by rewrite (raw_lines_line _ Hx), IH.
Qed.

Lemma good_fixed (ip : string) :
  good ip →
  ip ≠ "" ∧ LF_free ip = true ∧ short ip
  ∧ Strings.TrimSpace (Bufio.dropCR ip) = ip.
Proof.
  intros (Hne & Hplain & Hshort). split; [exact Hne|].
  split; [by apply plain_LF_free|]. split; [exact Hshort|].
  by rewrite plain_dropCR, plain_TrimSpace.
Qed.

(** A complete log of short lines followed by lines of good addresses is
    read as what the log held and those addresses. *)
Lemma ips_of_app (content : string) (ips : list string) :
  complete content = true →
  Forall short (Bufio.raw_lines content) →
  Forall good ips →
  ips_of (content +:+ lines_text ips) = ips_of content ∪ list_to_set ips.
Proof.
  intros Hcomplete Hshort Hgood.
  assert (Hfree : Forall (fun x => LF_free x = true) ips).
  { eapply Forall_impl; [exact Hgood|]. intros x Hx. by apply good_fixed. }
  assert (Hshort2 : Forall short ips).
  { eapply Forall_impl; [exact Hgood|]. intros x Hx. by apply good_fixed. }
  apply set_eq. intros x. unfold ips_of, Bufio.Scan.
  rewrite raw_lines_app, raw_lines_lines_text by assumption.
  rewrite (scan_short_lines (_ ++ _)) by (by apply Forall_app).
  rewrite (scan_short_lines _ Hshort). cbn [fst].
  rewrite elem_of_union, !loadIPs_fold, elem_of_list_to_set, fmap_app.
  split.
  - intros [Hx | (Hne & l & Hl & Htrim)]; [set_solver|].
    apply elem_of_app in Hl as [Hl | Hl]; [left; right; eauto|].
    right. apply list_elem_of_fmap in Hl as (ip & -> & Hip).
    rewrite Forall_forall in Hgood.
    destruct (good_fixed ip (Hgood ip Hip)) as (_ & _ & _ & Hfix).
    congruence.
  - intros [[Hx | (Hne & l & Hl & Htrim)] | Hx]; [set_solver | |].
    + right. split; [exact Hne|]. exists l. split; [|exact Htrim].
      apply elem_of_app. by left.
    + right. rewrite Forall_forall in Hgood.
      destruct (good_fixed x (Hgood x Hx)) as (Hne & _ & _ & Hfix).
      split; [exact Hne|]. exists (Bufio.dropCR x). split; [|exact Hfix].
      apply elem_of_app. right. apply list_elem_of_fmap. by exists x.
Qed.

Lemma loadIPs_ips_of (files : gmap string OS.File) :
  readable_log files → loadIPs files "ips.txt" = ips_of (log_file files).
Proof.
  unfold readable_log, loadIPs, OS.Open, log_file.
  destruct (files !! "ips.txt") as [f|]; [|reflexivity].
  by intros ->.
Qed.

Lemma appendIP_readable (ip : string) (fate : OS.AppendFate) (w : World) :
  readable_log (fs w) → readable_log (fs (appendIP ip fate w)).
Proof.
  unfold readable_log, appendIP, OS.OpenFile_append, OS.WriteString.
  destruct fate as [err | k |]; [done | |].
  all: destruct (fs w !! "ips.txt") as [f|] eqn:Hlog;
    rewrite ?lookup_insert_eq, ?Hlog; cbn [fs set_fs];
    by rewrite ?lookup_insert_eq.
Qed.

Lemma checkAndWrite_readable (ip : string) (fate : OS.AppendFate) (w : World) :
  readable_log (fs w) → readable_log (fs (checkAndWrite ip fate w).1).
Proof.
  intros H. destruct (decide (ip ∈ ipMap w)) as [Hin | Hnew].
  - by rewrite (checkAndWrite_present _ _ _ Hin).
  - rewrite (checkAndWrite_new _ _ _ Hnew). cbn [fst].
    destruct (updateProgress_fields
                (appendIP ip fate (set_ipMap ({[ip]} ∪ ipMap w) w))) as (_ & -> & _).
    by apply appendIP_readable.
Qed.

Lemma exec_readable (a : Action) (s s' : State) :
  readable_log (fs (world s)) → exec a s = Some s' →
  readable_log (fs (world s')).
Proof.
  intros H Hexec. exec_cases Hexec; try exact H.
  match goal with
  | Hcw : checkAndWrite ?ip ?fate ?w = _ |- _ =>
      pose proof (checkAndWrite_readable ip fate w H) as Hr; by rewrite Hcw in Hr
  end.
Qed.

(** With sane resolvers every address on its way to the set is good. *)
Lemma good_exec (a : Action) (s s' : State) :
  match a with Resolve _ r => sane r | _ => True end →
  ((∀ i ip, workers s !! i = Some (Locking ip) ∨ workers s !! i = Some (Critical ip)
            → good ip)
   ∧ Forall (fun e : string * bool => good e.1) (history s)) →
  exec a s = Some s' →
  (∀ i ip, workers s' !! i = Some (Locking ip) ∨ workers s' !! i = Some (Critical ip)
           → good ip)
  ∧ Forall (fun e : string * bool => good e.1) (history s').
Proof.
  intros Hsane [Hw Hh] Hexec.
  destruct a; cbn [exec] in Hexec; repeat case_match; simplify_eq;
    cbn [workers history]; (split; [|try exact Hh]).
  all: try exact Hw.
  all: try (intros j x Hj;
            rewrite !list_lookup_insert_Some in Hj;
            destruct Hj as [[(_ & Hj & _) | (_ & Hj)] | [(_ & Hj & _) | (_ & Hj)]];
            simplify_eq; eauto; fail).
  - (* Resolve *)
    intros j x Hj. rewrite !list_lookup_insert_Some in Hj.
    destruct Hj as [[(_ & Hj & _) | (_ & Hj)] | [(_ & Hj & _) | (_ & Hj)]];
      eauto.
    + destruct (String.eqb_spec
                  (resolveWithTimeout resolver domain timeout5s) "") as [E | E];
        [discriminate|].
      injection Hj as <-. by apply resolved_address_is_good.
    + by destruct (String.eqb _ _).
  - (* Body *)
    apply Forall_app. split; [exact Hh|]. apply Forall_singleton. cbn [fst]. eauto.
Qed.

Lemma well_behaved_all_written (schedule : list Action) :
  well_behaved schedule → all_written schedule.
Proof.
  intros H. eapply Forall_impl; [exact H|]. intros a. by destruct a.
Qed.

Lemma good_run (schedule : list Action) (s s' : State) :
  well_behaved schedule →
  ((∀ i ip, workers s !! i = Some (Locking ip) ∨ workers s !! i = Some (Critical ip)
            → good ip)
   ∧ Forall (fun e : string * bool => good e.1) (history s)) →
  readable_log (fs (world s)) →
  run schedule s = Some s' →
  Forall (fun e : string * bool => good e.1) (history s')
  ∧ readable_log (fs (world s')).
Proof.
  intros Hwb. revert s. induction Hwb as [|a schedule Ha _ IH]; intros s Hg Hr Hrun.
  - injection Hrun as <-. split; [apply Hg | exact Hr].
  - cbn [run] in Hrun. destruct (exec a s) as [s1|] eqn:Hexec; [|discriminate].
    apply (IH s1); [|by eapply exec_readable|exact Hrun].
    eapply good_exec; [|exact Hg|exact Hexec]. by destruct a.
Qed.

Lemma good_start (w : World) (domains : list string) (n cap : nat) :
  (∀ i ip, workers (start w domains n cap) !! i = Some (Locking ip)
           ∨ workers (start w domains n cap) !! i = Some (Critical ip) → good ip)
  ∧ Forall (fun e : string * bool => good e.1) (history (start w domains n cap)).
Proof.
  split; [|constructor]. intros i ip. cbn [start workers].
  intros [H | H]; apply lookup_replicate in H as [H _]; discriminate.
Qed.

(** What a pool leaves in the log is read back as its set. *)
Lemma pool_reload (w : World) (domains : list string) (n cap : nat)
    (schedule : list Action) (s : State) :
  readable_log (fs w) →
  complete (log w) = true →
  Forall short (Bufio.raw_lines (log w)) →
  well_behaved schedule →
  run schedule (start w domains n cap) = Some s →
  loadIPs (fs (world s)) "ips.txt"
  = loadIPs (fs w) "ips.txt" ∪ list_to_set (inserted (history s)).
Proof.
  intros Hr Hcomplete Hshort Hwb Hrun.
  destruct (good_run _ _ _ Hwb (good_start w domains n cap) Hr Hrun) as [Hgood Hr'].
  rewrite (loadIPs_ips_of _ Hr'), (loadIPs_ips_of _ Hr).
  fold (log (world s)). fold (log w).
  rewrite (pool_log _ _ _ _ _ _ (well_behaved_all_written _ Hwb) Hrun).
  apply ips_of_app; [assumption..|].
  unfold inserted. apply Forall_fmap, Forall_forall. intros e He.
  apply list_elem_of_filter in He as [_ He].
  rewrite Forall_forall in Hgood. exact (Hgood e He).
Qed.

Lemma restart_main : main seeded_files "domains.txt" 1 = Started restart_start.
Proof. vm_compute. reflexivity. Qed.

Lemma restart_run : run restart_schedule restart_start = Some restart_end.
Proof. vm_compute. reflexivity. Qed.

(** X4. Stopping and starting again loses nothing and invents nothing: when
    [main] starts the pool over a readable log of complete lines shorter
    than the scanner's limit, every append is carried out and the resolvers
    return addresses of at most 16 bytes, then in every state of the pool
    [loadIPs] would read from the log exactly the set the pool holds. *)
Theorem restart_reloads_the_set
    (files : gmap string OS.File) (file : string) (threadCount : Z)
    (schedule : list Action) (s0 s : State) :
  GoInt.in_range threadCount →
  main files file threadCount = Started s0 →
  readable_log files →
  complete (log_file files) = true →
  Forall short (Bufio.raw_lines (log_file files)) →
  well_behaved schedule →
  run schedule s0 = Some s →
  loadIPs (fs (world s)) "ips.txt" = ipMap (world s).
Proof.
  intros Hrange Hmain Hr Hcomplete Hshort Hwb Hrun.
  destruct (main_started _ _ _ _ Hrange Hmain) as (out & n & cap & -> & _ & _).
  pose proof (fun H1 H2 H3 => pool_reload _ _ _ _ _ _ H1 H2 H3 Hwb Hrun) as Hload.
  unfold log in Hload. cbn [fs] in Hload. rewrite (Hload Hr Hcomplete Hshort).
  destruct (pool_inserts_once _ _ _ _ _ _ Hrun) as [_ Hset].
  apply set_eq. intros x. rewrite Hset, elem_of_union, elem_of_list_to_set.
  reflexivity.
Qed.

Lemma restart_reloads_the_set_witness :
  loadIPs (fs (world restart_end)) "ips.txt" = ipMap (world restart_end).
Proof.
  apply (restart_reloads_the_set seeded_files "domains.txt" 1 restart_schedule
           restart_start restart_end).
  - vm_compute. split; intros H; discriminate H.
  - exact restart_main.
  - reflexivity.
  - reflexivity.
  - vm_compute. repeat constructor.
  - unfold well_behaved, restart_schedule.
    repeat first [apply Forall_nil_2 | apply Forall_cons_2];
      try exact I; try reflexivity.
    intros budget network host. vm_compute. repeat constructor.
  - exact restart_run.
Defined.

(** X5. An append that the operating system carries out is read back: over
    a readable log of complete lines shorter than the scanner's limit,
    [loadIPs] after [appendIP] of a good address (not empty, printable ASCII
    without white space, shorter than the limit) gives the address and what
    [loadIPs] gave before. *)
Theorem append_then_load (ip : string) (w : World) :
  readable_log (fs w) →
  complete (log w) = true →
  Forall short (Bufio.raw_lines (log w)) →
  good ip →
  loadIPs (fs (appendIP ip OS.Written w)) "ips.txt"
  = {[ip]} ∪ loadIPs (fs w) "ips.txt".
Proof.
  intros Hr Hcomplete Hshort Hgood.
  rewrite (loadIPs_ips_of _ (appendIP_readable ip OS.Written w Hr)).
  rewrite (loadIPs_ips_of _ Hr).
  fold (log (appendIP ip OS.Written w)). fold (log w).
  destruct (appendIP_opened ip OS.Written w) as [-> _]; [discriminate|].
  cbn [OS.persisted].
  replace (ip +:+ nl) with (lines_text [ip])
    by (cbn [lines_text fold_right]; by rewrite append_empty_r).
  rewrite ips_of_app by (try assumption; by constructor).
  cbn [list_to_set]. set_solver.
Qed.

Lemma append_then_load_witness :
  loadIPs (fs (appendIP "10.0.0.2" OS.Written
                 {| ipMap := ∅; counter := 0; fs := seeded_files; stdout := [] |}))
    "ips.txt"
  = {["10.0.0.2"]} ∪ loadIPs seeded_files "ips.txt".
Proof.
  apply (append_then_load "10.0.0.2"
           {| ipMap := ∅; counter := 0; fs := seeded_files; stdout := [] |}).
  - reflexivity.
  - reflexivity.
  - vm_compute. repeat constructor.
  - split; [discriminate|]. split; [reflexivity|]. vm_compute. reflexivity.
Defined.

(** * Further properties: the domain file and the scanner's limit *)

Lemma plain_line (e : string * string) :
  clean_line e → allb plain (line_of e) = true.
Proof.
  destruct e as [p d]. unfold clean_line, line_of. cbn [fst snd].
  intros ([-> | [-> | ->]] & _ & Hplain & _);
    rewrite allb_app, Hplain; reflexivity.
Qed.

Lemma TrimPrefix_without (s prefix : string) :
  Strings.HasPrefix s prefix = false → Strings.TrimPrefix s prefix = s.
Proof. unfold Strings.TrimPrefix. by intros ->. Qed.

Lemma TrimPrefix_app (prefix s : string) :
  Strings.TrimPrefix (prefix +:+ s) prefix = s.
Proof.
  unfold Strings.TrimPrefix.
  assert (H : Strings.HasPrefix (prefix +:+ s) prefix = true
              ∧ Strings.drop (String.length prefix) (prefix +:+ s) = s).
  { induction prefix as [|c prefix [IH1 IH2]]; [by destruct s|].
    change (String c prefix +:+ s) with (String c (prefix +:+ s)).
    cbn [Strings.HasPrefix String.length Strings.drop].
    by rewrite Ascii.eqb_refl. }
  destruct H as [-> ->]. reflexivity.
Qed.

(** What the loop of [readDomains] makes of a clean line. *)
Lemma clean_line_domain (e : string * string) :
  clean_line e →
  Strings.TrimPrefix
    (Strings.TrimPrefix (Strings.TrimSpace (Bufio.dropCR (line_of e))) "http://")
    "https://" = e.2
  ∧ e.2 ≠ "".
Proof.
  intros He. pose proof (plain_line e He) as Hplain.
  rewrite (plain_dropCR _ Hplain), (plain_TrimSpace _ Hplain).
  destruct e as [p d]. unfold clean_line, line_of in *. cbn [fst snd] in *.
  destruct He as (Hscheme & Hne & _ & H1 & H2 & _). split; [|exact Hne].
  destruct Hscheme as [-> | [-> | ->]].
  - change ("" +:+ d) with d.
    by rewrite (TrimPrefix_without d "http://" H1), (TrimPrefix_without d _ H2).
  - rewrite TrimPrefix_app. exact (TrimPrefix_without d _ H2).
  - change (Strings.TrimPrefix ("https://" +:+ d) "http://")
      with ("https://" +:+ d).
    apply TrimPrefix_app.
Qed.

Lemma readDomains_fold (acc : list string) (es : list (string * string)) :
  Forall clean_line es →
  foldl
    (fun list text =>
       let line := Strings.TrimSpace text in
       let line := Strings.TrimPrefix line "http://" in
       let line := Strings.TrimPrefix line "https://" in
       if String.eqb line "" then list else list ++ [line])
    acc (map Bufio.dropCR (map line_of es))
  = acc ++ es.*2.
Proof.
  intros Hes. revert acc.
  induction Hes as [|e es He _ IH]; intros acc; [by rewrite app_nil_r|].
  cbn [map foldl fmap list_fmap]. cbv zeta.
  destruct (clean_line_domain e He) as [-> Hne].
  destruct (String.eqb_spec e.2 "") as [E | _]; [by destruct Hne|].
  rewrite IH, <- app_assoc. reflexivity.
Qed.

(** X11. A domain file of clean lines is read as written: when every line
    is a name of printable ASCII bytes without white space, alone or behind
    [http://] or [https://], and shorter than the scanner's limit,
    [readDomains] returns the names without their schemes, in the order of
    the file and with their repetitions, and no error. *)
Theorem readDomains_clean_file
    (files : gmap string OS.File) (path : string) (es : list (string * string)) :
  OS.Open files path = OS.Ok (lines_text (map line_of es)) →
  Forall clean_line es →
  readDomains files path = (es.*2, None).
Proof.
  intros Hopen Hes. unfold readDomains. rewrite Hopen. unfold Bufio.Scan.
  rewrite raw_lines_lines_text.
  - rewrite scan_short_lines.
    + exact (f_equal (fun l => (l, None)) (readDomains_fold [] es Hes)).
    + apply Forall_fmap. eapply Forall_impl; [exact Hes|].
      intros e He. apply He.
  - apply Forall_fmap. eapply Forall_impl; [exact Hes|].
    intros e He. apply plain_LF_free, plain_line, He.
Qed.

Lemma readDomains_clean_file_witness :
  readDomains
    {[ "domains.txt" :=
         {| OS.data := "a.test" +:+ nl +:+ "http://b.test" +:+ nl
                       +:+ "https://a.test" +:+ nl;
            OS.readable := true |} ]} "domains.txt"
  = (["a.test"; "b.test"; "a.test"], None).
Proof.
  apply (readDomains_clean_file _ "domains.txt"
           [("", "a.test"); ("http://", "b.test"); ("https://", "a.test")]).
  - reflexivity.
  - repeat first [apply Forall_nil_2 | apply Forall_cons_2];
      (split; [cbn [fst]; auto|]); repeat split; try discriminate;
      vm_compute; reflexivity.
Defined.

(** *** Lines of 64 KiB and more *)

Lemma raw_lines_first (line rest : string) :
  line ≠ "" → LF_free line = true →
  ∃ l ls, Bufio.raw_lines (line +:+ rest) = l :: ls
          ∧ String.length line <= String.length l.
Proof.
  induction line as [|c r IH]; [done|]. intros _ Hfree.
  cbn [LF_free] in Hfree. apply andb_true_iff in Hfree as [Hc Hr].
  apply negb_true_iff in Hc.
  change (String c r +:+ rest) with (String c (r +:+ rest)).
  cbn [Bufio.raw_lines]. rewrite Hc.
  destruct r as [|c' r'].
  - change ("" +:+ rest) with rest.
    destruct (Bufio.raw_lines rest) as [|l ls]; eexists _, _;
      (split; [reflexivity|]); cbn [String.length]; lia.
  - destruct (IH ltac:(done) Hr) as (l & ls & -> & Hlen).
    exists (String c l), ls. split; [reflexivity|]. cbn [String.length] in *. lia.
Qed.

Lemma scan_stops (before : list string) (l : string) (ls : list string) :
  Forall short before →
  (Bufio.MaxScanTokenSize <= N.of_nat (String.length l))%N →
  Bufio.scan (before ++ l :: ls) = (map Bufio.dropCR before, Some Bufio.ErrTooLong).
Proof.
  intros Hshort Hlong. induction Hshort as [|x before Hx _ IH].
  - cbn [app Bufio.scan map]. by destruct (N.leb_spec Bufio.MaxScanTokenSize
                                            (N.of_nat (String.length l))); [|lia].
  - cbn [app Bufio.scan map]. rewrite IH.
    destruct (N.leb_spec Bufio.MaxScanTokenSize (N.of_nat (String.length x)));
      [unfold short in Hx; lia | reflexivity].
Qed.

(** The scanner stops in front of the first line of 64 KiB or more. *)
Lemma Scan_stops (before line rest : string) :
  complete before = true →
  Forall short (Bufio.raw_lines before) →
  LF_free line = true →
  (Bufio.MaxScanTokenSize <= N.of_nat (String.length line))%N →
  Bufio.Scan (before +:+ line +:+ rest)
  = ((Bufio.Scan before).1, Some Bufio.ErrTooLong).
Proof.
  intros Hcomplete Hshort Hfree Hlong. unfold Bufio.Scan.
  rewrite raw_lines_app by exact Hcomplete.
  destruct (raw_lines_first line rest) as (l & ls & -> & Hlen); [|exact Hfree|].
  { intros ->. unfold Bufio.MaxScanTokenSize in Hlong. cbn in Hlong. lia. }
  rewrite scan_stops, scan_short_lines by (try exact Hshort; lia).
  reflexivity.
Qed.

(** X12. The scanner's limit cuts a file short.  When a file holds a line
    of 64 KiB or more behind complete lines below that length, both readers
    see the file as if it ended in front of that line.  [loadIPs] gives no
    sign of it; [readDomains] returns the domains it has read together with
    the scanner's error, and [main] then prints the error and returns
    without starting the pool. *)
Theorem long_line_cuts_the_file
    (files : gmap string OS.File) (path before line rest : string) :
  OS.Open files path = OS.Ok (before +:+ line +:+ rest) →
  complete before = true →
  Forall short (Bufio.raw_lines before) →
  LF_free line = true →
  (Bufio.MaxScanTokenSize <= N.of_nat (String.length line))%N →
  let cut := <[path := {| OS.data := before; OS.readable := true |}]> files in
  loadIPs files path = loadIPs cut path
  ∧ readDomains files path = ((readDomains cut path).1, Some Bufio.ErrTooLong)
  ∧ ∀ threadCount,
      main files path threadCount
      = Aborted ["Enter domain list file: ";
                 "Error reading file: bufio.Scanner: token too long" +:+ nl].
Proof.
  intros Hopen Hcomplete Hshort Hfree Hlong cut.
  assert (Hcut : OS.Open cut path = OS.Ok before).
  { unfold OS.Open, cut. by rewrite lookup_insert_eq. }
  assert (Hread : readDomains files path
                  = ((readDomains cut path).1, Some Bufio.ErrTooLong)).
  { unfold readDomains. rewrite Hopen, Hcut.
    rewrite (Scan_stops _ _ _ Hcomplete Hshort Hfree Hlong).
    by destruct (Bufio.Scan before) as [tokens err]. }
  split; [|split; [exact Hread|]].
  - unfold loadIPs. rewrite Hopen, Hcut.
    by rewrite (Scan_stops _ _ _ Hcomplete Hshort Hfree Hlong).
  - intros threadCount. unfold main. rewrite Hread. reflexivity.
Qed.

Lemma long_line_cuts_the_file_witness :
  readDomains
    {[ "domains.txt" := {| OS.data := long_file; OS.readable := true |} ]}
    "domains.txt"
  = (["a.test"], Some Bufio.ErrTooLong).
Proof.
  destruct (long_line_cuts_the_file
              {[ "domains.txt" := {| OS.data := long_file; OS.readable := true |} ]}
              "domains.txt" ("a.test" +:+ nl) long_line (nl +:+ "b.test" +:+ nl))
    as (_ & H & _).
  - reflexivity.
  - reflexivity.
  - vm_compute. repeat constructor.
  - vm_compute. reflexivity.
  - vm_compute. discriminate.
  - rewrite H. vm_compute. reflexivity.
Defined.

(** * Further properties: the range program *)

Lemma split_dots_length (s : string) : length (split_dots s) = S (IPRange.dots s).
Proof.
  induction s as [|c s IH]; [reflexivity|]. cbn [split_dots IPRange.dots].
  destruct (Ascii.eqb c "."); cbn [length]; [by rewrite IH|].
  destruct (split_dots s); [discriminate IH | exact IH].
Qed.

Lemma split_dots_join (s : string) : Net.join "." (split_dots s) = s.
Proof.
  induction s as [|c s IH]; [reflexivity|]. cbn [split_dots].
  pose proof (split_dots_length s) as Hlen.
  destruct (Ascii.eqb_spec c ".") as [-> | _].
  - destruct (split_dots s) as [|f fs]; [discriminate Hlen|].
    change (Net.join "." ("" :: f :: fs)) with (String "." (Net.join "." (f :: fs))).
    by rewrite IH.
  - destruct (split_dots s) as [|f [|g fs]]; [discriminate Hlen | |].
    + cbn [Net.join] in *. by rewrite IH.
    + change (Net.join "." (String c f :: g :: fs))
        with (String c (f +:+ "." +:+ Net.join "." (g :: fs))).
      change (Net.join "." (f :: g :: fs))
        with (f +:+ "." +:+ Net.join "." (g :: fs)) in IH.
      by rewrite IH.
Qed.

Lemma split_dots_fields (s : string) :
  Forall (fun f => dotfree f = true) (split_dots s).
Proof.
  induction s as [|c s IH]; [by repeat constructor|]. cbn [split_dots].
  destruct (Ascii.eqb c ".") eqn:Hc; [by constructor|].
  destruct (split_dots s) as [|f fs]; [by repeat constructor; cbn; rewrite Hc|].
  inversion IH as [|? ? Hf Hfs]; subst. constructor; [|exact Hfs].
  cbn [dotfree]. by rewrite Hc, Hf.
Qed.

(** X13. [getPrefix] returns the empty string exactly when its argument
    does not have three dots; otherwise the argument is what it returns, a
    dot and a last field without dots. *)
Theorem getPrefix_splits (ip : string) :
  (IPRange.getPrefix ip = "" ↔ IPRange.dots ip ≠ 3)
  ∧ (IPRange.getPrefix ip ≠ "" →
     ∃ d, dotfree d = true ∧ ip = IPRange.getPrefix ip +:+ "." +:+ d).
Proof.
  unfold IPRange.getPrefix.
  pose proof (split_dots_length ip) as Hlen.
  pose proof (split_dots_join ip) as Hjoin.
  pose proof (split_dots_fields ip) as Hfields.
  destruct (split_dots ip) as [|a [|b [|c [|d [|e fs]]]]]; cbn [length] in Hlen;
    cbn [length Nat.eqb take].
  5: { assert (Hne : Net.join "." [a; b; c] ≠ "")
         by (cbn [Net.join]; destruct a; discriminate).
       split; [split; [done | lia]|]. intros _. exists d.
       split; [by repeat (inversion Hfields as [|? ? ? Hfields']; subst;
                          clear Hfields; rename Hfields' into Hfields)|].
       rewrite <- Hjoin. cbn [Net.join]. by rewrite !append_assoc. }
  all: split; [split; [lia | done] | done].
Qed.

Lemma Sprintf_lines (prefix buffer : string) (l : list nat) :
  foldl (fun buffer i => buffer +:+ IPRange.Sprintf prefix i) buffer l
  = buffer
    +:+ lines_text (map (fun i => prefix +:+ "." +:+ Net.ubtoa (N.of_nat i)) l).
Proof.
  revert buffer. induction l as [|i l IH]; intros buffer;
    [by rewrite append_empty_r|].
  cbn [foldl map lines_text fold_right]. rewrite IH. unfold IPRange.Sprintf.
  fold (lines_text (map (fun i => prefix +:+ "." +:+ Net.ubtoa (N.of_nat i)) l)).
  by rewrite !append_assoc.
Qed.

Lemma distinct_lines_snoc (tokens : list string) (t : string) :
  IPRange.distinct_lines (tokens ++ [t])
  = if bool_decide (Strings.TrimSpace t ∈ IPRange.distinct_lines tokens)
       || String.eqb (Strings.TrimSpace t) ""
    then IPRange.distinct_lines tokens
    else IPRange.distinct_lines tokens ++ [Strings.TrimSpace t].
Proof.
  unfold IPRange.distinct_lines.
  rewrite fmap_app, filter_app. cbn [fmap list_fmap].
  rewrite filter_cons, filter_nil.
  destruct (String.eqb_spec (Strings.TrimSpace t) "") as [E | E].
  - rewrite orb_true_r. case_decide; [done|]. by rewrite app_nil_r.
  - rewrite orb_false_r. case_decide; [|done].
    rewrite reverse_app, reverse_singleton. cbn [app remove_dups].
    case_bool_decide as Hin; case_decide as Hin'.
    + reflexivity.
    + exfalso. apply Hin'.
      rewrite elem_of_reverse, elem_of_remove_dups in Hin. exact Hin.
    + exfalso. apply Hin. rewrite elem_of_reverse, elem_of_remove_dups. exact Hin'.
    + by rewrite reverse_cons.
Qed.

Lemma distinct_lines_spec (tokens : list string) :
  NoDup (IPRange.distinct_lines tokens)
  ∧ ∀ l, l ∈ IPRange.distinct_lines tokens
         ↔ l ≠ "" ∧ ∃ t, t ∈ tokens ∧ Strings.TrimSpace t = l.
Proof.
  unfold IPRange.distinct_lines. split; [rewrite reverse_Permutation; apply NoDup_remove_dups|].
  intros l.
  rewrite elem_of_reverse, elem_of_remove_dups, elem_of_reverse,
    list_elem_of_filter, list_elem_of_fmap.
  split; intros (Hne & t & H1 & H2); (split; [exact Hne|]); exists t; auto.
Qed.

(** The loop of the range program, one distinct line after the other. *)
Lemma rounds (ParseIP : string → bool) (out : list string) (tokens : list string) :
  IPRange.seen
    (foldl (IPRange.round ParseIP)
       {| IPRange.seen := ∅; IPRange.writer := ""; IPRange.stdout := out |}
       tokens) = list_to_set (IPRange.distinct_lines tokens)
  ∧ IPRange.stdout
      (foldl (IPRange.round ParseIP)
         {| IPRange.seen := ∅; IPRange.writer := ""; IPRange.stdout := out |}
         tokens)
    = out ++ map (IPRange.report ParseIP) (IPRange.distinct_lines tokens)
  ∧ IPRange.writer
      (foldl (IPRange.round ParseIP)
         {| IPRange.seen := ∅; IPRange.writer := ""; IPRange.stdout := out |}
         tokens)
    = lines_text
        (filter (fun l => IPRange.accepted ParseIP l = true)
           (IPRange.distinct_lines tokens)
           ≫= fun l => IPRange.block (IPRange.getPrefix l)).
Proof.
  induction tokens as [|t tokens IH] using rev_ind.
  - cbn [foldl IPRange.seen IPRange.stdout IPRange.writer].
    change (IPRange.distinct_lines []) with (@nil string).
    by rewrite app_nil_r.
  - destruct IH as (Hseen & Hout & Hwriter).
    rewrite foldl_app, distinct_lines_snoc. cbn [foldl].
    set (st := foldl (IPRange.round ParseIP) _ tokens) in *.
    unfold IPRange.round.
    set (line := Strings.TrimSpace t).
    assert (Hb : bool_decide (line ∈ IPRange.seen st)
                 = bool_decide (line ∈ IPRange.distinct_lines tokens)).
    { apply bool_decide_ext. rewrite Hseen. apply elem_of_list_to_set. }
    rewrite Hb.
    destruct (bool_decide (line ∈ IPRange.distinct_lines tokens)
              || String.eqb line "") eqn:Hskip; [done|].
    rewrite filter_app, bind_app, lines_text_app, map_app.
    unfold IPRange.report, IPRange.accepted. cbn [map].
    rewrite filter_cons, filter_nil.
    destruct (IPRange.isValidIP ParseIP line); cbn [negb andb];
      [destruct (String.eqb (IPRange.getPrefix line) "")|];
      cbn [negb IPRange.print IPRange.seen IPRange.stdout IPRange.writer].
    all: rewrite ?Sprintf_lines, Hseen, Hout, Hwriter, list_to_set_app_L, <- ?app_assoc.
    all: case_decide; try done.
    all: split; [set_solver|]; split; [reflexivity|].
    all: cbn [mbind list_bind app lines_text fold_right];
      by rewrite ?app_nil_r, ?append_empty_r.
Qed.

(** X14. The range program looks at every distinct non-empty trimmed line
    of its input once, in the order in which the lines first come, prints
    one report for each, and hands the writer one range of 256 lines for
    each line that parses as an address and has a prefix -- one range per
    line, not per prefix.  Whenever both files can be opened it prints the
    final message, whatever the scanner and the writes did; the output file
    keeps what it held, gets what the operating system persists of the
    ranges, and no other file changes. *)
Theorem ranges_of_distinct_lines
    (ParseIP : string → bool) (files : gmap string OS.File)
    (fileName content : string) (fate : OS.AppendFate) :
  fileName ≠ IPRange.output →
  OS.Open files fileName = OS.Ok content →
  (∀ err, fate ≠ OS.OpenFails err) →
  ∃ files',
    IPRange.main ParseIP files fileName fate
    = Some ("[+] Your IP List : "
              :: map (IPRange.report ParseIP)
                   (IPRange.distinct_lines (Bufio.Scan content).1)
              ++ [IPRange.doneMessage],
            files')
    ∧ IPRange.ranges files'
      = IPRange.ranges files
        +:+ OS.persisted fate
              (lines_text
                 (filter (fun l => IPRange.accepted ParseIP l = true)
                    (IPRange.distinct_lines (Bufio.Scan content).1)
                    ≫= fun l => IPRange.block (IPRange.getPrefix l)))
    ∧ ∀ path, path ≠ IPRange.output → files' !! path = files !! path.
Proof.
  intros Hname Hopen Hfate. unfold IPRange.main.
  destruct (String.eqb_spec fileName IPRange.output) as [E | _]; [done|].
  rewrite Hopen.
  destruct (rounds ParseIP ["[+] Your IP List : "] (Bufio.Scan content).1)
    as (_ & Hout & Hwriter).
  unfold OS.OpenFile_append, OS.WriteString, IPRange.ranges.
  destruct fate as [err | k |]; [by destruct (Hfate err) | |].
  all: destruct (files !! IPRange.output) as [f|] eqn:Hlookup.
  all: rewrite ?lookup_insert_eq, ?Hlookup.
  all: eexists; split; [by rewrite Hout|].
  all: rewrite lookup_insert_eq; cbn [OS.data]; rewrite Hwriter.
  all: split; [reflexivity|].
  all: intros path Hpath; by rewrite ?lookup_insert_ne by congruence.
Qed.

Lemma ranges_of_distinct_lines_witness :
  ∃ files',
    IPRange.main is_ipv4_literal range_files "list.txt" OS.Written
    = Some ("[+] Your IP List : "
              :: map (IPRange.report is_ipv4_literal)
                   (IPRange.distinct_lines (Bufio.Scan range_list).1)
              ++ [IPRange.doneMessage],
            files')
    ∧ IPRange.ranges files'
      = IPRange.ranges range_files
        +:+ OS.persisted OS.Written
              (lines_text
                 (filter (fun l => IPRange.accepted is_ipv4_literal l = true)
                    (IPRange.distinct_lines (Bufio.Scan range_list).1)
                    ≫= fun l => IPRange.block (IPRange.getPrefix l)))
    ∧ ∀ path, path ≠ IPRange.output → files' !! path = range_files !! path.
Proof.
  apply (ranges_of_distinct_lines is_ipv4_literal range_files "list.txt" range_list
           OS.Written).
  - discriminate.
  - reflexivity.
  - intros err. discriminate.
Defined.

(** The run of that input: two ranges of the same prefix. *)
Example ranges_of_neighbours :
  IPRange.distinct_lines (Bufio.Scan range_list).1
  = ["10.0.0.1"; "10.0.0.7"; "localhost"]
  ∧ filter (fun l => IPRange.accepted is_ipv4_literal l = true)
      (IPRange.distinct_lines (Bufio.Scan range_list).1)
    = ["10.0.0.1"; "10.0.0.7"]
  ∧ IPRange.getPrefix "10.0.0.1" = "10.0.0"
  ∧ IPRange.getPrefix "10.0.0.7" = "10.0.0".
Proof. vm_compute. repeat split; reflexivity. Qed.

Lemma getPrefix_splits_witness :
  ∃ d, dotfree d = true ∧ "10.0.0.1" = IPRange.getPrefix "10.0.0.1" +:+ "." +:+ d.
Proof.
  apply (getPrefix_splits "10.0.0.1"). intros H. vm_compute in H. discriminate H.
Defined.

(** * Further properties: the progress messages *)

Lemma HasPrefix_app (prefix s : string) :
  Strings.HasPrefix (prefix +:+ s) prefix = true.
Proof.
  induction prefix as [|c prefix IH]; [by destruct s|].
  change (String c prefix +:+ s) with (String c (prefix +:+ s)).
  cbn [Strings.HasPrefix]. by rewrite Ascii.eqb_refl.
Qed.

(** What a critical section for a new address prints. *)
Lemma checkAndWrite_prints (ip : string) (fate : OS.AppendFate) (w : World) :
  ip ∉ ipMap w →
  stdout (checkAndWrite ip fate w).1
  = stdout w
    ++ match fate with
       | OS.OpenFails err => ["Write error: " +:+ err +:+ nl]
       | _ => []
       end
    ++ (if (GoInt.rem (GoInt.add (counter w) 1) 500 =? 0)%Z
        then ["Resolved " +:+ pretty (GoInt.add (counter w) 1)
              +:+ " IPs so far..." +:+ nl]
        else []).
Proof.
  intros Hnew. rewrite (checkAndWrite_new _ _ _ Hnew). cbn [fst].
  set (w1 := set_ipMap ({[ip]} ∪ ipMap w) w).
  assert (Hout : stdout (appendIP ip fate w1)
                 = stdout w ++ match fate with
                               | OS.OpenFails err => ["Write error: " +:+ err +:+ nl]
                               | _ => []
                               end
                 ∧ counter (appendIP ip fate w1) = counter w).
  { destruct fate as [err | k |].
    - by rewrite appendIP_open_fails.
    - destruct (appendIP_opened ip (OS.WriteFails k) w1) as (_ & _ & -> & ->);
        [discriminate|]. by rewrite app_nil_r.
    - destruct (appendIP_opened ip OS.Written w1) as (_ & _ & -> & ->);
        [discriminate|]. by rewrite app_nil_r. }
  destruct Hout as [Hout Hctr].
  unfold updateProgress. cbn [counter set_counter]. rewrite Hctr.
  destruct (GoInt.rem (GoInt.add (counter w) 1) 500 =? 0)%Z;
    cbn [print stdout set_counter]; rewrite Hout;
    by rewrite ?app_nil_r, <- ?app_assoc.
Qed.

Lemma progress_step (c : Z) :
  (0 <= c)%Z →
  seq 1 (Z.to_nat ((c + 1) / 500))
  = seq 1 (Z.to_nat (c / 500))
    ++ (if (GoInt.rem (c + 1) 500 =? 0)%Z then [Z.to_nat ((c + 1) / 500)] else [])
  ∧ (GoInt.rem (c + 1) 500 = 0%Z →
     (500 * Z.of_nat (Z.to_nat ((c + 1) / 500)))%Z = (c + 1)%Z).
Proof.
  intros Hc. unfold GoInt.rem. rewrite Z.rem_mod_nonneg by lia.
  destruct (Z.eqb_spec ((c + 1) mod 500) 0) as [E | E].
  - assert (Hq : ((c + 1) / 500 = c / 500 + 1)%Z)
      by (Z.div_mod_to_equations; lia).
    assert (Hpos : (0 <= c / 500)%Z) by (Z.div_mod_to_equations; lia).
    split.
    + rewrite Hq. replace (Z.to_nat (c / 500 + 1)) with (S (Z.to_nat (c / 500))) by lia.
      rewrite seq_S. reflexivity.
    + intros _. Z.div_mod_to_equations. lia.
  - split; [|done]. rewrite app_nil_r.
    assert (Hq : ((c + 1) / 500 = c / 500)%Z) by (Z.div_mod_to_equations; lia).
    by rewrite Hq.
Qed.

Lemma progress_exec (loaded : gset string) (a : Action) (s s' : State) :
  Count loaded s → Count loaded s' →
  exec a s = Some s' →
  filter is_progress (stdout (world s))
  = map progress_message (seq 1 (Z.to_nat (counter (world s) / 500))) →
  filter is_progress (stdout (world s'))
  = map progress_message (seq 1 (Z.to_nat (counter (world s') / 500))).
Proof.
  intros Hcount Hcount' Hexec Hinv.
  pose proof (count_counter _ _ Hcount) as Hc.
  pose proof (count_history _ _ Hcount) as Hh.
  pose proof (count_counter _ _ Hcount') as Hc'.
  pose proof (count_history _ _ Hcount') as Hh'.
  destruct a; cbn [exec] in Hexec; repeat case_match; simplify_eq;
    cbn [world history] in *; try exact Hinv.
  - (* Finish *)
    cbn [print stdout counter]. rewrite filter_app, Hinv.
    rewrite filter_cons, filter_nil. case_decide as Hp; [discriminate Hp|].
    by rewrite app_nil_r.
  - (* Body *)
    match goal with
    | Hcw : checkAndWrite ?ip ?fate ?w = _ |- _ =>
        destruct (checkAndWrite_cases _ _ _ _ _ Hcw) as [(-> & _ & ->) | (-> & Hnew & _)];
          [exact Hinv|];
        pose proof (checkAndWrite_prints ip fate w Hnew) as Hout;
        pose proof (checkAndWrite_counter ip fate w Hnew) as Hctr;
        rewrite Hcw in Hout, Hctr; cbn [fst] in Hout, Hctr
    end.
    rewrite news_snoc in Hh'.
    assert (Hnext : GoInt.add (counter (world s)) 1 = (counter (world s) + 1)%Z)
      by (rewrite <- Hctr; lia).
    rewrite Hnext in Hout, Hctr.
    destruct (progress_step (counter (world s))) as [Hseq Hmsg]; [lia|].
    rewrite Hout, Hctr, Hseq, !filter_app, Hinv, map_app.
    f_equal.
    assert (Herr : filter is_progress
                     match fate with
                     | OS.OpenFails err => ["Write error: " +:+ err +:+ nl]
                     | _ => []
                     end = []).
    { destruct fate as [err | k |]; reflexivity. }
    rewrite Herr. cbn [app].
    destruct (GoInt.rem (counter (world s) + 1) 500 =? 0)%Z eqn:Hrem; [|reflexivity].
    apply Z.eqb_eq in Hrem. rewrite filter_cons, filter_nil.
    case_decide as Hp.
    + cbn [map]. unfold progress_message. by rewrite (Hmsg Hrem).
    + exfalso. apply Hp. apply HasPrefix_app.
Qed.

(** X16. The progress messages count in steps of 500.  In every state of a
    pool that [main] has started, the messages of [updateProgress] printed
    so far are those for 500, 1000, ... up to the largest multiple of 500
    that the counter has reached, each once and in this order. *)
Theorem progress_messages
    (files : gmap string OS.File) (file : string) (threadCount : Z)
    (s0 s : State) (schedule : list Action) :
  GoInt.in_range threadCount →
  (Z.of_nat (length (readDomains files file).1) <= GoInt.max_int)%Z →
  main files file threadCount = Started s0 →
  run schedule s0 = Some s →
  filter is_progress (stdout (world s))
  = map progress_message (seq 1 (Z.to_nat (counter (world s) / 500))).
Proof.
  intros Hrange Hlen Hmain Hrun.
  destruct (main_started _ _ _ _ Hrange Hmain) as (out & n & cap & -> & Hn & Hcap).
  assert (Hout : filter is_progress out = []).
  { unfold main in Hmain.
    destruct (readDomains files file) as [domains [err|]]; [discriminate|].
    destruct (make_chan _); [|discriminate]. by injection Hmain as <- _ _. }
  set (w0 := {| ipMap := loadIPs files "ips.txt"; counter := 0; fs := files;
                stdout := out |}) in *.
  set (domains := (readDomains files file).1) in *.
  assert (Hall : Flow domains n s ∧ Count (ipMap w0) s
                 ∧ filter is_progress (stdout (world s))
                   = map progress_message
                       (seq 1 (Z.to_nat (counter (world s) / 500)))).
  { revert Hrun.
    apply (run_invariant
             (fun s => Flow domains n s ∧ Count (ipMap w0) s
                       ∧ filter is_progress (stdout (world s))
                         = map progress_message
                             (seq 1 (Z.to_nat (counter (world s) / 500))))).
    - intros a s1 s2 (Hflow & Hcount & Hinv) Hexec.
      pose proof (Count_exec _ _ _ _ _ _ Hlen Hflow Hcount Hexec) as Hcount2.
      split; [by eapply Flow_exec|]. split; [exact Hcount2|].
      exact (progress_exec _ _ _ _ Hcount Hcount2 Hexec Hinv).
    - split; [apply Flow_start; lia|]. split; [by apply Count_start|].
      exact Hout. }
  apply Hall.
Qed.

Lemma progress_messages_witness :
  filter is_progress (stdout (world restart_end))
  = map progress_message (seq 1 (Z.to_nat (counter (world restart_end) / 500))).
Proof.
  apply (progress_messages seeded_files "domains.txt" 1 restart_start restart_end
           restart_schedule).
  - vm_compute. split; intros H; discriminate H.
  - vm_compute. intros H; discriminate H.
  - exact restart_main.
  - exact restart_run.
Defined.
